(** * ICTV accession parsing and FASTA regrouping ([organise_taxa_fasta.py])

    A shallow embedding of [src/ICTV/organise_taxa_fasta.py]:
    [sanitize_filename], [parse_accession_ids], [read_fasta_sequences],
    [write_fasta_files] and [main] from the data frame on.

    - Strings are Python [str] values over the code points below 256, one
      [ascii] per code point; the character classes are those of [re] on
      [str] patterns for these code points.
    - The regular expressions of the script are kept as syntax ([regex]) and
      run by a backtracking matcher with the priorities of [re]: a greedy
      repetition tries more iterations first, and the first success is the
      match.  Direct scanners for the four patterns are proved equal to the
      matcher and carry the general proofs.
    - Exceptions are results ([Py.result]); a loop threads its variables.
    - [acc_dict] is an insertion-ordered dict, since [write_fasta_files]
      iterates over it; the index of the archive and the set of accessions
      are only looked up, and are a [gmap] and a [gset].
    - The data frame is the list of its rows, the archive the list of its
      records, the files a map to the records written; what the system
      answers to [os.path.exists], [os.makedirs] and [open] comes with
      them ([filesystem]).

    The segment filter of [extract_data_from_excel] and the scripts
    [src/ICTV/parse_acc.py], [src/ICTV/extract_string_fasta.py] and
    [src/homopolymers/homopolymers.py] are embedded in the same way, each in
    a part of its own after the definitions of this script. *)

From Stdlib Require Import Ascii NArith DecimalString DecimalN.
From Stdlib Require DecimalPos DecimalFacts.
From stdpp Require Import gmap strings list.

Local Open Scope N_scope.

(** ** Exceptions and results *)

Module Py.

(** The exceptions the modelled functions can raise. *)
Inductive exn : Set :=
| ValueError      (* wrong number of values to unpack, duplicate key *)
| AttributeError  (* [.group] of [None] *)
| KeyError        (* [d[key]] for a key that [d] lacks *)
| OSError.        (* [OSError] and its subclasses, from [os.makedirs], [open] *)

Inductive result (A : Type) : Type :=
| Ok (a : A)
| Raise (e : exn).
Arguments Ok {A} a.
Arguments Raise {A} e.

Definition bind {A B} (m : result A) (k : A → result B) : result B :=
  match m with
  | Ok a => k a
  | Raise e => Raise e
  end.

Definition raises {A} (m : result A) : bool :=
  match m with Ok _ => false | Raise _ => true end.

End Py.
Import Py.

Notation "'let*' x ':=' m 'in' k" := (Py.bind m (λ x, k))
  (at level 10, x name, m at level 100, k at level 200).

(** ** Character classes of [re] on [str] patterns (code points below 256) *)

Definition code (c : ascii) : N := N_of_ascii c.

Definition between (lo hi : N) (c : ascii) : bool :=
  (lo <=? code c) && (code c <=? hi).

(** [\d]: the decimal digits; below 256 these are 0-9 only. *)
Definition is_digit (c : ascii) : bool := between 48 57 c.

(** [str.isalnum] below 256: ASCII letters and digits, and the Latin-1
    letters and numeric characters. *)
Definition is_alnum (c : ascii) : bool :=
  is_digit c || between 65 90 c || between 97 122 c
  || (code c =? 170) || between 178 179 c || (code c =? 181)
  || between 185 186 c || between 188 190 c
  || between 192 214 c || between 216 246 c || between 248 255 c.

(** [\w]: alphanumeric or underscore. *)
Definition is_word (c : ascii) : bool := is_alnum c || (code c =? 95).

(** [\s]: [str.isspace] below 256. *)
Definition is_space (c : ascii) : bool :=
  between 9 13 c || between 28 32 c || (code c =? 133) || (code c =? 160).

Definition is_char (x : ascii) (c : ascii) : bool := Ascii.eqb c x.

(** [[\w-]] *)
Definition is_tokchar (c : ascii) : bool := is_word c || is_char "-" c.

(** [[^\w\s-]] *)
Definition is_special (c : ascii) : bool :=
  negb (is_word c || is_space c || is_char "-" c).

(** [[LSM]] *)
Definition is_segcode (c : ascii) : bool :=
  is_char "L" c || is_char "S" c || is_char "M" c.

(** ** Regular expressions *)

Inductive regex : Type :=
| Cls (p : ascii → bool)      (* one character of a class *)
| Cat (r1 r2 : regex)         (* r1 r2 *)
| Star (r : regex)            (* r*  greedy *)
| Plus (r : regex)            (* r+  greedy *)
| Grp (i : nat) (r : regex)   (* capturing group number i *)
| WordB                       (* \b *)
| Eol.                        (* $ *)

(** A position during matching: the character before it, the text after it,
    and the groups captured so far. *)
Record mstate : Type := MState {
  st_prev : option ascii;
  st_rest : string;
  st_caps : list (nat * string)
}.

Abbreviation slen := String.length.

(** The first [n] characters of [s]. *)
Fixpoint take_str (n : nat) (s : string) : string :=
  match n, s with
  | S n', String c t => String c (take_str n' t)
  | _, _ => EmptyString
  end.

(** What was consumed between the text [s] and its suffix [s']. *)
Definition consumed (s s' : string) : string :=
  take_str (slen s - slen s') s.

Definition word_before (p : option ascii) : bool :=
  match p with Some c => is_word c | None => false end.

Definition word_after (s : string) : bool :=
  match s with String c _ => is_word c | EmptyString => false end.

(** [$] without MULTILINE: at the end, or before a newline that ends the
    string. *)
Definition at_eol (s : string) : bool :=
  match s with
  | EmptyString => true
  | String c EmptyString => is_char "010" c
  | _ => false
  end.

Definition set_cap (i : nat) (v : string) (st : mstate) : mstate :=
  MState (st_prev st) (st_rest st) ((i, v) :: st_caps st).

(** Greedy repetition: every way to iterate [step], more iterations first.
    An iteration has to consume a character; [fuel] is the length of the
    remaining text, so it never runs out before the text does. *)
Fixpoint star_matches (step : mstate → list mstate) (fuel : nat)
    (st : mstate) : list mstate :=
  match fuel with
  | O => [st]
  | S f =>
      flat_map (λ st',
          if (slen (st_rest st') <? slen (st_rest st))%nat
          then star_matches step f st' else [])
        (step st)
      ++ [st]
  end.

(** All the ways [r] matches at a position, in the order a backtracking
    matcher tries them; the head is the match [re] reports. *)
Fixpoint rmatches (r : regex) (st : mstate) : list mstate :=
  match r with
  | Cls p =>
      match st_rest st with
      | String c t => if p c then [MState (Some c) t (st_caps st)] else []
      | EmptyString => []
      end
  | Cat r1 r2 => flat_map (rmatches r2) (rmatches r1 st)
  | Star r1 => star_matches (rmatches r1) (slen (st_rest st)) st
  | Plus r1 =>
      flat_map (λ st', star_matches (rmatches r1) (slen (st_rest st')) st')
        (rmatches r1 st)
  | Grp i r1 =>
      map (λ st', set_cap i (consumed (st_rest st) (st_rest st')) st')
        (rmatches r1 st)
  | WordB =>
      if xorb (word_before (st_prev st)) (word_after (st_rest st))
      then [st] else []
  | Eol => if at_eol (st_rest st) then [st] else []
  end.

(** The match of [r] at the start of [s], if any, with [prev] before it. *)
Definition match_at (r : regex) (prev : option ascii) (s : string)
    : option mstate :=
  head (rmatches r (MState prev s [])).

Definition group (i : nat) (st : mstate) : string :=
  match list_find (λ c, c.1 = i) (st_caps st) with
  | Some (_, (_, v)) => v
  | None => EmptyString
  end.

(** [re.search(r, s)]: the leftmost match; [Some] of its group 0. *)
Fixpoint re_search_from (r : regex) (prev : option ascii) (s : string)
    : option string :=
  match match_at r prev s with
  | Some st => Some (consumed s (st_rest st))
  | None =>
      match s with
      | String c t => re_search_from r (Some c) t
      | EmptyString => None
      end
  end.

Definition re_search (r : regex) (s : string) : option string :=
  re_search_from r None s.

(** [m.group(0)] where [m] may be [None]. *)
Definition group0 (m : option string) : result string :=
  match m with
  | Some g => Ok g
  | None => Raise AttributeError
  end.

(** [re.findall(r, s)] for a pattern with two groups: the pairs
    (group 1, group 2) of the successive non-overlapping matches.  [skip]
    counts the characters still inside the previous match.  (For patterns
    that match no empty string, as all those of the script: nothing is
    tried at the end of the text.) *)
Fixpoint findall_from (r : regex) (skip : nat) (prev : option ascii)
    (s : string) : list (string * string) :=
  match s with
  | EmptyString => []
  | String c t =>
      match skip with
      | S k => findall_from r k (Some c) t
      | O =>
          match match_at r prev s with
          | Some st =>
              (group 1 st, group 2 st)
              :: findall_from r (slen s - slen (st_rest st) - 1) (Some c) t
          | None => findall_from r 0 (Some c) t
          end
      end
  end.

Definition re_findall (r : regex) (s : string) : list (string * string) :=
  findall_from r 0 None s.

(** [re.sub(r, repl, s)] with a literal replacement, for such patterns. *)
Fixpoint sub_from (r : regex) (repl : string) (skip : nat)
    (prev : option ascii) (s : string) : string :=
  match s with
  | EmptyString => EmptyString
  | String c t =>
      match skip with
      | S k => sub_from r repl k (Some c) t
      | O =>
          match match_at r prev s with
          | Some st =>
              repl +:+ sub_from r repl (slen s - slen (st_rest st) - 1) (Some c) t
          | None => String c (sub_from r repl 0 (Some c) t)
          end
      end
  end.

Definition re_sub (r : regex) (repl : string) (s : string) : string :=
  sub_from r repl 0 None s.

(** ** Python string and integer operations *)

(** [s.split(sep)] for a one-character separator. *)
Fixpoint split_on (sep : ascii) (s : string) : list string :=
  match s with
  | EmptyString => [EmptyString]
  | String c t =>
      if Ascii.eqb c sep then EmptyString :: split_on sep t
      else match split_on sep t with
           | p :: ps => String c p :: ps
           | [] => [String c EmptyString]
           end
  end.

(** [x in s] for a one-character [x]. *)
Fixpoint contains (x : ascii) (s : string) : bool :=
  match s with
  | EmptyString => false
  | String c t => Ascii.eqb c x || contains x t
  end.

(** [s[:-n]] for [n > 0]: all but the last [n] characters. *)
Definition drop_last (n : nat) (s : string) : string :=
  take_str (slen s - n) s.

(** [sys.get_int_max_str_digits()]: the number of digits up to which
    CPython converts between [str] and [int] (the default of 3.11). *)
Definition int_max_str_digits : N := 4300.

(** [int(s)] on a run of decimal digits, the only strings the script passes
    to [int].  A text of more than 4300 digits, leading zeros counted, is
    refused with [ValueError]. *)
Definition py_int (s : string) : result N :=
  match s with
  | EmptyString => Raise ValueError
  | _ =>
      if int_max_str_digits <? N.of_nat (slen s) then Raise ValueError
      else
        match NilEmpty.uint_of_string s with
        | Some d => Ok (N.of_uint d)
        | None => Raise ValueError
        end
  end.

(** [str(n)], the formatting of [{num}] in an f-string.  (The numbers the
    script formats are at most a number that [int] returned: they have no
    more than 4300 digits, and the limit on the conversion to [str] is not
    met; this is [formatted_within_limit] below.) *)
Definition py_str (n : N) : string := NilEmpty.string_of_uint (N.to_uint n).

(** [range(a, b)] *)
Definition py_range (a b : N) : list N :=
  map (λ i, a + N.of_nat i) (seq 0 (N.to_nat (b - a))).

(** A [dict] with [str] keys: insertion-ordered, one entry per key;
    assigning to a present key replaces its value in place. *)
Definition dict (V : Type) : Type := list (string * V).

Fixpoint dict_set {V} (k : string) (v : V) (d : dict V) : dict V :=
  match d with
  | [] => [(k, v)]
  | (k', v') :: d' =>
      if String.eqb k' k then (k, v) :: d' else (k', v') :: dict_set k v d'
  end.

Fixpoint dict_get {V} (k : string) (d : dict V) : option V :=
  match d with
  | [] => None
  | (k', v') :: d' => if String.eqb k' k then Some v' else dict_get k d'
  end.

(** [d[k]] *)
Definition dict_item {V} (k : string) (d : dict V) : result V :=
  match dict_get k d with
  | Some v => Ok v
  | None => Raise KeyError
  end.

(** ** [sanitize_filename] *)

Definition special_re : regex := Cls is_special.          (* [^\w\s-] *)
Definition spaces_re : regex := Plus (Cls is_space).      (* \s+ *)

Definition sanitize_filename (filename : string) : string :=
  let filename := re_sub special_re EmptyString filename in
  let filename := re_sub spaces_re "_" filename in
  filename.

(** ** [parse_accession_ids] *)

(** [,[\w-]+] *)
Definition comma_token_re : regex :=
  Cat (Cls (is_char ",")) (Plus (Cls is_tokchar)).

(** The inside of group 2: [[\w-]+] and any number of [,[\w-]+]. *)
Definition token_list_re : regex :=
  Cat (Plus (Cls is_tokchar)) (Star comma_token_re).

(** The pattern of [re.findall]: a word boundary, group 1 [[LSM]], a colon,
    [\s*], and group 2. *)
Definition accession_re : regex :=
  Cat WordB
  (Cat (Grp 1 (Cls is_segcode))
  (Cat (Cls (is_char ":"))
  (Cat (Star (Cls is_space))
       (Grp 2 token_list_re)))).

(** [\d+$] *)
Definition trailing_digits_re : regex := Cat (Plus (Cls is_digit)) Eol.

(** The body of the loop over [group.split(',')]: the identifiers one part
    contributes to [ids]. *)
Definition expand_part (part : string) : result (list string) :=
  if contains "-" part then
    match split_on "-" part with
    | [start; end_] =>
        let* start_num := group0 (re_search trailing_digits_re start) in
        let* end_num := group0 (re_search trailing_digits_re end_) in
        let start_prefix := drop_last (slen start_num) start in
        let* lo := py_int start_num in
        let* hi := py_int end_num in
        Ok (map (λ num, start_prefix +:+ py_str num) (py_range lo (hi + 1)))
    | _ => Raise ValueError
    end
  else Ok [part].

(** [for part in parts: ...], threading the list [ids]. *)
Fixpoint parts_loop (parts : list string) (ids : list string)
    : result (list string) :=
  match parts with
  | [] => Ok ids
  | part :: parts' =>
      let* new := expand_part part in
      parts_loop parts' (ids ++ new)
  end.

(** [for key, group in id_pairs: ...], threading [acc_dict]. *)
Fixpoint pairs_loop (id_pairs : list (string * string)) (segment : string)
    (acc_dict : dict (list string)) : result (dict (list string)) :=
  match id_pairs with
  | [] => Ok acc_dict
  | (key, group) :: id_pairs' =>
      if negb (String.eqb segment "all") && negb (String.eqb key segment)
      then pairs_loop id_pairs' segment acc_dict
      else
        let* ids := parts_loop (split_on "," group) [] in
        pairs_loop id_pairs' segment (dict_set key ids acc_dict)
  end.

Definition parse_accession_ids (accession_str segment : string)
    : result (dict (list string)) :=
  let id_pairs := re_findall accession_re accession_str in
  pairs_loop id_pairs segment [].

(** ** [read_fasta_sequences] *)

(** A [SeqRecord] as far as the script looks at it. *)
Record SeqRecord : Type := mkSeqRecord {
  rec_id : string;        (* [record.id] *)
  rec_seq : string        (* the sequence, written out as it was read *)
}.

(** [lambda record: record.id.split('.')[0]] *)
Definition key_function (record : SeqRecord) : string :=
  match split_on "." (rec_id record) with
  | k :: _ => k
  | [] => EmptyString
  end.

(** [Bio.SeqIO.to_dict(sequences, key_function)] is Biopython's, not the
    script's.  Its loop is
      [d = dict()]
      [for record in sequences:]
      [    key = key_function(record)]
      [    if key in d: raise ValueError(Duplicate key)]
      [    d[key] = record]
    and that loop is what is embedded here. *)
Fixpoint to_dict_loop (sequences : list SeqRecord)
    (d : gmap string SeqRecord) : result (gmap string SeqRecord) :=
  match sequences with
  | [] => Ok d
  | record :: sequences' =>
      let key := key_function record in
      match d !! key with
      | Some _ => Raise ValueError
      | None => to_dict_loop sequences' (<[key := record]> d)
      end
  end.

Definition SeqIO_to_dict (sequences : list SeqRecord)
    : result (gmap string SeqRecord) :=
  to_dict_loop sequences ∅.

(** [fasta] is what [SeqIO.parse(fasta_path, 'fasta')] yields.  The result
    is [{acc: records.get(acc) for acc in accessions if acc in records}]. *)
Definition read_fasta_sequences (fasta : list SeqRecord)
    (accessions : gset string) : result (gmap string SeqRecord) :=
  let* records := SeqIO_to_dict fasta in
  Ok (list_to_map
        (omap (M := list)
              (λ acc, match records !! acc with
                      | Some r => Some (acc, r)
                      | None => None
                      end)
              (elements accessions))).

(** ** [write_fasta_files] and [main] *)

(** A row of the data frame returned by [extract_data_from_excel]. *)
Record row : Type := mkRow {
  Species : string;
  Virus_names : string;               (* column [Virus name(s)] *)
  Virus_GENBANK_accession : string
}.

(** What the files hold, each as the list of the records written to it. *)
Abbreviation files := (gmap string (list SeqRecord)).

(** The file system a run meets.  Whether a path exists, whether a folder
    can be made and a file opened for writing, and which file a path names
    (two paths can name one file) is the system's affair: the disk, the
    permissions, the working directory.  The script takes the answers as
    they come, and so does the model: they are given with the files, one
    answer for each path. *)
Record filesystem : Type := FileSystem {
  path_exists : string → bool;          (* [os.path.exists(p)] *)
  makedirs_error : string → option exn; (* what [os.makedirs(p)] raises *)
  open_error : string → option exn;     (* what [open(p, 'w')] raises *)
  file_of : string → string;            (* the file that the path [p] names *)
  contents : files                      (* what the files hold, by file *)
}.

(** [os.path.join(a, b)] on POSIX. *)
Definition path_join (a b : string) : string :=
  match b with
  | String "/" _ => b
  | _ =>
      match a with
      | EmptyString => b
      | _ =>
          if String.eqb (String.substring (slen a - 1) 1 a) "/"
          then a +:+ b else a +:+ "/" +:+ b
      end
  end.

(** [for acc in acc_dict[key]: if sequences.get(acc): SeqIO.write(...)];
    [f] is what the open file holds.  A [SeqRecord] is true whatever its
    length (Biopython's [SeqRecord.__bool__] returns [True]), so the test
    fails for [None] alone. *)
Fixpoint write_accs (accs : list string) (sequences : gmap string SeqRecord)
    (f : list SeqRecord) : list SeqRecord :=
  match accs with
  | [] => f
  | acc :: accs' =>
      match sequences !! acc with
      | Some r => write_accs accs' sequences (f ++ [r])
      | None => write_accs accs' sequences f
      end
  end.

(** [for key in acc_dict: ...] *)
Fixpoint write_keys (keys : list string) (acc_dict : dict (list string))
    (sequences : gmap string SeqRecord) (f : list SeqRecord)
    : result (list SeqRecord) :=
  match keys with
  | [] => Ok f
  | key :: keys' =>
      let* accs := dict_item key acc_dict in
      write_keys keys' acc_dict sequences (write_accs accs sequences f)
  end.

Definition file_name (r : row) (segment : string) : string :=
  let species := sanitize_filename (Species r) in
  let virus_name := sanitize_filename (Virus_names r) in
  let filename_suffix :=
    if negb (String.eqb segment "all") then "_" +:+ segment +:+ ".fasta"
    else "_all.fasta" in
  species +:+ "_" +:+ virus_name +:+ filename_suffix.

(** [if not os.path.exists(output_folder): os.makedirs(output_folder)] *)
Definition make_folder (fs : filesystem) (output_folder : string)
    : result unit :=
  if path_exists fs output_folder then Ok tt
  else
    match makedirs_error fs output_folder with
    | Some e => Raise e
    | None => Ok tt
    end.

(** One turn of [for _, row in df.iterrows()]: the row is parsed, the file
    is opened (and emptied), the records are written; [held] is what the
    files hold before the turn. *)
Definition write_row (fs : filesystem) (r : row)
    (sequences : gmap string SeqRecord) (output_folder segment : string)
    (held : files) : result files :=
  let filepath := path_join output_folder (file_name r segment) in
  let* acc_dict := parse_accession_ids (Virus_GENBANK_accession r) segment in
  match open_error fs filepath with
  | Some e => Raise e
  | None =>
      let* f := write_keys acc_dict.*1 acc_dict sequences [] in
      Ok (<[file_of fs filepath := f]> held)
  end.

(** [for _, row in df.iterrows()] *)
Fixpoint rows_loop (fs : filesystem) (df : list row)
    (sequences : gmap string SeqRecord) (output_folder segment : string)
    (held : files) : result files :=
  match df with
  | [] => Ok held
  | r :: df' =>
      let* held' := write_row fs r sequences output_folder segment held in
      rows_loop fs df' sequences output_folder segment held'
  end.

(** [write_fasta_files]: what the files hold after it. *)
Definition write_fasta_files (df : list row)
    (sequences : gmap string SeqRecord) (output_folder segment : string)
    (fs : filesystem) : result files :=
  match make_folder fs output_folder with
  | Ok _ => rows_loop fs df sequences output_folder segment (contents fs)
  | Raise e => Raise e
  end.

(** The set comprehension of [main]: every identifier of every row.  (It
    parses a row once more for each of its keys, with the same result.) *)
Fixpoint collect_accessions (df : list row) (segment : string)
    : result (gset string) :=
  match df with
  | [] => Ok ∅
  | r :: df' =>
      let* acc_dict := parse_accession_ids (Virus_GENBANK_accession r) segment in
      let* more := collect_accessions df' segment in
      Ok (list_to_set (concat acc_dict.*2) ∪ more)
  end.

(** [main], from the data frame on: what the files hold after the run. *)
Definition main (df : list row) (fasta : list SeqRecord)
    (output_folder segment : string) (fs : filesystem) : result files :=
  let* accessions := collect_accessions df segment in
  let* sequences := read_fasta_sequences fasta accessions in
  write_fasta_files df sequences output_folder segment fs.

(** ** Direct scanners

    What the four patterns compute, written as structural recursions on the
    text.  They are proved equal to the matcher below. *)

Fixpoint str_filter (p : ascii → bool) (s : string) : string :=
  match s with
  | EmptyString => EmptyString
  | String c t => if p c then String c (str_filter p t) else str_filter p t
  end.

(** Each maximal run of whitespace becomes one underscore; [in_run] tells
    that the previous character was whitespace. *)
Fixpoint collapse_ws (in_run : bool) (s : string) : string :=
  match s with
  | EmptyString => EmptyString
  | String c t =>
      if is_space c
      then if in_run then collapse_ws true t else String "_" (collapse_ws true t)
      else String c (collapse_ws false t)
  end.

(** Length of the longest prefix in the class [p]. *)
Fixpoint run_len (p : ascii → bool) (s : string) : nat :=
  match s with
  | String c t => if p c then S (run_len p t) else O
  | EmptyString => O
  end.

Fixpoint drop_str (n : nat) (s : string) : string :=
  match n, s with
  | S n', String _ t => drop_str n' t
  | _, _ => s
  end.

(** [s] is a nonempty run of digits up to the end (or a final newline). *)
Definition digits_eol (s : string) : bool :=
  (0 <? run_len is_digit s)%nat && at_eol (drop_str (run_len is_digit s) s).

Fixpoint trailing_digits (s : string) : option string :=
  if digits_eol s then Some (take_str (run_len is_digit s) s)
  else match s with
       | String _ t => trailing_digits t
       | EmptyString => None
       end.

Definition starts_with (p : ascii → bool) (s : string) : bool :=
  match s with String c _ => p c | EmptyString => false end.

(** What is left after a token list: token characters, and commas that a
    token character follows. *)
Fixpoint after_tokens (s : string) : string :=
  match s with
  | String c t =>
      if is_tokchar c then after_tokens t
      else if is_char "," c && starts_with is_tokchar t then after_tokens t
      else s
  | EmptyString => EmptyString
  end.

(** A segment marker at the start of [s]: its code, its token list and the
    text after it. *)
Definition marker_at (prev : option ascii) (s : string)
    : option (string * string * string) :=
  match s with
  | String k (String c t) =>
      if negb (word_before prev) && is_segcode k && is_char ":" c then
        let t1 := drop_str (run_len is_space t) t in
        if starts_with is_tokchar t1
        then Some (String k EmptyString, consumed t1 (after_tokens t1),
                   after_tokens t1)
        else None
      else None
  | _ => None
  end.

Fixpoint scan_from (skip : nat) (prev : option ascii) (s : string)
    : list (string * string) :=
  match s with
  | EmptyString => []
  | String c t =>
      match skip with
      | S k => scan_from k (Some c) t
      | O =>
          match marker_at prev s with
          | Some (key, grp, rest) =>
              (key, grp) :: scan_from (slen s - slen rest - 1) (Some c) t
          | None => scan_from 0 (Some c) t
          end
      end
  end.

(** The states a greedy run of [p] leaves behind, longest run first. *)
Fixpoint run_states (p : ascii → bool) (prev : option ascii) (s : string)
    (caps : list (nat * string)) : list mstate :=
  match s with
  | String c t =>
      if p c then run_states p (Some c) t caps ++ [MState prev s caps]
      else [MState prev s caps]
  | EmptyString => [MState prev s caps]
  end.

Fixpoint run_prev (p : ascii → bool) (prev : option ascii) (s : string)
    : option ascii :=
  match s with
  | String c t => if p c then run_prev p (Some c) t else prev
  | EmptyString => prev
  end.

(** ** Shapes of tokens *)

Fixpoint str_forall (p : ascii → bool) (s : string) : bool :=
  match s with
  | EmptyString => true
  | String c t => p c && str_forall p t
  end.

(** The last character of [s] is in the class [p]. *)
Fixpoint ends_with (p : ascii → bool) (s : string) : bool :=
  match s with
  | EmptyString => false
  | String c EmptyString => p c
  | String _ t => ends_with p t
  end.

(** The character before the position reached after [s]. *)
Fixpoint last_char (prev : option ascii) (s : string) : option ascii :=
  match s with
  | EmptyString => prev
  | String c t => last_char (Some c) t
  end.

(** A nonempty run of decimal digits. *)
Definition is_number (d : string) : bool :=
  negb (String.eqb d EmptyString) && str_forall is_digit d.

(** What precedes the trailing digit run of an identifier: word characters,
    the last of which is no digit. *)
Definition is_prefix (p : string) : bool :=
  str_forall is_word p && negb (ends_with is_digit p).

(** A token of a group: a nonempty run of [[\w-]]. *)
Definition is_token (t : string) : bool :=
  negb (String.eqb t EmptyString) && str_forall is_tokchar t.

(** [','.join(toks)] *)
Fixpoint join_commas (toks : list string) : string :=
  match toks with
  | [] => EmptyString
  | [t] => t
  | t :: ts => t +:+ "," +:+ join_commas ts
  end.

(** A range token [START-END]. *)
Definition range_token (start end_ : string) : string :=
  start +:+ "-" +:+ end_.

(** The character [c], [n] times. *)
Definition char_run (c : ascii) (n : nat) : string :=
  Nat.iter n (String c) EmptyString.

(** A text that cannot continue a token list: it does not start with a
    token character, nor with a comma that a token character follows. *)
Definition group_stop (x : string) : bool :=
  match x with
  | EmptyString => true
  | String c t =>
      negb (is_tokchar c) && negb (is_char "," c && starts_with is_tokchar t)
  end.

(** The groups the segment filter keeps: the negation of the test before
    [continue]. *)
Definition keeps (segment key : string) : bool :=
  String.eqb segment "all" || String.eqb key segment.

(** ** The identifiers and payloads of a row *)

(** The identifiers of a parsed row: segment by segment in the order of the
    dict, token by token inside a segment. *)
Definition row_ids (acc_dict : dict (list string)) : list string :=
  concat acc_dict.*2.

(** The payloads the index has for them, in that order. *)
Definition resolved (records : gmap string SeqRecord)
    (acc_dict : dict (list string)) : list SeqRecord :=
  omap (M := list) (λ acc, records !! acc) (row_ids acc_dict).

(** Where the group of a row is written. *)
Definition group_path (output_folder segment : string) (r : row) : string :=
  path_join output_folder (file_name r segment).

(** What the files hold after the groups of the rows were written, each
    to the file of its row and with the payloads the index has for its
    identifiers; [held] is what they held before. *)
Definition write_groups (fs : filesystem) (records : gmap string SeqRecord)
    (output_folder segment : string)
    (groups : list (row * dict (list string))) (held : files) : files :=
  foldl (λ held g, <[file_of fs (group_path output_folder segment g.1)
                       := resolved records g.2]> held) held groups.

(** A file system for the examples: nothing is there yet but the files
    [held], a folder can be made unless its name is empty, every file can
    be opened, and different paths name different files. *)
Definition fresh_disk (held : files) : filesystem := {|
  path_exists := λ _, false;
  makedirs_error := λ p, if String.eqb p EmptyString then Some OSError else None;
  open_error := λ _, None;
  file_of := λ p, p;
  contents := held
|}.

(** The row parses to this dict. *)
Definition parses_to (segment : string) (r : row)
    (acc_dict : dict (list string)) : Prop :=
  parse_accession_ids (Virus_GENBANK_accession r) segment = Ok acc_dict.

(** Sanitization as the specification words it: keep the alphanumeric
    characters, whitespace and hyphens, then turn each run of whitespace
    into one underscore. *)
Definition sanitize_alnum_only (filename : string) : string :=
  collapse_ws false
    (str_filter (λ c, is_alnum c || is_space c || is_char "-" c) filename).

(** ** Further shapes *)

(** A token without hyphen: a nonempty run of word characters. *)
Definition is_plain_token (t : string) : bool :=
  negb (String.eqb t EmptyString) && str_forall is_word t.

(** [output_folder] as [os.path.join] puts it before a relative name. *)
Definition folder_prefix (output_folder : string) : string :=
  match output_folder with
  | EmptyString => EmptyString
  | _ =>
      if String.eqb
           (String.substring (slen output_folder - 1) 1 output_folder) "/"
      then output_folder else output_folder +:+ "/"
  end.

(** The values of [--segment] that [parse_arguments] lets through. *)
Definition segment_choices : list string := ["L"; "M"; "S"; "all"].

(** A marker as it is written: the code, a colon, whitespace, the tokens
    with commas between them. *)
Definition marker_text (g : ascii * string * list string) : string :=
  let '(k, ws, toks) := g in
  String k (":" +:+ ws +:+ join_commas toks).

(** Markers one after the other with a semicolon and a space between them,
    the way the accession column is filled in. *)
Fixpoint accession_text (groups : list (ascii * string * list string))
    : string :=
  match groups with
  | [] => EmptyString
  | [g] => marker_text g
  | g :: gs => marker_text g +:+ "; " +:+ accession_text gs
  end.

Definition well_formed_group (g : ascii * string * list string) : Prop :=
  let '(k, ws, toks) := g in
  is_segcode k = true ∧ str_forall is_space ws = true
  ∧ Forall (λ t, is_token t = true) toks ∧ toks ≠ [].

Definition group_pair (g : ascii * string * list string) : string * string :=
  let '(k, _, toks) := g in (String k EmptyString, join_commas toks).

(** ** Rows with text between the markers *)

(** A marker (code, whitespace, tokens) and the text after its token list,
    up to the next marker or the end of the string. *)
Definition cut_group : Type := ascii * string * list string * string.

Definition cut_code (c : cut_group) : string := String c.1.1.1 EmptyString.
Definition cut_toks (c : cut_group) : list string := c.1.2.
Definition cut_rest (c : cut_group) : string := c.2.

Fixpoint cell_text (cells : list cut_group) : string :=
  match cells with
  | [] => EmptyString
  | c :: cs => marker_text c.1 +:+ cut_rest c +:+ cell_text cs
  end.

(** The marker is well formed, and the text after its token list cannot
    continue the list and has no colon, so that it holds no marker. *)
Definition well_cut (c : cut_group) : Prop :=
  well_formed_group c.1
  ∧ group_stop (cut_rest c) = true ∧ contains ":" (cut_rest c) = false.

(** A text between two markers: it is there and ends in a character that
    is neither a word character nor a comma, so that the next marker is at
    a word boundary and is no token of the list before. *)
Definition separates (x : string) : Prop :=
  x ≠ EmptyString ∧ ends_with (λ c, is_word c || is_char "," c) x = false.

Fixpoint separated (cells : list cut_group) : Prop :=
  match cells with
  | c :: cs =>
      match cs with
      | [] => True
      | _ :: _ => separates (cut_rest c) ∧ separated cs
      end
  | [] => True
  end.

(** ** Tokens by kind *)

(** A token without hyphen, or a range token with the prefixes and
    numerals of its two parts and the numbers that [int] reads. *)
Inductive token : Type :=
| Plain (t : string)
| Range (p ds q de : string) (lo hi : N).

Definition token_text (t : token) : string :=
  match t with
  | Plain t => t
  | Range p ds q de _ _ => range_token (p +:+ ds) (q +:+ de)
  end.

Definition token_ok (t : token) : Prop :=
  match t with
  | Plain t => is_plain_token t = true
  | Range p ds q de lo hi =>
      is_prefix p = true ∧ is_number ds = true
      ∧ is_prefix q = true ∧ is_number de = true
      ∧ py_int ds = Ok lo ∧ py_int de = Ok hi
  end.

(** The identifiers of a token: itself, or the prefix of START followed by
    each number from the start number to the end number; none when the end
    number is the smaller. *)
Definition token_ids (t : token) : list string :=
  match t with
  | Plain t => [t]
  | Range p _ _ _ lo hi =>
      map (λ num, p +:+ py_str num) (py_range lo (hi + 1))
  end.


(** A marker with tokens by kind, and the text after its token list. *)
Definition token_group : Type := ascii * string * list token * string.

Definition texts (g : token_group) : cut_group :=
  (g.1.1.1, g.1.1.2, token_text <$> g.1.2, g.2).

Definition group_tokens (g : token_group) : list token := g.1.2.

(** * [parse_acc.py] *)

Module ParseAcc.

(** [s.lstrip()] and [s.rstrip()]: whitespace is what [str.isspace] says,
    the class of [\s]. *)
Fixpoint lstrip (s : string) : string :=
  match s with
  | String c t => if is_space c then lstrip t else s
  | EmptyString => EmptyString
  end.

Fixpoint rstrip (s : string) : string :=
  match s with
  | EmptyString => EmptyString
  | String c t =>
      match rstrip t with
      | EmptyString => if is_space c then EmptyString else String c EmptyString
      | r => String c r
      end
  end.

(** [s.strip()] *)
Definition strip (s : string) : string := rstrip (lstrip s).

(** [accessions[key].append(value)] on a [defaultdict(list)]: a key that is
    not there comes in at the end with the empty list first. *)
Definition dict_append (key value : string) (accessions : dict (list string))
    : dict (list string) :=
  match dict_get key accessions with
  | Some values => dict_set key (values ++ [value]) accessions
  | None => dict_set key [value] accessions
  end.

(** The body of [for part in parts]. *)
Definition part_step (part : string) (accessions : dict (list string))
    : result (dict (list string)) :=
  if contains ":" part then
    match split_on ":" (strip part) with
    | [key; value] => Ok (dict_append (strip key) (strip value) accessions)
    | _ => Raise ValueError
    end
  else Ok accessions.

Fixpoint parts_loop (parts : list string) (accessions : dict (list string))
    : result (dict (list string)) :=
  match parts with
  | [] => Ok accessions
  | part :: parts' =>
      let* accessions' := part_step part accessions in
      parts_loop parts' accessions'
  end.

(** [for line in file], the lines as the file object yields them. *)
Fixpoint lines_loop (lines : list string) (accessions : dict (list string))
    : result (dict (list string)) :=
  match lines with
  | [] => Ok accessions
  | line :: lines' =>
      let parts := split_on ";" (strip line) in
      let* accessions' := parts_loop parts accessions in
      lines_loop lines' accessions'
  end.

Definition parse_accessions (lines : list string)
    : result (dict (list string)) :=
  lines_loop lines [].

(** What [file.writelines] writes for the items of a key. *)
Fixpoint item_lines (items : list string) : string :=
  match items with
  | [] => EmptyString
  | item :: items' => item +:+ String "010" (item_lines items')
  end.

(** [for key in accessions], the files as a map from names to texts, for
    a run in which every [open] succeeds; [accessions[key]] of a
    [defaultdict] is the empty list for a key that is not there. *)
Fixpoint write_keys (keys : list string) (accessions : dict (list string))
    (output_prefix : string) (fs : gmap string string) : gmap string string :=
  match keys with
  | [] => fs
  | key :: keys' =>
      let items := default [] (dict_get key accessions) in
      write_keys keys' accessions output_prefix
        (<[output_prefix +:+ "_" +:+ key +:+ ".txt" := item_lines items]> fs)
  end.

Definition write_outputs (accessions : dict (list string))
    (output_prefix : string) (fs : gmap string string) : gmap string string :=
  write_keys accessions.*1 accessions output_prefix fs.

(** [main], from the lines of the input file on. *)
Definition main (lines : list string) (output_prefix : string)
    (fs : gmap string string) : result (gmap string string) :=
  let* accessions := parse_accessions lines in
  Ok (write_outputs accessions output_prefix fs).

(** The values a dict has for a key, none if the key is absent. *)
Definition values (key : string) (accessions : dict (list string))
    : list string :=
  default [] (dict_get key accessions).

End ParseAcc.

(** ** [sub in s] *)

(** The substring test of Python: [sub] starts at some position of [s]. *)
Fixpoint str_in (sub s : string) : bool :=
  String.prefix sub s
  || match s with
     | String _ t => str_in sub t
     | EmptyString => false
     end.

(** ** [extract_data_from_excel]: the segment filter *)

(** [df[df['Virus GENBANK accession'].str.contains(f'{segment}:')]] when
    [segment] is not [all], on rows whose cells are strings.  For the
    segments that [--segment] admits the pattern has no special character,
    and [str.contains] is the substring test. *)
Definition segment_rows (df : list row) (segment : string) : list row :=
  if negb (String.eqb segment "all")
  then List.filter (λ r, str_in (segment +:+ ":") (Virus_GENBANK_accession r)) df
  else df.

(** * [extract_string_fasta.py] *)

Module ExtractString.

(** [c.lower()] for a code point below 256: the letters A to Z and the
    capital letters of Latin-1 (192 to 222 without the sign 215) move up by
    32. *)
Definition lower_char (c : ascii) : ascii :=
  if between 65 90 c || (between 192 222 c && negb (code c =? 215))
  then ascii_of_N (code c + 32) else c.

(** [s.lower()] *)
Fixpoint lower (s : string) : string :=
  match s with
  | EmptyString => EmptyString
  | String c t => String (lower_char c) (lower t)
  end.

(** A record of the archive as far as the script looks at it. *)
Record FastaRecord : Type := mkFastaRecord {
  description : string;   (* [record.description], the whole title line *)
  sequence : string
}.

(** [any(search_term.lower() in record.description.lower()
         for search_term in search_terms)] *)
Definition matches (search_terms : list string) (record : FastaRecord) : bool :=
  existsb (λ search_term,
             str_in (lower search_term) (lower (description record)))
    search_terms.

(** The list [sequences_found] after the loop over the archive. *)
Definition sequences_found (fasta : list FastaRecord) (search_strings : string)
    : list FastaRecord :=
  let search_terms := split_on "," search_strings in
  List.filter (matches search_terms) fasta.

(** [filter_sequences]: the output file is written when something was
    found, and only then. *)
Definition filter_sequences (fasta : list FastaRecord)
    (search_strings output_file : string)
    (fs : gmap string (list FastaRecord)) : gmap string (list FastaRecord) :=
  match sequences_found fasta search_strings with
  | [] => fs
  | found => <[output_file := found]> fs
  end.

End ExtractString.

(** * [homopolymers.py] *)

Module Homopolymers.

(** The exceptions of this script. *)
Inductive exn : Set :=
| IndexError   (* [l[i]] out of range, [s[0]] of the empty string *)
| KeyError.    (* [d[key]] for a key that [d] lacks *)

Inductive result (A : Type) : Type :=
| Ok (a : A)
| Raise (e : exn).
Arguments Ok {A} a.
Arguments Raise {A} e.




























End Homopolymers.

(** * Properties *)

(** Facts about the classes are settled by running through the 256
    characters. *)
Ltac by_char_cases c :=
  destruct c as [[] [] [] [] [] [] [] []]; vm_compute; congruence.

(** ** Strings *)

Lemma app_cons c a b : String c a +:+ b = String c (a +:+ b).
Proof. reflexivity. Qed.

Lemma app_empty_l b : EmptyString +:+ b = b.
Proof. reflexivity. Qed.

Lemma app_empty_r a : a +:+ EmptyString = a.
Proof. induction a as [|c a IH]; [reflexivity|]. by rewrite app_cons, IH. Qed.

Lemma app_assoc_str a b c : (a +:+ b) +:+ c = a +:+ (b +:+ c).
Proof. induction a as [|x a IH]; [reflexivity|]. by rewrite !app_cons, IH. Qed.

Lemma slen_cons c t : slen (String c t) = S (slen t).
Proof. reflexivity. Qed.

Lemma slen_drop_le n s : (slen (drop_str n s) ≤ slen s)%nat.
Proof.
  revert s; induction n as [|n IH]; intros [|c t]; simpl; try lia.
  specialize (IH t). lia.
Qed.

Lemma slen_drop_run p s :
  (slen (drop_str (run_len p s) s) + run_len p s = slen s)%nat.
Proof.
  induction s as [|c t IH]; simpl; [reflexivity|].
  destruct (p c); simpl; lia.
Qed.

Lemma take_drop n s : take_str n s +:+ drop_str n s = s.
Proof.
  revert s; induction n as [|n IH]; intros [|c t]; simpl; try reflexivity.
  by rewrite app_cons, IH.
Qed.

Lemma slen_app a b : slen (a +:+ b) = (slen a + slen b)%nat.
Proof.
  induction a as [|c a IH]; [reflexivity|].
  rewrite app_cons, !slen_cons, IH. lia.
Qed.

Lemma take_app_exact a b : take_str (slen a) (a +:+ b) = a.
Proof.
  induction a as [|c a IH]; [by destruct b|].
  rewrite app_cons, slen_cons. simpl. by rewrite IH.
Qed.

Lemma drop_app_exact a b : drop_str (slen a) (a +:+ b) = b.
Proof.
  induction a as [|c a IH]; [by destruct b|].
  rewrite app_cons, slen_cons. simpl. by rewrite IH.
Qed.

Lemma consumed_app a b : consumed (a +:+ b) b = a.
Proof.
  unfold consumed. rewrite slen_app.
  replace (slen a + slen b - slen b)%nat with (slen a) by lia.
  apply take_app_exact.
Qed.

(** ** The matcher on a class repeated *)

Lemma flat_map_none {A B} (f : A → list B) l :
  (∀ x, f x = []) → flat_map f l = [].
Proof. intros H. induction l as [|x l IH]; simpl; [done|]. by rewrite H, IH. Qed.

Lemma star_no_text step fuel st :
  slen (st_rest st) = 0%nat → star_matches step fuel st = [st].
Proof.
  intros H0. destruct fuel as [|f]; [done|]. cbn [star_matches].
  rewrite flat_map_none; [done|]. intros st'.
  by replace (slen (st_rest st') <? slen (st_rest st))%nat
    with false by (symmetry; apply Nat.ltb_ge; lia).
Qed.

(** More fuel than the length of the text changes nothing: the repetition
    never stops for lack of fuel. *)
Lemma star_fuel_enough step f1 f2 st :
  (slen (st_rest st) ≤ f1)%nat → (slen (st_rest st) ≤ f2)%nat →
  star_matches step f1 st = star_matches step f2 st.
Proof.
  revert f2 st. induction f1 as [|f1 IH]; intros f2 st H1 H2.
  - by rewrite !star_no_text by lia.
  - destruct f2 as [|f2]; [by rewrite !star_no_text by lia|].
    cbn [star_matches]. f_equal. apply flat_map_ext. intros st'.
    destruct (slen (st_rest st') <? slen (st_rest st))%nat eqn:E; [|done].
    apply Nat.ltb_lt in E. apply IH; lia.
Qed.

Lemma star_cls p fuel prev s caps :
  (slen s ≤ fuel)%nat →
  star_matches (rmatches (Cls p)) fuel (MState prev s caps)
  = run_states p prev s caps.
Proof.
  revert prev s; induction fuel as [|f IH]; intros prev s Hle.
  - destruct s; [reflexivity | simpl in Hle; lia].
  - destruct s as [|c t]; [reflexivity|].
    cbn [star_matches rmatches st_rest st_caps run_states].
    destruct (p c); [|reflexivity].
    cbn [flat_map st_rest]. rewrite app_nil_r.
    replace (slen t <? slen (String c t))%nat with true
      by (symmetry; apply Nat.ltb_lt; simpl; lia).
    rewrite IH; [reflexivity | simpl in Hle; lia].
Qed.

Lemma plus_cls p prev s caps :
  rmatches (Plus (Cls p)) (MState prev s caps)
  = match s with
    | String c t => if p c then run_states p (Some c) t caps else []
    | EmptyString => []
    end.
Proof.
  cbn [rmatches st_rest st_caps]. destruct s as [|c t]; [reflexivity|].
  destruct (p c); [|reflexivity].
  cbn [flat_map st_rest]. rewrite app_nil_r. by apply star_cls.
Qed.

Lemma run_states_head p prev s caps :
  ∃ l, run_states p prev s caps
       = MState (run_prev p prev s) (drop_str (run_len p s) s) caps :: l.
Proof.
  revert prev; induction s as [|c t IH]; intros prev; simpl.
  - by exists [].
  - destruct (p c); [|by exists []].
    destruct (IH (Some c)) as [l ->]. by eexists.
Qed.

(** A continuation that cannot start at a character of the class sees only
    the longest run. *)
Lemma flat_map_run_states (k : mstate → list mstate) p prev s caps :
  (∀ pr c t, p c = true → k (MState pr (String c t) caps) = []) →
  flat_map k (run_states p prev s caps)
  = k (MState (run_prev p prev s) (drop_str (run_len p s) s) caps).
Proof.
  intros Hk. revert prev; induction s as [|c t IH]; intros prev; simpl.
  - by rewrite app_nil_r.
  - destruct (p c) eqn:Hc; simpl; [|by rewrite app_nil_r].
    rewrite flat_map_app, IH. simpl. by rewrite (Hk _ _ _ Hc), !app_nil_r.
Qed.

(** ** The four patterns *)

Lemma rmatches_cat r1 r2 st :
  rmatches (Cat r1 r2) st = flat_map (rmatches r2) (rmatches r1 st).
Proof. reflexivity. Qed.

Lemma rmatches_cls p prev s caps :
  rmatches (Cls p) (MState prev s caps)
  = match s with
    | String c t => if p c then [MState (Some c) t caps] else []
    | EmptyString => []
    end.
Proof. reflexivity. Qed.

Lemma rmatches_star r st :
  rmatches (Star r) st = star_matches (rmatches r) (slen (st_rest st)) st.
Proof. reflexivity. Qed.

Lemma rmatches_grp i r st :
  rmatches (Grp i r) st
  = map (λ st', set_cap i (consumed (st_rest st) (st_rest st')) st')
      (rmatches r st).
Proof. reflexivity. Qed.

Lemma rmatches_wordb st :
  rmatches WordB st
  = if xorb (word_before (st_prev st)) (word_after (st_rest st))
    then [st] else [].
Proof. reflexivity. Qed.

Lemma match_at_cls p prev c t :
  match_at (Cls p) prev (String c t)
  = if p c then Some (MState (Some c) t []) else None.
Proof. unfold match_at. simpl. by destruct (p c). Qed.

Lemma sub_cls_empty p prev s :
  sub_from (Cls p) EmptyString 0 prev s = str_filter (λ c, negb (p c)) s.
Proof.
  revert prev; induction s as [|c t IH]; intros prev; [reflexivity|].
  cbn [sub_from str_filter]. rewrite match_at_cls.
  destruct (p c); cbn [st_rest negb].
  - replace (slen (String c t) - slen t - 1)%nat with 0%nat by (simpl; lia).
    rewrite app_empty_l. apply IH.
  - by rewrite IH.
Qed.

Lemma match_at_plus_cls p prev s :
  match_at (Plus (Cls p)) prev s
  = match s with
    | String c t =>
        if p c
        then Some (MState (run_prev p (Some c) t) (drop_str (run_len p t) t) [])
        else None
    | EmptyString => None
    end.
Proof.
  unfold match_at. rewrite plus_cls. destruct s as [|c t]; [reflexivity|].
  destruct (p c); [|reflexivity].
  by destruct (run_states_head p (Some c) t []) as [l ->].
Qed.

Lemma sub_spaces s :
  (∀ prev, sub_from spaces_re "_" 0 prev s = collapse_ws false s)
  ∧ (∀ prev, sub_from spaces_re "_" (run_len is_space s) prev s
             = collapse_ws true s).
Proof.
  induction s as [|c t [IH0 IH1]]; [by split|].
  assert (H0 : ∀ prev,
    sub_from spaces_re "_" 0 prev (String c t) = collapse_ws false (String c t)).
  { intros prev. cbn [sub_from collapse_ws]. unfold spaces_re.
    rewrite match_at_plus_cls. destruct (is_space c) eqn:Hc; cbn [st_rest].
    - pose proof (slen_drop_run is_space t) as Hl.
      replace (slen (String c t) - slen (drop_str (run_len is_space t) t) - 1)%nat
        with (run_len is_space t) by (simpl; lia).
      fold spaces_re. by rewrite IH1.
    - fold spaces_re. by rewrite IH0. }
  split; [exact H0|]. intros prev.
  cbn [run_len]. destruct (is_space c) eqn:Hc.
  - cbn [sub_from collapse_ws]. rewrite Hc. apply IH1.
  - rewrite H0. cbn [collapse_ws]. by rewrite Hc.
Qed.

Lemma at_eol_digit c t : is_digit c = true → at_eol (String c t) = false.
Proof.
  intros Hc. destruct t; [|reflexivity]. simpl.
  destruct (is_char "010" c) eqn:E; [|reflexivity].
  apply Ascii.eqb_eq in E. subst c. discriminate Hc.
Qed.

Lemma match_at_trailing_digits prev s :
  match_at trailing_digits_re prev s
  = if digits_eol s
    then Some (MState (run_prev is_digit prev s)
                 (drop_str (run_len is_digit s) s) [])
    else None.
Proof.
  unfold match_at, trailing_digits_re, digits_eol.
  rewrite rmatches_cat, plus_cls.
  destruct s as [|c t]; [reflexivity|]. cbn [run_len run_prev].
  destruct (is_digit c) eqn:Hc; [|reflexivity].
  rewrite flat_map_run_states.
  - cbn [rmatches st_rest drop_str Nat.ltb Nat.leb andb].
    by destruct (at_eol _).
  - intros pr d u Hd. cbn [rmatches st_rest]. by rewrite at_eol_digit.
Qed.

Lemma consumed_drop_run p s :
  consumed s (drop_str (run_len p s) s) = take_str (run_len p s) s.
Proof.
  unfold consumed. f_equal. pose proof (slen_drop_run p s). lia.
Qed.

Lemma search_trailing_digits_from prev s :
  re_search_from trailing_digits_re prev s = trailing_digits s.
Proof.
  revert prev; induction s as [|c t IH]; intros prev.
  - reflexivity.
  - cbn [re_search_from trailing_digits].
    rewrite match_at_trailing_digits.
    destruct (digits_eol (String c t)); [|apply IH].
    cbn [st_rest]. by rewrite consumed_drop_run.
Qed.

Lemma sanitize_filename_scan s :
  sanitize_filename s
  = collapse_ws false (str_filter (λ c, negb (is_special c)) s).
Proof.
  unfold sanitize_filename, re_sub, special_re.
  rewrite sub_cls_empty. apply sub_spaces.
Qed.

Lemma space_not_tokchar c : is_space c = true → is_tokchar c = false.
Proof. by_char_cases c. Qed.

Lemma segcode_word c : is_segcode c = true → is_word c = true.
Proof. by_char_cases c. Qed.

Lemma starts_with_drop_run p s :
  starts_with p (drop_str (run_len p s) s) = false.
Proof.
  induction s as [|c t IH]; [reflexivity|]. simpl.
  destruct (p c) eqn:Hc; simpl; [exact IH | exact Hc].
Qed.

Lemma after_tokens_drop_run s :
  after_tokens (drop_str (run_len is_tokchar s) s) = after_tokens s.
Proof.
  induction s as [|c t IH]; [reflexivity|]. cbn [run_len].
  destruct (is_tokchar c) eqn:Hc; cbn [drop_str]; [|reflexivity].
  cbn [after_tokens]. by rewrite Hc.
Qed.

Lemma rmatches_comma_token prev s caps :
  rmatches comma_token_re (MState prev s caps)
  = match s with
    | String c (String d u) =>
        if is_char "," c && is_tokchar d
        then run_states is_tokchar (Some d) u caps else []
    | _ => []
    end.
Proof.
  unfold comma_token_re. rewrite rmatches_cat, rmatches_cls.
  destruct s as [|c t]; [reflexivity|].
  destruct (is_char "," c); [|by destruct t].
  cbn [flat_map andb]. rewrite app_nil_r, plus_cls.
  by destruct t.
Qed.

Lemma star_comma_token_head fuel prev s caps :
  (slen s ≤ fuel)%nat → starts_with is_tokchar s = false →
  ∃ pr l, star_matches (rmatches comma_token_re) fuel (MState prev s caps)
          = MState pr (after_tokens s) caps :: l.
Proof.
  revert prev s; induction fuel as [|f IH]; intros prev s Hle Hs.
  - destruct s; [by exists prev, [] | simpl in Hle; lia].
  - cbn [star_matches]. rewrite rmatches_comma_token.
    destruct s as [|c [|d u]].
    + by exists prev, [].
    + simpl in Hs. simpl. rewrite Hs, andb_false_r. by exists prev, [].
    + simpl in Hs. cbn [after_tokens starts_with]. rewrite Hs.
      destruct (is_char "," c); cbn [andb];
        [destruct (is_tokchar d) eqn:Hd|]; try by exists prev, [].
      destruct (run_states_head is_tokchar (Some d) u caps) as [l ->].
      cbn [flat_map st_rest].
      pose proof (slen_drop_run is_tokchar u) as Hl.
      replace (slen (drop_str (run_len is_tokchar u) u)
               <? slen (String c (String d u)))%nat with true
        by (symmetry; apply Nat.ltb_lt; simpl; lia).
      destruct (IH (run_prev is_tokchar (Some d) u)
                  (drop_str (run_len is_tokchar u) u))
        as (pr & l' & ->).
      * simpl in Hle. lia.
      * apply starts_with_drop_run.
      * rewrite after_tokens_drop_run.
        eexists _, _. rewrite <- !app_comm_cons. reflexivity.
Qed.

Lemma rmatches_token_list prev s caps :
  if starts_with is_tokchar s
  then ∃ pr l, rmatches token_list_re (MState prev s caps)
               = MState pr (after_tokens s) caps :: l
  else rmatches token_list_re (MState prev s caps) = [].
Proof.
  unfold token_list_re. rewrite rmatches_cat, plus_cls.
  destruct s as [|c t]; [reflexivity|]. cbn [starts_with].
  destruct (is_tokchar c) eqn:Hc; [|reflexivity].
  destruct (run_states_head is_tokchar (Some c) t caps) as [l ->].
  cbn [flat_map]. rewrite rmatches_star. cbn [st_rest].
  destruct (star_comma_token_head
              (slen (drop_str (run_len is_tokchar t) t))
              (run_prev is_tokchar (Some c) t)
              (drop_str (run_len is_tokchar t) t) caps)
    as (pr & l' & ->); [lia | apply starts_with_drop_run |].
  rewrite after_tokens_drop_run. cbn [after_tokens]. rewrite Hc.
  eexists _, _. rewrite <- app_comm_cons. reflexivity.
Qed.

Lemma match_at_accession prev s :
  option_map (λ st, (group 1 st, group 2 st, st_rest st))
    (match_at accession_re prev s)
  = marker_at prev s.
Proof.
  unfold match_at, accession_re.
  rewrite rmatches_cat, rmatches_wordb. cbn [st_prev st_rest].
  destruct s as [|k [|c t]].
  - destruct (xorb _ _); [|reflexivity].
    cbn [flat_map]. by rewrite rmatches_cat, rmatches_grp, rmatches_cls.
  - destruct (xorb _ _); [|reflexivity].
    cbn [flat_map].
    rewrite rmatches_cat, rmatches_grp, rmatches_cls.
    destruct (is_segcode k); [|reflexivity].
    cbn [map flat_map]. rewrite rmatches_cat. unfold set_cap.
    cbn [st_prev st_rest st_caps]. by rewrite rmatches_cls.
  - cbn [word_after marker_at].
    destruct (is_segcode k) eqn:Hk.
    2:{ rewrite andb_false_r. cbn [andb].
        destruct (xorb _ _); [|reflexivity].
        cbn [flat_map]. rewrite rmatches_cat, rmatches_grp, rmatches_cls.
        by rewrite Hk. }
    rewrite (segcode_word _ Hk), xorb_true_r, andb_true_r.
    destruct (negb (word_before prev)); [|reflexivity].
    cbn [flat_map andb]. rewrite app_nil_r, rmatches_cat, rmatches_grp.
    rewrite rmatches_cls, Hk. cbn [map flat_map st_rest].
    rewrite app_nil_r, rmatches_cat. unfold set_cap at 1.
    cbn [st_prev st_rest st_caps]. rewrite rmatches_cls.
    destruct (is_char ":" c); [|reflexivity].
    cbn [flat_map]. rewrite app_nil_r, rmatches_cat, rmatches_star.
    cbn [st_rest]. rewrite star_cls by lia.
    rewrite flat_map_run_states.
    2:{ intros pr d u Hd. rewrite rmatches_grp.
        pose proof (rmatches_token_list pr (String d u)
                      [(1%nat, consumed (String k (String c t)) (String c t))]) as H.
        cbn [starts_with] in H. rewrite (space_not_tokchar _ Hd) in H.
        by rewrite H. }
    rewrite rmatches_grp. cbn [st_rest].
    match goal with |- context [rmatches token_list_re (MState ?pr ?s ?cs)] =>
      pose proof (rmatches_token_list pr s cs) as H end.
    destruct (starts_with is_tokchar _).
    + destruct H as (pr & l & ->). cbn [map head option_map st_rest set_cap].
      f_equal. f_equal. f_equal.
      unfold group. cbn. unfold consumed. simpl.
      replace (S (slen t) - slen t)%nat with 1%nat by lia. reflexivity.
    + by rewrite H.
Qed.

Lemma findall_scan_from skip prev s :
  findall_from accession_re skip prev s = scan_from skip prev s.
Proof.
  revert skip prev; induction s as [|c t IH]; intros skip prev; [reflexivity|].
  cbn [findall_from scan_from]. destruct skip as [|k]; [|apply IH].
  pose proof (match_at_accession prev (String c t)) as H.
  destruct (match_at accession_re prev (String c t)) as [st|];
    cbn [option_map] in H; rewrite <- H; by rewrite IH.
Qed.

Lemma findall_scan s : re_findall accession_re s = scan_from 0 None s.
Proof. apply findall_scan_from. Qed.

(** ** Splitting *)

Lemma split_on_nonempty sep s : split_on sep s ≠ [].
Proof.
  destruct s as [|c t]; simpl; [done|].
  destruct (Ascii.eqb c sep); [done|]. by destruct (split_on sep t).
Qed.

Lemma split_on_absent sep s : contains sep s = false → split_on sep s = [s].
Proof.
  induction s as [|c t IH]; [done|]. simpl.
  destruct (Ascii.eqb c sep); [done|]. intros H. by rewrite (IH H).
Qed.

Lemma split_on_app sep a b :
  split_on sep (a +:+ String sep b) = split_on sep a ++ split_on sep b.
Proof.
  induction a as [|c a IH].
  - rewrite app_empty_l. simpl. by rewrite Ascii.eqb_refl.
  - rewrite app_cons. simpl. destruct (Ascii.eqb c sep).
    + by rewrite IH.
    + rewrite IH. pose proof (split_on_nonempty sep a).
      by destruct (split_on sep a).
Qed.

Lemma contains_app x a b : contains x (a +:+ b) = contains x a || contains x b.
Proof.
  induction a as [|c a IH]; [done|]. rewrite app_cons. simpl.
  by rewrite IH, orb_assoc.
Qed.

Lemma str_forall_app p a b :
  str_forall p (a +:+ b) = str_forall p a && str_forall p b.
Proof.
  induction a as [|c a IH]; [done|]. rewrite app_cons. simpl.
  by rewrite IH, andb_assoc.
Qed.

Lemma str_forall_impl (p q : ascii → bool) s :
  (∀ c, p c = true → q c = true) →
  str_forall p s = true → str_forall q s = true.
Proof.
  intros Hpq. induction s as [|c t IH]; [done|]. simpl.
  intros [Hc Ht]%andb_true_iff. by rewrite (Hpq _ Hc), (IH Ht).
Qed.

Lemma str_forall_absent p x s :
  p x = false → str_forall p s = true → contains x s = false.
Proof.
  intros Hx. induction s as [|c t IH]; [done|]. simpl.
  intros [Hc Ht]%andb_true_iff. rewrite (IH Ht), orb_false_r.
  destruct (Ascii.eqb_spec c x); [congruence | done].
Qed.

Lemma run_len_all p s : str_forall p s = true → run_len p s = slen s.
Proof.
  induction s as [|c t IH]; [done|]. simpl.
  intros [-> Ht]%andb_true_iff. by rewrite (IH Ht).
Qed.

Lemma run_len_app_stop p a b :
  str_forall p a = true → starts_with p b = false →
  run_len p (a +:+ b) = slen a.
Proof.
  intros Ha Hb. induction a as [|c a IH].
  - rewrite app_empty_l. destruct b as [|d b]; [done|]. simpl in *. by rewrite Hb.
  - rewrite app_cons. simpl in *. apply andb_true_iff in Ha as [-> Ha].
    by rewrite (IH Ha).
Qed.

Lemma drop_last_app a b : drop_last (slen b) (a +:+ b) = a.
Proof.
  unfold drop_last. rewrite slen_app.
  replace (slen a + slen b - slen b)%nat with (slen a) by lia.
  apply take_app_exact.
Qed.

(** ** The trailing digit run *)

Lemma is_number_inv d :
  is_number d = true → d ≠ EmptyString ∧ str_forall is_digit d = true.
Proof.
  unfold is_number. intros [H1 H2]%andb_true_iff. split; [|done].
  intros ->. done.
Qed.

Lemma digits_eol_number d : is_number d = true → digits_eol d = true.
Proof.
  intros [Hne Hd]%is_number_inv. unfold digits_eol.
  rewrite (run_len_all _ _ Hd).
  replace (drop_str (slen d) d) with EmptyString.
  - destruct d; [done|]. reflexivity.
  - rewrite <- (app_empty_r d) at 2. by rewrite drop_app_exact.
Qed.

Lemma at_eol_after_prefix p d :
  p ≠ EmptyString → ends_with is_digit p = false → d ≠ EmptyString →
  at_eol (drop_str (run_len is_digit (p +:+ d)) (p +:+ d)) = false.
Proof.
  intros Hp He Hd. induction p as [|c p IH]; [done|].
  rewrite app_cons. cbn [run_len]. destruct (is_digit c) eqn:Hc.
  - cbn [drop_str]. destruct p as [|c' p'].
    + simpl in He. congruence.
    + apply IH; [done | exact He].
  - cbn [drop_str]. destruct p; [|done]. by destruct d.
Qed.

Lemma trailing_digits_app p d :
  ends_with is_digit p = false → is_number d = true →
  trailing_digits (p +:+ d) = Some d.
Proof.
  intros He Hd. induction p as [|c p IH].
  - rewrite app_empty_l.
    pose proof (digits_eol_number d Hd) as H.
    destruct d as [|x d]; cbn [trailing_digits]; rewrite H; [done|].
    apply is_number_inv in Hd as [_ Hd].
    rewrite (run_len_all _ _ Hd).
    f_equal. rewrite <- (app_empty_r (String x d)) at 2. apply take_app_exact.
  - rewrite app_cons. cbn [trailing_digits]. rewrite <- app_cons.
    unfold digits_eol. rewrite at_eol_after_prefix, andb_false_r; try done.
    + apply IH. destruct p; [done | exact He].
    + by apply is_number_inv in Hd as [? _].
Qed.

Lemma not_newline_word c : is_word c = true → is_char "010" c = false.
Proof. by_char_cases c. Qed.

Lemma digits_eol_ends s :
  str_forall is_word s = true → digits_eol s = true →
  ends_with is_digit s = true.
Proof.
  unfold digits_eol. induction s as [|c t IH]; [done|].
  cbn [str_forall run_len]. intros [Hc Ht]%andb_true_iff.
  destruct (is_digit c) eqn:Hd; [|done]. cbn [drop_str].
  intros [_ He]%andb_true_iff. destruct t as [|c' t']; [done|].
  cbn [ends_with]. apply (IH Ht). apply andb_true_iff. split; [|done].
  cbn [run_len] in *. destruct (is_digit c'); [done|].
  cbn [drop_str] in He. cbn [str_forall] in Ht.
  apply andb_true_iff in Ht as [Hc' _].
  destruct t'; [|done]. cbn in He. by rewrite (not_newline_word _ Hc') in He.
Qed.

Lemma trailing_digits_none s :
  str_forall is_word s = true → ends_with is_digit s = false →
  trailing_digits s = None.
Proof.
  induction s as [|c t IH]; [done|]. intros Hw He.
  cbn [trailing_digits].
  destruct (digits_eol (String c t)) eqn:E.
  - by rewrite (digits_eol_ends _ Hw E) in He.
  - apply IH.
    + simpl in Hw. by apply andb_true_iff in Hw as [_ ?].
    + destruct t; [done | exact He].
Qed.

(** ** [int] and [str] *)

Lemma py_str_spec n : str_forall is_digit (py_str n) = true ∧ py_str n ≠ EmptyString.
Proof.
  unfold py_str.
  assert (H : ∀ d, str_forall is_digit (NilEmpty.string_of_uint d) = true).
  { induction d; simpl; try done; by rewrite IHd. }
  split; [apply H|].
  destruct n as [|p]; [done|]. simpl.
  pose proof (DecimalPos.Unsigned.to_uint_nonnil p) as Hn.
  by destruct (Pos.to_uint p).
Qed.

Lemma is_number_py_str n : is_number (py_str n) = true.
Proof.
  destruct (py_str_spec n) as [H1 H2]. unfold is_number. rewrite H1.
  by destruct (py_str n).
Qed.

Lemma py_int_py_str n :
  N.of_nat (slen (py_str n)) <= int_max_str_digits → py_int (py_str n) = Ok n.
Proof.
  intros Hcap. destruct (py_str_spec n) as [_ Hne]. unfold py_int.
  apply N.ltb_ge in Hcap. rewrite Hcap.
  destruct (py_str n) eqn:E; [done|]. rewrite <- E.
  unfold py_str. rewrite NilEmpty.usu. by rewrite DecimalN.Unsigned.of_to.
Qed.

(** The number of digits: a numeral of [k] digits is below [10 ^ k], and a
    number below [10 ^ k] is written with at most [k] digits. *)
Lemma slen_string_of_uint d :
  slen (NilEmpty.string_of_uint d) = Decimal.nb_digits d.
Proof. induction d; simpl; by rewrite ?IHd. Qed.

Lemma uint_of_string_digits s d :
  NilEmpty.uint_of_string s = Some d → Decimal.nb_digits d = slen s.
Proof.
  revert d. induction s as [|c s IH]; intros d; simpl.
  - by intros [= <-].
  - destruct (NilEmpty.uint_of_string s) as [d0|]; [|done].
    intros H. apply uint_of_char_spec in H.
    rewrite <- (IH d0 eq_refl).
    repeat (destruct H as [[_ ->]|H]; [done|]). by destruct H as [_ ->].
Qed.

Lemma of_lu_bound d :
  DecimalPos.Unsigned.of_lu d < 10 ^ DecimalPos.Unsigned.usize d.
Proof.
  induction d; cbn [DecimalPos.Unsigned.of_lu DecimalPos.Unsigned.usize];
    rewrite ?N.pow_succ_r'; [simpl; lia | lia..].
Qed.

Lemma usize_nb_digits d :
  DecimalPos.Unsigned.usize d = N.of_nat (Decimal.nb_digits d).
Proof.
  induction d; cbn [DecimalPos.Unsigned.usize Decimal.nb_digits];
    rewrite ?IHd; lia.
Qed.

Lemma of_uint_bound d : N.of_uint d < 10 ^ N.of_nat (Decimal.nb_digits d).
Proof.
  unfold N.of_uint. rewrite DecimalPos.Unsigned.of_uint_alt.
  rewrite <- (DecimalFacts.nb_digits_rev d), <- usize_nb_digits. apply of_lu_bound.
Qed.

Lemma to_lu_small n :
  n < 10 → Decimal.nb_digits (DecimalPos.Unsigned.to_lu n) = 1%nat.
Proof.
  intros H.
  assert (Hn : n = 0 ∨ n = 1 ∨ n = 2 ∨ n = 3 ∨ n = 4 ∨ n = 5 ∨ n = 6
               ∨ n = 7 ∨ n = 8 ∨ n = 9) by lia.
  repeat (destruct Hn as [->|Hn]; [reflexivity|]). by subst.
Qed.

Lemma to_lu_step q r :
  0 < q → r < 10 →
  Decimal.nb_digits (DecimalPos.Unsigned.to_lu (10 * q + r))
  = S (Decimal.nb_digits (DecimalPos.Unsigned.to_lu q)).
Proof.
  intros Hq Hr. destruct q as [|p]; [lia|].
  assert (Hn : r = 0 ∨ r = 1 ∨ r = 2 ∨ r = 3 ∨ r = 4 ∨ r = 5 ∨ r = 6
               ∨ r = 7 ∨ r = 8 ∨ r = 9) by lia.
  assert (H0 : DecimalPos.Unsigned.to_lu (10 * N.pos p)
               = Decimal.D0 (DecimalPos.Unsigned.to_lu (N.pos p)))
    by apply DecimalPos.Unsigned.to_ldec_tenfold.
  destruct Hn as [->|Hn]; [by rewrite N.add_0_r, H0|].
  destruct Hn as [->|Hn].
  { rewrite N.add_1_r, DecimalPos.Unsigned.to_lu_succ, H0. done. }
  destruct Hn as [->|Hn].
  { replace (10 * N.pos p + 2) with (N.succ (N.succ (10 * N.pos p))) by lia.
    rewrite !DecimalPos.Unsigned.to_lu_succ, H0. done. }
  destruct Hn as [->|Hn].
  { replace (10 * N.pos p + 3)
      with (N.succ (N.succ (N.succ (10 * N.pos p)))) by lia.
    rewrite !DecimalPos.Unsigned.to_lu_succ, H0. done. }
  destruct Hn as [->|Hn].
  { replace (10 * N.pos p + 4)
      with (N.succ (N.succ (N.succ (N.succ (10 * N.pos p))))) by lia.
    rewrite !DecimalPos.Unsigned.to_lu_succ, H0. done. }
  destruct Hn as [->|Hn].
  { replace (10 * N.pos p + 5)
      with (N.succ (N.succ (N.succ (N.succ (N.succ (10 * N.pos p)))))) by lia.
    rewrite !DecimalPos.Unsigned.to_lu_succ, H0. done. }
  destruct Hn as [->|Hn].
  { replace (10 * N.pos p + 6)
      with (N.succ (N.succ (N.succ (N.succ (N.succ (N.succ (10 * N.pos p)))))))
      by lia.
    rewrite !DecimalPos.Unsigned.to_lu_succ, H0. done. }
  destruct Hn as [->|Hn].
  { replace (10 * N.pos p + 7)
      with (N.succ (N.succ (N.succ (N.succ (N.succ (N.succ
              (N.succ (10 * N.pos p)))))))) by lia.
    rewrite !DecimalPos.Unsigned.to_lu_succ, H0. done. }
  destruct Hn as [-> | ->].
  { replace (10 * N.pos p + 8)
      with (N.succ (N.succ (N.succ (N.succ (N.succ (N.succ
              (N.succ (N.succ (10 * N.pos p))))))))) by lia.
    rewrite !DecimalPos.Unsigned.to_lu_succ, H0. done. }
  replace (10 * N.pos p + 9)
    with (N.succ (N.succ (N.succ (N.succ (N.succ (N.succ
            (N.succ (N.succ (N.succ (10 * N.pos p)))))))))) by lia.
  rewrite !DecimalPos.Unsigned.to_lu_succ, H0. done.
Qed.

Lemma to_lu_digits k n :
  n < 10 ^ N.of_nat (S k) →
  (Decimal.nb_digits (DecimalPos.Unsigned.to_lu n) ≤ S k)%nat.
Proof.
  revert n. induction k as [|k IH]; intros n Hn.
  - rewrite to_lu_small; [done|]. by change (10 ^ N.of_nat 1) with 10 in Hn.
  - destruct (N.lt_ge_cases n 10) as [Hs|Hl].
    + rewrite to_lu_small by done. lia.
    + pose proof (N.div_mod n 10 ltac:(done)) as Hdm.
      pose proof (N.mod_lt n 10 ltac:(done)) as Hr.
      assert (Hq : 0 < n / 10).
      { apply N.div_str_pos. lia. }
      assert (Hq' : n / 10 < 10 ^ N.of_nat (S k)).
      { apply N.Div0.div_lt_upper_bound.
        replace (N.of_nat (S (S k))) with (N.succ (N.of_nat (S k))) in Hn by lia.
        by rewrite N.pow_succ_r' in Hn. }
      rewrite Hdm, to_lu_step by done.
      specialize (IH _ Hq'). lia.
Qed.

Lemma to_uint_rev n : N.to_uint n = Decimal.rev (DecimalPos.Unsigned.to_lu n).
Proof. by destruct n. Qed.

Lemma py_int_below_limit s n : py_int s = Ok n → n < 10 ^ int_max_str_digits.
Proof.
  unfold py_int. destruct s as [|c t]; [done|].
  destruct (int_max_str_digits <? N.of_nat (slen (String c t))) eqn:E; [done|].
  apply N.ltb_ge in E.
  destruct (NilEmpty.uint_of_string (String c t)) as [d|] eqn:Ed; [|done].
  intros [= <-]. pose proof (of_uint_bound d) as Hb.
  rewrite (uint_of_string_digits _ _ Ed) in Hb.
  eapply N.lt_le_trans; [exact Hb|]. by apply N.pow_le_mono_r.
Qed.

Lemma py_str_digits k n :
  n < 10 ^ N.of_nat (S k) → (slen (py_str n) ≤ S k)%nat.
Proof.
  intros H. unfold py_str.
  rewrite slen_string_of_uint, to_uint_rev, DecimalFacts.nb_digits_rev.
  by apply to_lu_digits.
Qed.

(** The numbers that the script formats are at most a number that [int]
    returned, so [str] is within its limit for each of them. *)
Lemma formatted_within_limit s hi n :
  py_int s = Ok hi → n <= hi →
  N.of_nat (slen (py_str n)) <= int_max_str_digits.
Proof.
  intros Hhi Hn. apply py_int_below_limit in Hhi.
  assert (H : n < 10 ^ N.of_nat (S 4299)).
  { change (N.of_nat (S 4299)) with int_max_str_digits. lia. }
  apply py_str_digits in H. unfold int_max_str_digits.
  change 4300 with (N.of_nat (S 4299)). lia.
Qed.

(** Beyond the limit [int] raises, whatever the digits are. *)
Lemma py_int_over_cap s :
  int_max_str_digits < N.of_nat (slen s) → py_int s = Raise ValueError.
Proof.
  intros H. unfold py_int. destruct s; [done|].
  by replace (int_max_str_digits <? N.of_nat (slen (String a s))) with true
    by (symmetry; by apply N.ltb_lt).
Qed.


(** ** One part of a group *)

Lemma digit_word c : is_digit c = true → is_word c = true.
Proof. unfold is_word, is_alnum. by intros ->. Qed.

Lemma hyphen_not_word : is_word "-" = false.
Proof. reflexivity. Qed.

Lemma is_prefix_inv p :
  is_prefix p = true →
  str_forall is_word p = true ∧ ends_with is_digit p = false.
Proof.
  unfold is_prefix. intros [H1 H2]%andb_true_iff. split; [done|].
  by apply negb_true_iff.
Qed.

Lemma identifier_word p d :
  is_prefix p = true → is_number d = true →
  str_forall is_word (p +:+ d) = true.
Proof.
  intros [Hp _]%is_prefix_inv [_ Hd]%is_number_inv.
  rewrite str_forall_app, Hp. simpl.
  eapply str_forall_impl; [apply digit_word | done].
Qed.

Lemma split_range_token start end_ :
  str_forall is_word start = true → str_forall is_word end_ = true →
  contains "-" (range_token start end_) = true
  ∧ split_on "-" (range_token start end_) = [start; end_].
Proof.
  intros Hs He. unfold range_token. split.
  - rewrite contains_app. simpl. by rewrite orb_true_r.
  - change ("-" +:+ end_) with (String "-" end_).
    rewrite split_on_app.
    rewrite !split_on_absent; [done | |];
      by eapply str_forall_absent; [apply hyphen_not_word|].
Qed.

Section RangeToken.
Variables (p ds q de : string) (lo hi : N).
Hypotheses (Hp : is_prefix p = true) (Hds : is_number ds = true).
Hypotheses (Hq : is_prefix q = true) (Hde : is_number de = true).
Hypotheses (Hlo : py_int ds = Ok lo) (Hhi : py_int de = Ok hi).

(** A range token whose two parts end in digits expands to the start's
    prefix followed by each number of the range in plain decimal. *)
Lemma expand_range_token :
  expand_part (range_token (p +:+ ds) (q +:+ de))
  = Ok (map (λ num, p +:+ py_str num) (py_range lo (hi + 1))).
Proof using All.
  unfold expand_part.
  destruct (split_range_token (p +:+ ds) (q +:+ de)) as [-> ->];
    try by apply identifier_word.
  unfold re_search. rewrite !search_trailing_digits_from.
  apply is_prefix_inv in Hp as [_ Hp'], Hq as [_ Hq'].
  rewrite !trailing_digits_app by done.
  cbn [group0 bind]. rewrite Hlo, Hhi. cbn [bind].
  by rewrite drop_last_app.
Qed.
End RangeToken.

Lemma expand_no_end_number start end_ :
  str_forall is_word start = true → str_forall is_word end_ = true →
  ends_with is_digit end_ = false →
  expand_part (range_token start end_) = Raise AttributeError.
Proof.
  intros Hs He Hn. unfold expand_part.
  destruct (split_range_token start end_) as [-> ->]; try done.
  unfold re_search. rewrite !search_trailing_digits_from.
  rewrite (trailing_digits_none end_) by done.
  by destruct (trailing_digits start).
Qed.

Lemma py_int_raises s e : py_int s = Raise e → e = ValueError.
Proof.
  unfold py_int. destruct s; [congruence|].
  destruct (_ <? _); [congruence|].
  destruct (NilEmpty.uint_of_string _); congruence.
Qed.

(** A range token whose END numeral is longer than [int] takes raises
    [ValueError]. *)
Lemma expand_end_over_cap p ds q de :
  is_prefix p = true → is_number ds = true →
  is_prefix q = true → is_number de = true →
  int_max_str_digits < N.of_nat (slen de) →
  expand_part (range_token (p +:+ ds) (q +:+ de)) = Raise ValueError.
Proof.
  intros Hp Hds Hq Hde Hcap. unfold expand_part.
  destruct (split_range_token (p +:+ ds) (q +:+ de)) as [-> ->];
    try by apply identifier_word.
  unfold re_search. rewrite !search_trailing_digits_from.
  apply is_prefix_inv in Hp as [_ Hp'], Hq as [_ Hq'].
  rewrite !trailing_digits_app by done.
  cbn [group0 bind]. rewrite (py_int_over_cap de Hcap).
  destruct (py_int ds) as [lo|e] eqn:E; [done|].
  by rewrite (py_int_raises _ _ E).
Qed.

Lemma expand_plain part : contains "-" part = false → expand_part part = Ok [part].
Proof. unfold expand_part. by intros ->. Qed.

(** ** The loops *)

Lemma parts_loop_app parts1 parts2 ids :
  parts_loop (parts1 ++ parts2) ids
  = let* ids' := parts_loop parts1 ids in parts_loop parts2 ids'.
Proof.
  revert ids; induction parts1 as [|x parts1 IH]; intros ids; [done|].
  simpl. destruct (expand_part x); [apply IH | done].
Qed.

Lemma parts_loop_raise parts part ids :
  part ∈ parts → raises (expand_part part) = true →
  raises (parts_loop parts ids) = true.
Proof.
  intros Hin Hr. revert ids.
  induction parts as [|y l IH]; intros ids; [by apply elem_of_nil in Hin|].
  simpl. apply elem_of_cons in Hin as [<-|Hin].
  - by destruct (expand_part part).
  - destruct (expand_part y); [by apply IH | done].
Qed.

Lemma pairs_loop_raise id_pairs key grp segment d :
  (key, grp) ∈ id_pairs → keeps segment key = true →
  raises (parts_loop (split_on "," grp) []) = true →
  raises (pairs_loop id_pairs segment d) = true.
Proof.
  intros Hin Hk Hr. revert d.
  induction id_pairs as [|[k g] l IH]; intros d; [by apply elem_of_nil in Hin|].
  apply elem_of_cons in Hin as [[= <- <-]|Hin].
  - simpl. unfold keeps in Hk.
    destruct (String.eqb segment "all"), (String.eqb key segment); simpl in *;
      try done; by destruct (parts_loop _ _).
  - simpl. destruct (_ && _); [by apply IH|].
    destruct (parts_loop (split_on "," g) []); [by apply IH | done].
Qed.

Lemma pairs_loop_single key grp segment :
  pairs_loop [(key, grp)] segment []
  = if keeps segment key
    then let* ids := parts_loop (split_on "," grp) [] in Ok [(key, ids)]
    else Ok [].
Proof.
  simpl. unfold keeps.
  destruct (String.eqb segment "all"), (String.eqb key segment); simpl;
    try done; by destruct (parts_loop _ _).
Qed.

(** ** Scanning for markers *)

Lemma scan_skip a b prev :
  scan_from (slen a) prev (a +:+ b) = scan_from 0 (last_char prev a) b.
Proof.
  revert prev; induction a as [|c a IH]; intros prev.
  - rewrite app_empty_l. by destruct b.
  - rewrite app_cons. simpl. apply IH.
Qed.

Lemma scan_no_colon skip prev s :
  contains ":" s = false → scan_from skip prev s = [].
Proof.
  revert skip prev; induction s as [|c t IH]; intros skip prev H; [done|].
  simpl in H. apply orb_false_iff in H as [_ Ht].
  cbn [scan_from]. destruct skip; [|by apply IH].
  replace (marker_at prev (String c t)) with (@None (string * string * string)).
  - by apply IH.
  - destruct t as [|c' t']; [done|]. simpl in Ht.
    apply orb_false_iff in Ht as [Hc' _]. unfold marker_at, is_char.
    by rewrite Hc', andb_false_r.
Qed.

Lemma after_tokens_run t x :
  str_forall is_tokchar t = true → after_tokens (t +:+ x) = after_tokens x.
Proof.
  induction t as [|c t IH]; [done|]. cbn [str_forall].
  intros [Hc Ht]%andb_true_iff. rewrite app_cons. cbn [after_tokens].
  rewrite Hc. by apply IH.
Qed.

Lemma after_tokens_stop x : group_stop x = true → after_tokens x = x.
Proof.
  destruct x as [|c t]; [done|]. simpl.
  intros [Hc Hs]%andb_true_iff.
  apply negb_true_iff in Hc, Hs. by rewrite Hc, Hs.
Qed.

Lemma is_token_inv t :
  is_token t = true →
  str_forall is_tokchar t = true ∧ starts_with is_tokchar t = true.
Proof.
  unfold is_token. intros [Hne Ht]%andb_true_iff. split; [done|].
  destruct t as [|c t]; [done|]. simpl in *. by apply andb_true_iff in Ht as [? _].
Qed.

Lemma starts_with_app p a b :
  starts_with p a = true → starts_with p (a +:+ b) = true.
Proof. by destruct a. Qed.

Lemma join_commas_cons t ts :
  ts ≠ [] → join_commas (t :: ts) = t +:+ String "," (join_commas ts).
Proof. by destruct ts. Qed.

Lemma starts_with_join toks x :
  Forall (λ t, is_token t = true) toks → toks ≠ [] →
  starts_with is_tokchar (join_commas toks +:+ x) = true.
Proof.
  intros [|t ts Ht _] Hne; [done|].
  apply is_token_inv in Ht as [_ Ht].
  destruct ts; simpl.
  - by apply starts_with_app.
  - rewrite app_assoc_str. by apply starts_with_app.
Qed.

Lemma str_forall_join (p : ascii → bool) toks :
  Forall (λ t, is_token t = true) toks →
  p ","%char = true → (∀ c, is_tokchar c = true → p c = true) →
  str_forall p (join_commas toks) = true.
Proof.
  intros Htoks Hcomma Htok.
  induction Htoks as [|t ts Ht _ IH]; [done|].
  apply is_token_inv in Ht as [Ht _].
  destruct ts as [|t' ts'].
  - simpl. by eapply str_forall_impl.
  - rewrite join_commas_cons by done.
    rewrite str_forall_app. cbn [str_forall]. rewrite Hcomma, IH.
    by rewrite (str_forall_impl _ _ _ Htok Ht).
Qed.

Lemma after_tokens_join toks x :
  Forall (λ t, is_token t = true) toks → group_stop x = true →
  after_tokens (join_commas toks +:+ x) = x.
Proof.
  intros Htoks Hx.
  induction Htoks as [|t ts Ht Hts IH]; [by apply after_tokens_stop|].
  apply is_token_inv in Ht as [Ht _].
  destruct ts as [|t' ts'].
  - simpl. rewrite after_tokens_run by done. by apply after_tokens_stop.
  - rewrite join_commas_cons by done.
    rewrite app_assoc_str, after_tokens_run by done.
    rewrite app_cons. cbn [after_tokens].
    rewrite (starts_with_join (t' :: ts') x) by done.
    by apply IH.
Qed.

Section TokenList.
Variable toks : list string.
Hypothesis Htoks : Forall (λ t, is_token t = true) toks.
Hypothesis Hne : toks ≠ [].
Variables (k : ascii) (ws : string).
Hypothesis Hk : is_segcode k = true.
Hypothesis Hws : str_forall is_space ws = true.

Lemma marker_at_group prev x :
  word_before prev = false → group_stop x = true →
  marker_at prev (String k (":" +:+ ws +:+ join_commas toks +:+ x))
  = Some (String k EmptyString, join_commas toks, x).
Proof using All.
  intros Hprev Hx. unfold marker_at.
  change (":" +:+ ?y) with (String ":" y).
  rewrite Hprev, Hk. cbn [negb andb is_char Ascii.eqb]. simpl (Ascii.eqb _ _).
  assert (Hs : starts_with is_space (join_commas toks +:+ x) = false).
  { pose proof (starts_with_join toks x Htoks Hne) as H.
    destruct (join_commas toks +:+ x) as [|c t]; [done|]. simpl in *.
    destruct (is_space c) eqn:E; [|done].
    by rewrite (space_not_tokchar _ E) in H. }
  rewrite (run_len_app_stop _ _ _ Hws Hs), drop_app_exact.
  rewrite starts_with_join, after_tokens_join by done.
  by rewrite consumed_app.
Qed.

(** A marker, its token list, and what follows: the list is one group,
    and the scan goes on after it. *)
Lemma scan_group prev x :
  word_before prev = false → group_stop x = true →
  scan_from 0 prev (String k (":" +:+ ws +:+ join_commas toks +:+ x))
  = (String k EmptyString, join_commas toks)
    :: scan_from 0
         (last_char (Some k) (":" +:+ ws +:+ join_commas toks)) x.
Proof using All.
  intros Hprev Hx. cbn [scan_from]. rewrite marker_at_group by done.
  f_equal. rewrite <- scan_skip. rewrite !app_assoc_str.
  f_equal. rewrite slen_cons, !slen_app. change (slen ":") with 1%nat. lia.
Qed.
End TokenList.

(** ** The index *)

Lemma to_dict_loop_present l d r :
  r ∈ l → is_Some (d !! key_function r) →
  to_dict_loop l d = Raise ValueError.
Proof.
  intros Hin. revert d. induction l as [|x l IH]; intros d Hd.
  - by apply elem_of_nil in Hin.
  - simpl. destruct (d !! key_function x) eqn:Hx; [done|].
    apply elem_of_cons in Hin as [->|Hin].
    + rewrite Hx in Hd. by destruct Hd.
    + apply IH; [done|]. rewrite lookup_insert. case_decide; [done|]. done.
Qed.

Lemma to_dict_loop_duplicate l d i j r1 r2 :
  (i < j)%nat → l !! i = Some r1 → l !! j = Some r2 →
  key_function r1 = key_function r2 →
  to_dict_loop l d = Raise ValueError.
Proof.
  revert d i j. induction l as [|x l IH]; intros d i j Hij Hi Hj Hk; [done|].
  simpl. destruct (d !! key_function x) eqn:Hx; [done|].
  destruct j as [|j]; [lia|]. simpl in Hj. destruct i as [|i].
  - simpl in Hi. injection Hi as ->.
    apply (to_dict_loop_present l _ r2).
    + by eapply list_elem_of_lookup_2.
    + rewrite <- Hk, lookup_insert_eq. by eexists.
  - simpl in Hi. apply (IH _ i j); [lia | done..].
Qed.

Lemma to_dict_loop_unique l d :
  NoDup (key_function <$> l) →
  (∀ r, r ∈ l → d !! key_function r = None) →
  ∃ d', to_dict_loop l d = Ok d'
        ∧ ∀ k r, d' !! k = Some r
                 ↔ d !! k = Some r ∨ (r ∈ l ∧ key_function r = k).
Proof.
  revert d. induction l as [|x l IH]; intros d Hnd Hd.
  - exists d. split; [done|]. intros k r. split; [by left|].
    intros [?|[Hin _]]; [done | by apply elem_of_nil in Hin].
  - cbn [fmap list_fmap] in Hnd. apply NoDup_cons in Hnd as [Hx Hnd].
    cbn [to_dict_loop]. rewrite (Hd x) by left.
    destruct (IH (<[key_function x := x]> d) Hnd) as (d' & -> & Hd').
    { intros r Hr. rewrite lookup_insert_ne; [apply Hd; by right|].
      intros Heq. apply Hx. rewrite Heq. by apply list_elem_of_fmap_2. }
    exists d'. split; [done|]. intros k r. rewrite Hd', lookup_insert.
    case_decide as Hk; rewrite elem_of_cons.
    + subst k. split.
      * intros [[= ->]|[Hin Heq]]; [right; split; [by left | done]|].
        right. split; [by right | done].
      * intros [Hsome|[[->|Hin] Heq]].
        -- rewrite (Hd x) in Hsome by left. done.
        -- by left.
        -- right. done.
    + split.
      * intros [?|[Hin Heq]]; [by left|]. right. split; [by right | done].
      * intros [?|[[->|Hin] Heq]]; [by left | done | by right].
Qed.

(** An archive whose stripped identifiers are all different is indexed:
    each stripped identifier leads to its record, and nothing else is in
    the index. *)
Lemma SeqIO_to_dict_unique fasta :
  NoDup (key_function <$> fasta) →
  ∃ records, SeqIO_to_dict fasta = Ok records
    ∧ ∀ k r, records !! k = Some r ↔ r ∈ fasta ∧ key_function r = k.
Proof.
  intros Hnd. destruct (to_dict_loop_unique fasta ∅ Hnd) as (d' & H & Hd').
  { intros r _. apply lookup_empty. }
  exists d'. split; [exact H|]. intros k r. rewrite Hd', lookup_empty.
  split; [by intros [?|?] | by right].
Qed.

Lemma read_fasta_lookup fasta accessions records sequences :
  SeqIO_to_dict fasta = Ok records →
  read_fasta_sequences fasta accessions = Ok sequences →
  ∀ acc, sequences !! acc
         = if decide (acc ∈ accessions) then records !! acc else None.
Proof.
  unfold read_fasta_sequences. intros -> [= <-] acc. cbn [bind].
  set (f := λ acc : string, match records !! acc with
                            | Some r => Some (acc, r) | None => None end).
  assert (Hfst : ∀ x y, f x = Some y → y.1 = x).
  { intros x y. unfold f. destruct (records !! x); by intros [= <-]. }
  assert (Hnd : NoDup (omap f (elements accessions)).*1).
  { pose proof (NoDup_elements accessions) as Hn.
    induction Hn as [|x l Hx Hn IH]; [constructor|].
    cbn [omap list_omap]. fold (omap f l).
    destruct (f x) as [y|] eqn:Hy; [|done].
    cbn [fmap list_fmap]. constructor; [|done].
    rewrite (Hfst _ _ Hy). intros Hin.
    apply list_elem_of_fmap in Hin as (z & -> & Hz).
    apply list_elem_of_omap in Hz as (x' & Hx' & Hfx').
    by rewrite (Hfst _ _ Hfx') in Hx. }
  apply option_eq. intros r.
  rewrite <- elem_of_list_to_map by done.
  rewrite list_elem_of_omap. split.
  - intros (x & Hx & Hfx). apply elem_of_elements in Hx.
    unfold f in Hfx. destruct (records !! x) eqn:E; [|done].
    injection Hfx as <- <-. by rewrite decide_True.
  - case_decide as Hin; [|done]. intros Hr. exists acc. split.
    + by apply elem_of_elements.
    + unfold f. by rewrite Hr.
Qed.

(** ** Writing a group *)

Lemma write_accs_spec accs sequences f :
  write_accs accs sequences f
  = f ++ omap (M := list) (λ acc, sequences !! acc) accs.
Proof.
  revert f. induction accs as [|acc accs IH]; intros f.
  - by rewrite app_nil_r.
  - simpl. destruct (sequences !! acc); rewrite IH; [|done].
    by rewrite <- app_assoc.
Qed.

Lemma write_keys_spec keys vals acc_dict sequences f :
  Forall2 (λ key accs, dict_get key acc_dict = Some accs) keys vals →
  write_keys keys acc_dict sequences f
  = Ok (f ++ omap (M := list) (λ acc, sequences !! acc) (concat vals)).
Proof.
  intros H. revert f. induction H as [|key accs keys vals Hk _ IH]; intros f.
  - by rewrite app_nil_r.
  - cbn [write_keys]. unfold dict_item. rewrite Hk. cbn [bind].
    rewrite IH, write_accs_spec, <- app_assoc. cbn [concat].
    by rewrite omap_app.
Qed.

Lemma dict_get_elem {V} (d : dict V) k v :
  NoDup d.*1 → (k, v) ∈ d → dict_get k d = Some v.
Proof.
  induction d as [|[k' v'] d IH]; intros Hnd Hin; [by apply elem_of_nil in Hin|].
  cbn [fmap list_fmap] in Hnd. apply NoDup_cons in Hnd as [Hk Hd].
  cbn [dict_get]. apply elem_of_cons in Hin as [[= -> ->]|Hin].
  - by rewrite String.eqb_refl.
  - destruct (String.eqb_spec k' k) as [->|]; [|by apply IH].
    destruct Hk. by apply (list_elem_of_fmap_2 fst _ (k, v)).
Qed.

(** Iterating over the keys of a dict and looking each one up gives the
    values in order: no [KeyError]. *)
Lemma dict_get_values {V} (d : dict V) :
  NoDup d.*1 → Forall2 (λ key v, dict_get key d = Some v) d.*1 d.*2.
Proof.
  intros Hnd. apply Forall2_fmap, Forall_Forall2_diag, Forall_forall.
  intros [k v] Hin. by apply dict_get_elem.
Qed.

Lemma dict_set_keys_in {V} k (v : V) d k' :
  k' ∈ (dict_set k v d).*1 → k' = k ∨ k' ∈ d.*1.
Proof.
  induction d as [|[k2 v2] d IH]; simpl.
  - intros ->%list_elem_of_singleton. by left.
  - destruct (String.eqb_spec k2 k) as [->|Hne]; simpl; rewrite !elem_of_cons.
    + intros [H|H]; [by left | by right; right].
    + intros [H|H]; [by right; left|].
      destruct (IH H); [by left | by right; right].
Qed.

Lemma dict_set_keys {V} k (v : V) d :
  NoDup d.*1 → NoDup (dict_set k v d).*1.
Proof.
  induction d as [|[k' v'] d IH]; [intros _; by apply NoDup_singleton|].
  cbn [fmap list_fmap dict_set fst]. intros [Hk Hd]%NoDup_cons.
  destruct (String.eqb_spec k' k) as [->|Hne].
  - by apply NoDup_cons.
  - cbn [fmap list_fmap fst]. apply NoDup_cons. split; [|by apply IH].
    intros [?|?]%dict_set_keys_in; done.
Qed.

Lemma pairs_loop_keys id_pairs segment d d' :
  NoDup d.*1 → pairs_loop id_pairs segment d = Ok d' → NoDup d'.*1.
Proof.
  revert d. induction id_pairs as [|[k g] l IH]; intros d Hd H.
  - by injection H as <-.
  - simpl in H. destruct (_ && _); [by eapply IH|].
    destruct (parts_loop _ _); [|done]. eapply IH; [|done].
    by apply dict_set_keys.
Qed.

Lemma parse_keys s segment d :
  parse_accession_ids s segment = Ok d → NoDup d.*1.
Proof. apply pairs_loop_keys. constructor. Qed.

(** What is written for a row: the payloads of its identifiers that the
    index has, and nothing for the others. *)
Lemma resolved_elem records acc_dict r :
  r ∈ resolved records acc_dict
  ↔ ∃ acc, acc ∈ row_ids acc_dict ∧ records !! acc = Some r.
Proof. apply list_elem_of_omap. Qed.

Lemma omap_absent (records : gmap string SeqRecord) ids1 acc ids2 :
  records !! acc = None →
  omap (M := list) (λ acc, records !! acc) (ids1 ++ acc :: ids2)
  = omap (M := list) (λ acc, records !! acc) (ids1 ++ ids2).
Proof.
  intros H. rewrite !omap_app. f_equal. cbn [omap list_omap]. by rewrite H.
Qed.

Lemma write_group_spec s segment acc_dict sequences :
  parse_accession_ids s segment = Ok acc_dict →
  write_keys acc_dict.*1 acc_dict sequences []
  = Ok (resolved sequences acc_dict).
Proof.
  intros H%parse_keys.
  by rewrite (write_keys_spec _ _ _ _ _ (dict_get_values _ H)).
Qed.

(** ** The run *)

Lemma omap_lookup_agree (m1 m2 : gmap string SeqRecord) ids :
  (∀ acc, acc ∈ ids → m1 !! acc = m2 !! acc) →
  omap (M := list) (λ acc, m1 !! acc) ids = omap (M := list) (λ acc, m2 !! acc) ids.
Proof.
  induction ids as [|x ids IH]; intros H; [done|].
  cbn [omap list_omap]. rewrite (H x) by left.
  fold (omap (M := list) (λ acc, m1 !! acc) ids).
  fold (omap (M := list) (λ acc, m2 !! acc) ids).
  rewrite IH; [done|]. intros acc Hin. apply H. by right.
Qed.

Lemma collect_accessions_spec segment df dicts :
  Forall2 (parses_to segment) df dicts →
  ∃ accessions, collect_accessions df segment = Ok accessions
    ∧ ∀ d acc, d ∈ dicts → acc ∈ row_ids d → acc ∈ accessions.
Proof.
  induction 1 as [|r d df dicts Hr _ (X & HX & Hin)].
  - exists ∅. split; [done|]. intros d acc Hd. by apply elem_of_nil in Hd.
  - exists (list_to_set (row_ids d) ∪ X). split.
    + cbn [collect_accessions]. unfold parses_to in Hr. rewrite Hr. cbn [bind].
      by rewrite HX.
    + intros d' acc [->|Hd]%elem_of_cons Hacc.
      * apply elem_of_union_l. by apply elem_of_list_to_set.
      * apply elem_of_union_r. by eapply Hin.
Qed.

Lemma rows_loop_spec fs records sequences output_folder segment df dicts held :
  Forall2 (parses_to segment) df dicts →
  Forall (λ r, open_error fs (group_path output_folder segment r) = None) df →
  (∀ d acc, d ∈ dicts → acc ∈ row_ids d → sequences !! acc = records !! acc) →
  rows_loop fs df sequences output_folder segment held
  = Ok (write_groups fs records output_folder segment (zip df dicts) held).
Proof.
  intros H. revert held.
  induction H as [|r d df dicts Hr _ IH]; intros held Hopen Hseq.
  - done.
  - inversion Hopen as [|? ? Hr_open Hdf_open]; subst.
    cbn [rows_loop]. unfold write_row. unfold parses_to in Hr.
    rewrite Hr. cbn [bind]. unfold group_path in Hr_open. rewrite Hr_open.
    rewrite (write_group_spec _ _ _ _ Hr).
    cbn [bind]. rewrite IH.
    + cbn [zip zip_with write_groups foldl fst snd]. unfold resolved.
      rewrite (omap_lookup_agree sequences records); [done|].
      intros acc Hacc. apply (Hseq d); [by left | done].
    + done.
    + intros d' acc Hd. apply Hseq. by right.
Qed.

Lemma write_fasta_files_spec records sequences output_folder segment df dicts fs :
  Forall2 (parses_to segment) df dicts →
  make_folder fs output_folder = Ok tt →
  Forall (λ r, open_error fs (group_path output_folder segment r) = None) df →
  (∀ d acc, d ∈ dicts → acc ∈ row_ids d → sequences !! acc = records !! acc) →
  write_fasta_files df sequences output_folder segment fs
  = Ok (write_groups fs records output_folder segment (zip df dicts)
          (contents fs)).
Proof.
  intros H Hfolder Hopen Hseq. unfold write_fasta_files. rewrite Hfolder.
  by apply rows_loop_spec.
Qed.

(** What [main] returns when the archive is indexed, the rows parse, and
    the system lets the folder be made and the files be opened. *)
Lemma main_writes_groups df dicts fasta records output_folder segment fs :
  SeqIO_to_dict fasta = Ok records →
  Forall2 (parses_to segment) df dicts →
  make_folder fs output_folder = Ok tt →
  Forall (λ r, open_error fs (group_path output_folder segment r) = None) df →
  main df fasta output_folder segment fs
  = Ok (write_groups fs records output_folder segment (zip df dicts)
          (contents fs)).
Proof.
  intros Hrec Hparse Hfolder Hopen. unfold main.
  destruct (collect_accessions_spec segment df dicts Hparse)
    as (accessions & -> & Hin).
  cbn [bind]. unfold read_fasta_sequences. rewrite Hrec. cbn [bind].
  apply write_fasta_files_spec; [done | done | done |]. intros d acc Hd Hacc.
  erewrite read_fasta_lookup;
    [|exact Hrec | unfold read_fasta_sequences; by rewrite Hrec].
  rewrite decide_True; [done|]. by eapply Hin.
Qed.

(** What the system refuses comes out of the run: when the folder is not
    there and cannot be made, [write_fasta_files] raises what
    [os.makedirs] raises, before any row is looked at; and when the file of
    a row cannot be opened, the turn of that row raises what [open]
    raises. *)
Lemma refusals_raise fs df r sequences output_folder segment held e :
  (path_exists fs output_folder = false →
   makedirs_error fs output_folder = Some e →
   write_fasta_files df sequences output_folder segment fs = Raise e)
  ∧ (raises (parse_accession_ids (Virus_GENBANK_accession r) segment) = false →
     open_error fs (group_path output_folder segment r) = Some e →
     write_row fs r sequences output_folder segment held = Raise e).
Proof.
  split.
  - intros Hex Hmk. unfold write_fasta_files, make_folder. by rewrite Hex, Hmk.
  - intros Hparse Hopen. unfold write_row.
    destruct (parse_accession_ids _ _); [|done]. cbn [bind].
    unfold group_path in Hopen. by rewrite Hopen.
Qed.

(** With the answers of a POSIX system for the empty path, which is not
    there and cannot be made, a run into the folder of that name raises. *)
Lemma empty_folder_raises :
  main [mkRow "Foo bar" "V" "L: MN1"] [mkSeqRecord "MN1.1" "ACGT"]
    EmptyString "all" (fresh_disk ∅)
  = Raise OSError.
Proof. vm_compute. reflexivity. Qed.

(** ** Parsing one group *)

Lemma comma_not_tokchar : is_tokchar "," = false.
Proof. reflexivity. Qed.

Lemma split_join_commas toks :
  Forall (λ t, is_token t = true) toks → toks ≠ [] →
  split_on "," (join_commas toks) = toks.
Proof.
  intros Htoks. induction Htoks as [|t ts Ht _ IH]; intros Hne; [done|].
  apply is_token_inv in Ht as [Ht _].
  assert (Hs : split_on "," t = [t]).
  { apply split_on_absent.
    by eapply str_forall_absent; [apply comma_not_tokchar|]. }
  destruct ts as [|t' ts']; [done|].
  rewrite join_commas_cons, split_on_app, Hs, IH by done. done.
Qed.

Lemma findall_one_group k ws toks :
  is_segcode k = true → str_forall is_space ws = true →
  Forall (λ t, is_token t = true) toks → toks ≠ [] →
  re_findall accession_re (String k (":" +:+ ws +:+ join_commas toks))
  = [(String k EmptyString, join_commas toks)].
Proof.
  intros Hk Hws Htoks Hne. rewrite findall_scan.
  rewrite <- (app_empty_r (join_commas toks)) at 1.
  rewrite scan_group by done. by destruct (last_char _ _).
Qed.

Lemma findall_group_then k ws toks w rest :
  is_segcode k = true → str_forall is_space ws = true →
  Forall (λ t, is_token t = true) toks → toks ≠ [] →
  is_space w = true →
  re_findall accession_re
    (String k (":" +:+ ws +:+ join_commas toks +:+ "," +:+ String w rest))
  = (String k EmptyString, join_commas toks)
    :: findall_from accession_re 0 (Some w) rest.
Proof.
  intros Hk Hws Htoks Hne Hw. rewrite findall_scan, findall_scan_from.
  pose proof (space_not_tokchar _ Hw) as Hw'.
  rewrite scan_group; try done.
  - f_equal. change ("," +:+ String w rest) with (String "," (String w rest)).
    cbn [scan_from marker_at]. cbn [is_segcode is_char Ascii.eqb andb].
    simpl (Ascii.eqb _ _). rewrite !andb_false_r.
    destruct rest as [|c rest]; [done|].
    replace (is_segcode w) with false; [by rewrite andb_false_r|].
    symmetry. destruct (is_segcode w) eqn:E; [|done].
    apply segcode_word in E. unfold is_tokchar in Hw'. by rewrite E in Hw'.
  - change ("," +:+ String w rest) with (String "," (String w rest)).
    cbn [group_stop starts_with]. by rewrite Hw'.
Qed.

Lemma parse_one_group k ws toks segment :
  is_segcode k = true → str_forall is_space ws = true →
  Forall (λ t, is_token t = true) toks → toks ≠ [] →
  parse_accession_ids (String k (":" +:+ ws +:+ join_commas toks)) segment
  = if keeps segment (String k EmptyString)
    then let* ids := parts_loop toks [] in Ok [(String k EmptyString, ids)]
    else Ok [].
Proof.
  intros Hk Hws Htoks Hne. unfold parse_accession_ids.
  rewrite findall_one_group, pairs_loop_single by done.
  by rewrite split_join_commas.
Qed.

Lemma is_token_range start end_ :
  str_forall is_word start = true → str_forall is_word end_ = true →
  is_token (range_token start end_) = true.
Proof.
  intros Hs He. unfold is_token, range_token.
  rewrite !str_forall_app. cbn [str_forall].
  assert (Hw : ∀ c, is_word c = true → is_tokchar c = true)
    by (intros c Hc; unfold is_tokchar; by rewrite Hc).
  rewrite (str_forall_impl _ _ _ Hw Hs), (str_forall_impl _ _ _ Hw He).
  by destruct start.
Qed.

Section RangeTokenParse.
Variables (k : ascii) (ws p ds q de : string) (lo hi : N) (segment : string).
Hypotheses (Hk : is_segcode k = true) (Hws : str_forall is_space ws = true).
Hypotheses (Hp : is_prefix p = true) (Hds : is_number ds = true).
Hypotheses (Hq : is_prefix q = true) (Hde : is_number de = true).
Hypotheses (Hlo : py_int ds = Ok lo) (Hhi : py_int de = Ok hi).
Hypothesis Hseg : keeps segment (String k EmptyString) = true.

(** A group made of one range token. *)
Lemma parse_range_token :
  parse_accession_ids
    (String k (":" +:+ ws +:+ range_token (p +:+ ds) (q +:+ de))) segment
  = Ok [(String k EmptyString,
         map (λ num, p +:+ py_str num) (py_range lo (hi + 1)))].
Proof using All.
  pose proof (parse_one_group k ws [range_token (p +:+ ds) (q +:+ de)]
                segment Hk Hws) as H.
  cbn [join_commas] in H. rewrite H; [|repeat constructor|done].
  - rewrite Hseg. cbn [parts_loop].
    by rewrite (expand_range_token p ds q de lo hi).
  - apply is_token_range; by apply identifier_word.
Qed.
End RangeTokenParse.

(** ** Later groups of a segment *)

Lemma pairs_loop_app l1 l2 segment d :
  pairs_loop (l1 ++ l2) segment d
  = let* d' := pairs_loop l1 segment d in pairs_loop l2 segment d'.
Proof.
  revert d. induction l1 as [|[k g] l1 IH]; intros d; [done|].
  simpl. destruct (_ && _); [apply IH|].
  destruct (parts_loop _ _); [apply IH | done].
Qed.

Lemma dict_get_set {V} k (v : V) d : dict_get k (dict_set k v d) = Some v.
Proof.
  induction d as [|[k' v'] d IH]; simpl; [by rewrite String.eqb_refl|].
  destruct (String.eqb k' k) eqn:E; simpl; [by rewrite String.eqb_refl|].
  by rewrite E.
Qed.

(** The dict keeps, for a segment, the identifiers of the group that was
    processed last; what earlier groups of the segment gave is replaced. *)
Lemma pairs_loop_last_group id_pairs key grp segment d d' :
  keeps segment key = true →
  pairs_loop (id_pairs ++ [(key, grp)]) segment d = Ok d' →
  ∃ ids, parts_loop (split_on "," grp) [] = Ok ids
         ∧ dict_get key d' = Some ids.
Proof.
  intros Hk. rewrite pairs_loop_app.
  destruct (pairs_loop id_pairs segment d) as [d1|]; [|done].
  cbn [bind pairs_loop]. unfold keeps in Hk.
  replace (negb (String.eqb segment "all") && negb (String.eqb key segment))
    with false by (by destruct (String.eqb segment "all"), (String.eqb key segment)).
  destruct (parts_loop (split_on "," grp) []) as [ids|]; [|done].
  intros [= <-]. exists ids. split; [done | apply dict_get_set].
Qed.

(** ** The segment filter *)

Lemma pairs_loop_filtered id_pairs segment d d' k :
  String.eqb segment "all" = false →
  pairs_loop id_pairs segment d = Ok d' →
  k ∈ d'.*1 → k ∈ d.*1 ∨ k = segment.
Proof.
  intros Hall. revert d. induction id_pairs as [|[key grp] l IH]; intros d H Hk.
  - injection H as <-. by left.
  - cbn [pairs_loop] in H. rewrite Hall in H. cbn [negb andb] in H.
    destruct (String.eqb_spec key segment) as [->|Hne]; cbn [negb] in H.
    + destruct (parts_loop (split_on "," grp) []) as [ids|]; [|done].
      cbn [bind] in H. destruct (IH _ H Hk) as [Hin|?]; [|by right].
      apply dict_set_keys_in in Hin as [?|?]; [by right | by left].
    + by apply (IH d).
Qed.

(** With a filter other than [all], the result has no key but the
    requested segment. *)
Lemma parse_filtered accession_str segment acc_dict k :
  segment ≠ "all" →
  parse_accession_ids accession_str segment = Ok acc_dict →
  k ∈ acc_dict.*1 → k = segment.
Proof.
  intros Hall H Hk.
  destruct (pairs_loop_filtered (re_findall accession_re accession_str)
              segment [] acc_dict k) as [Hin|?]; try done.
  - by destruct (String.eqb_spec segment "all").
  - by apply elem_of_nil in Hin.
Qed.

Lemma str_filter_ext (p q : ascii → bool) s :
  (∀ c, p c = q c) → str_filter p s = str_filter q s.
Proof.
  intros H. induction s as [|c t IH]; [done|]. simpl. by rewrite H, IH.
Qed.

(** ** Rows with text between the markers *)

Lemma word_tokchar c : is_word c = true → is_tokchar c = true.
Proof. unfold is_tokchar. by intros ->. Qed.

Lemma is_plain_token_inv t :
  is_plain_token t = true →
  is_token t = true ∧ contains "-" t = false.
Proof.
  unfold is_plain_token, is_token. intros [Hne Hw]%andb_true_iff. split.
  - rewrite Hne. simpl. by eapply str_forall_impl; [apply word_tokchar|].
  - by eapply str_forall_absent; [apply hyphen_not_word|].
Qed.

Lemma parts_loop_plain toks ids :
  Forall (λ t, contains "-" t = false) toks →
  parts_loop toks ids = Ok (ids ++ toks).
Proof.
  intros H. revert ids. induction H as [|t ts Ht _ IH]; intros ids.
  - by rewrite app_nil_r.
  - cbn [parts_loop]. rewrite (expand_plain _ Ht). cbn [bind].
    rewrite IH. by rewrite <- app_assoc.
Qed.

Lemma scan_prefix_no_colon x y prev :
  contains ":" x = false → starts_with (is_char ":") y = false →
  scan_from 0 prev (x +:+ y) = scan_from 0 (last_char prev x) y.
Proof.
  revert prev. induction x as [|c x IH]; intros prev Hx Hy; [done|].
  rewrite app_cons. cbn [contains] in Hx. apply orb_false_iff in Hx as [_ Hx].
  cbn [scan_from last_char].
  replace (marker_at prev (String c (x +:+ y)))
    with (@None (string * string * string)); [by apply IH|].
  unfold marker_at. destruct (x +:+ y) as [|d t] eqn:E; [done|].
  replace (is_char ":" d) with false; [by rewrite andb_false_r|].
  destruct x as [|d' x'].
  - rewrite app_empty_l in E. subst y. by simpl in Hy.
  - rewrite app_cons in E. injection E as <- _. cbn [contains] in Hx.
    unfold is_char. by apply orb_false_iff in Hx as [-> _].
Qed.

Lemma word_before_last_char x :
  word_before (last_char None x) = ends_with is_word x.
Proof.
  assert (H : ∀ c x, word_before (last_char (Some c) x)
                     = ends_with is_word (String c x)).
  { intros c y. revert c. induction y as [|d y IH]; intros c; [done|].
    cbn [last_char]. by rewrite IH. }
  destruct x as [|c x]; [done|]. apply H.
Qed.

Lemma last_char_nonempty prev x :
  x ≠ EmptyString → last_char prev x = last_char None x.
Proof. by destruct x. Qed.

Lemma ends_with_weaken (p q : ascii → bool) x :
  ends_with (λ c, p c || q c) x = false → ends_with p x = false.
Proof.
  induction x as [|c [|d t] IH]; [done | |].
  - simpl. by intros [-> _]%orb_false_iff.
  - exact IH.
Qed.

(** After a text that separates, whatever follows does not continue the
    token list before. *)
Lemma group_stop_app x y :
  group_stop x = true → separates x → group_stop (x +:+ y) = true.
Proof.
  intros Hx [Hne He]. destruct x as [|c [|d t]]; [done | |].
  - rewrite app_cons, app_empty_l. cbn [group_stop] in *.
    apply andb_true_iff in Hx as [Hc _]. rewrite Hc. cbn [andb].
    cbn [ends_with] in He. apply orb_false_iff in He as [_ ->]. done.
  - rewrite !app_cons. exact Hx.
Qed.

Lemma cell_text_start cells :
  Forall well_cut cells → starts_with (is_char ":") (cell_text cells) = false.
Proof.
  intros [|[[[k ws] toks] rest] cs (Hg & _) _]; [done|].
  destruct Hg as (Hk & _). cbn [cell_text marker_text fst]. rewrite app_cons.
  cbn [starts_with]. unfold is_char.
  destruct (Ascii.eqb_spec k ":") as [->|]; done.
Qed.

(** The markers of such a row are its groups: [re.findall] gives the code
    and the token list of each, and nothing of the text between them. *)
Lemma scan_cell_text cells prev :
  Forall well_cut cells → separated cells → word_before prev = false →
  scan_from 0 prev (cell_text cells)
  = (λ c, (cut_code c, join_commas (cut_toks c))) <$> cells.
Proof.
  intros H. revert prev.
  induction H as [|[[[k ws] toks] rest] cs Hc Hcs IH]; intros prev Hsep Hprev;
    [done|].
  destruct Hc as ((Hk & Hws & Htoks & Hne) & Hstop & Hcolon).
  cbn [fst snd cut_rest] in *.
  cbn [cell_text marker_text fst cut_rest snd].
  rewrite app_cons, !app_assoc_str.
  assert (Hstop' : group_stop (rest +:+ cell_text cs) = true).
  { destruct cs as [|c' cs']; [by rewrite app_empty_r|].
    destruct Hsep as [Hsep _]. by apply group_stop_app. }
  rewrite scan_group by done.
  cbn [fmap list_fmap cut_code cut_toks fst snd]. f_equal.
  rewrite scan_prefix_no_colon; [|done | by apply cell_text_start].
  destruct cs as [|c' cs']; [by destruct (last_char _ rest)|].
  destruct Hsep as [[Hrne Hrend] Hsep].
  apply IH; [done|].
  rewrite last_char_nonempty, word_before_last_char by done.
  by eapply ends_with_weaken.
Qed.

Lemma findall_cell lead cells :
  contains ":" lead = false → ends_with is_word lead = false →
  Forall well_cut cells → separated cells →
  re_findall accession_re (lead +:+ cell_text cells)
  = (λ c, (cut_code c, join_commas (cut_toks c))) <$> cells.
Proof.
  intros Hlead Hend Hcells Hsep. rewrite findall_scan.
  rewrite scan_prefix_no_colon; [|done | by apply cell_text_start].
  apply scan_cell_text; [done | done |]. by rewrite word_before_last_char.
Qed.

Lemma dict_set_fresh {V} k (v : V) d : k ∉ d.*1 → dict_set k v d = d ++ [(k, v)].
Proof.
  induction d as [|[k' v'] d IH]; intros Hk; [done|].
  cbn [dict_set]. cbn [fmap list_fmap fst] in Hk.
  apply not_elem_of_cons in Hk as [Hne Hk].
  destruct (String.eqb_spec k' k); [congruence|]. by rewrite IH.
Qed.

(** Groups with different codes each get their entry, in their order, when
    the filter keeps them. *)
Lemma pairs_loop_distinct id_pairs segment d idss :
  NoDup (d.*1 ++ id_pairs.*1) →
  Forall2 (λ p ids, parts_loop (split_on "," p.2) [] = Ok ids) id_pairs idss →
  pairs_loop id_pairs segment d
  = Ok (d ++ List.filter (λ e, keeps segment e.1) (zip id_pairs.*1 idss)).
Proof.
  intros Hnd H. revert d Hnd. induction H as [|[k g] ids l idss Hp _ IH];
    intros d Hnd.
  - cbn. by rewrite app_nil_r.
  - cbn [fmap list_fmap fst] in Hnd. cbn [snd] in Hp.
    assert (Hk : k ∉ d.*1).
    { apply NoDup_app in Hnd as (_ & Hk & _). intros Hin.
      apply (Hk k Hin). by left. }
    assert (Hrest : NoDup (d.*1 ++ l.*1)).
    { apply NoDup_app in Hnd as (Hd & Hdl & Hl).
      apply NoDup_app. split; [done|]. split.
      - intros x Hx Hin. apply (Hdl x Hx). by right.
      - by apply NoDup_cons in Hl as [_ ?]. }
    cbn [pairs_loop fmap list_fmap fst zip_with List.filter]. cbn [fst].
    destruct (keeps segment k) eqn:Ekeep.
    + replace (negb (String.eqb segment "all") && negb (String.eqb k segment))
        with false.
      2:{ unfold keeps in Ekeep.
          destruct (String.eqb segment "all"), (String.eqb k segment); done. }
      rewrite Hp. cbn [bind]. rewrite dict_set_fresh by done.
      rewrite IH.
      * by rewrite <- app_assoc.
      * rewrite fmap_app. cbn [fmap list_fmap fst]. by rewrite <- app_assoc.
    + replace (negb (String.eqb segment "all") && negb (String.eqb k segment))
        with true.
      2:{ unfold keeps in Ekeep.
          destruct (String.eqb segment "all"), (String.eqb k segment); done. }
      by apply IH.
Qed.

Lemma zip_fmap_both {A B C} (f : A → B) (g : A → C) (l : list A) :
  zip (f <$> l) (g <$> l) = (λ x, (f x, g x)) <$> l.
Proof. induction l as [|x l IH]; [done|]. cbn. by rewrite IH. Qed.

(** What [parse_accession_ids] returns for such a row whose markers have
    different codes: for each marker that the filter keeps, in the order of
    the row, its code with the identifiers of its token list. *)
Lemma parse_cell lead cells idss segment :
  contains ":" lead = false → ends_with is_word lead = false →
  Forall well_cut cells → separated cells →
  NoDup (cut_code <$> cells) →
  Forall2 (λ c ids, parts_loop (cut_toks c) [] = Ok ids) cells idss →
  parse_accession_ids (lead +:+ cell_text cells) segment
  = Ok (List.filter (λ e, keeps segment e.1) (zip (cut_code <$> cells) idss)).
Proof.
  intros Hlead Hend Hcells Hsep Hnd Hids. unfold parse_accession_ids.
  rewrite findall_cell by done.
  rewrite (pairs_loop_distinct _ segment [] idss).
  - cbn [app]. do 3 f_equal. rewrite <- list_fmap_compose. done.
  - cbn [app]. rewrite <- list_fmap_compose. exact Hnd.
  - clear -Hcells Hids. revert Hcells.
    induction Hids as [|c ids cells idss Hc _ IH]; intros Hcells;
      [constructor|].
    inversion Hcells as [|? ? Hw Hws]; subst.
    cbn [fmap list_fmap]. constructor; [|by apply IH].
    cbn [snd]. destruct c as [[[k ws] toks] rest].
    destruct Hw as ((_ & _ & Htoks & Hne) & _). cbn [fst snd cut_toks] in *.
    by rewrite split_join_commas.
Qed.

Lemma token_text_is_token t : token_ok t → is_token (token_text t) = true.
Proof.
  destruct t as [t|p ds q de lo hi]; cbn [token_ok token_text].
  - by intros [? _]%is_plain_token_inv.
  - intros (Hp & Hds & Hq & Hde & _). apply is_token_range;
      by apply identifier_word.
Qed.

Lemma expand_token t : token_ok t → expand_part (token_text t) = Ok (token_ids t).
Proof.
  destruct t as [t|p ds q de lo hi]; cbn [token_ok token_text token_ids].
  - intros [_ Hh]%is_plain_token_inv. by apply expand_plain.
  - intros (Hp & Hds & Hq & Hde & Hlo & Hhi). by apply expand_range_token.
Qed.

Lemma parts_loop_tokens toks ids :
  Forall token_ok toks →
  parts_loop (token_text <$> toks) ids = Ok (ids ++ concat (token_ids <$> toks)).
Proof.
  intros H. revert ids. induction H as [|t toks Ht _ IH]; intros ids.
  - cbn. by rewrite app_nil_r.
  - cbn [fmap list_fmap parts_loop concat]. rewrite (expand_token t Ht).
    cbn [bind]. rewrite IH. by rewrite <- app_assoc.
Qed.



(** What the parser returns for a row of markers with different codes and
    tokens of the two kinds. *)
Lemma parse_token_groups lead groups segment :
  contains ":" lead = false → ends_with is_word lead = false →
  Forall (λ g, well_cut (texts g)) groups → separated (texts <$> groups) →
  NoDup ((λ g, cut_code (texts g)) <$> groups) →
  Forall (λ g, Forall token_ok (group_tokens g)) groups →
  parse_accession_ids (lead +:+ cell_text (texts <$> groups)) segment
  = Ok (List.filter (λ e, keeps segment e.1)
          ((λ g, (cut_code (texts g), concat (token_ids <$> group_tokens g)))
             <$> groups)).
Proof.
  intros Hlead Hend Hcells Hsep Hnd Htoks.
  rewrite (parse_cell lead (texts <$> groups)
             ((λ g, concat (token_ids <$> group_tokens g)) <$> groups) segment).
  - do 2 f_equal. rewrite <- list_fmap_compose.
    apply (zip_fmap_both (λ g, cut_code (texts g))).
  - done.
  - done.
  - by apply Forall_fmap.
  - done.
  - by rewrite <- list_fmap_compose.
  - apply Forall2_fmap, Forall_Forall2_diag.
    eapply Forall_impl; [exact Htoks|]. intros [[[k ws] toks] rest] Hg.
    cbn. by rewrite parts_loop_tokens.
Qed.

(** * The claims *)

(** C1.  The range token PREFIX007-PREFIX010 is expanded with the numbers
    in plain decimal: the script returns PREFIX7, PREFIX8, PREFIX9, PREFIX10
    and not the zero-padded identifiers, neither from [expand_part] alone
    nor through the whole of [parse_accession_ids]. *)
Theorem leading_zeros_dropped :
  expand_part "PREFIX007-PREFIX010"
  = Ok ["PREFIX7"; "PREFIX8"; "PREFIX9"; "PREFIX10"]
  ∧ parse_accession_ids "L: PREFIX007-PREFIX010" "all"
    = Ok [("L", ["PREFIX7"; "PREFIX8"; "PREFIX9"; "PREFIX10"])].
Proof. split; vm_compute; reflexivity. Qed.



(** A range token whose END has no trailing digit run raises: an accession
    string with such a token in a group that the segment filter keeps makes
    [parse_accession_ids] raise. *)
Lemma no_end_number_raises start end_ accession_str segment key grp :
  str_forall is_word start = true → str_forall is_word end_ = true →
  ends_with is_digit end_ = false →
  (key, grp) ∈ re_findall accession_re accession_str →
  keeps segment key = true →
  range_token start end_ ∈ split_on "," grp →
  raises (parse_accession_ids accession_str segment) = true.
Proof.
  intros Hs He Hn Hin Hk Htok.
  eapply pairs_loop_raise; [exact Hin | exact Hk |].
  eapply parts_loop_raise; [exact Htok |].
  by rewrite expand_no_end_number.
Qed.


(** C3, as the script has it.  When two records of the archive have the
    same identifier after the version suffix is stripped, [SeqIO.to_dict]
    raises [ValueError] and [read_fasta_sequences] with it: no index is
    built. *)
Theorem duplicate_identifier_fatal fasta accessions i j r1 r2 :
  i ≠ j → fasta !! i = Some r1 → fasta !! j = Some r2 →
  key_function r1 = key_function r2 →
  SeqIO_to_dict fasta = Raise ValueError
  ∧ read_fasta_sequences fasta accessions = Raise ValueError.
Proof.
  intros Hij Hi Hj Hk.
  assert (H : SeqIO_to_dict fasta = Raise ValueError).
  { unfold SeqIO_to_dict. destruct (decide (i < j)%nat).
    - by apply (to_dict_loop_duplicate fasta ∅ i j r1 r2).
    - apply (to_dict_loop_duplicate fasta ∅ j i r2 r1); [lia | done..]. }
  split; [done|]. unfold read_fasta_sequences. by rewrite H.
Qed.

Lemma duplicate_identifier_fatal_witness :
  SeqIO_to_dict [mkSeqRecord "MN1.1" "ACGT"; mkSeqRecord "MN1.2" "GGCC"]
  = Raise ValueError
  ∧ read_fasta_sequences
      [mkSeqRecord "MN1.1" "ACGT"; mkSeqRecord "MN1.2" "GGCC"] {["MN1"]}
    = Raise ValueError.
Proof.
  apply (duplicate_identifier_fatal _ _ 0%nat 1%nat
           (mkSeqRecord "MN1.1" "ACGT") (mkSeqRecord "MN1.2" "GGCC"));
    [lia | reflexivity..].
Defined.

(** C3 as stated fails: with MN1.1 and MN1.2 in the archive no index comes
    back, so the first record is not kept either. *)
Lemma duplicate_identifier_no_index :
  ¬ ∃ sequences,
      read_fasta_sequences
        [mkSeqRecord "MN1.1" "ACGT"; mkSeqRecord "MN1.2" "GGCC"] {["MN1"]}
      = Ok sequences.
Proof. intros [sequences H]. vm_compute in H. discriminate H. Qed.




(** C5.  In L: A1, L: B1 the code L introduces two groups; the script
    returns B1 alone for L, the identifier A1 of the first group is lost. *)
Theorem repeated_segment_keeps_last_group :
  re_findall accession_re "L: A1, L: B1" = [("L", "A1"); ("L", "B1")]
  ∧ parse_accession_ids "L: A1, L: B1" "all" = Ok [("L", ["B1"])]
  ∧ parse_accession_ids "L: A1, L: B1" "L" = Ok [("L", ["B1"])].
Proof. repeat split; vm_compute; reflexivity. Qed.

(** C6, as the script has it.  [sanitize_filename] is a function that keeps
    the word characters (alphanumeric or underscore), whitespace and
    hyphens, strips every other character, and then turns each run of
    whitespace into one underscore; the two examples come out as stated. *)
Theorem sanitize_filename_spec :
  (∀ filename,
     sanitize_filename filename
     = collapse_ws false
         (str_filter (λ c, is_word c || is_space c || is_char "-" c) filename))
  ∧ sanitize_filename "Rift Valley fever virus" = "Rift_Valley_fever_virus"
  ∧ sanitize_filename "Sp. (strain A)" = "Sp_strain_A".
Proof.
  split; [|split; vm_compute; reflexivity].
  intros filename. rewrite sanitize_filename_scan. f_equal.
  apply str_filter_ext. intros c. unfold is_special. apply negb_involutive.
Qed.

(** C6 as stated fails: the underscore is neither alphanumeric nor
    whitespace nor a hyphen, and it is not stripped. *)
Lemma underscore_not_stripped :
  sanitize_filename "a_b" = "a_b"
  ∧ sanitize_alnum_only "a_b" = "ab"
  ∧ sanitize_filename "a_b" ≠ sanitize_alnum_only "a_b".
Proof. repeat split; vm_compute; [reflexivity.. | discriminate]. Qed.

(** C7.  Segment isolation: for L: X1-X2, M: Y1-Y2 and the filter L the
    result has the key L alone, with X1 and X2; M is absent and no
    identifier of the group of M is in the list of L. *)
Theorem segment_isolation :
  ∃ acc_dict,
    parse_accession_ids "L: X1-X2, M: Y1-Y2" "L" = Ok acc_dict
    ∧ acc_dict = [("L", ["X1"; "X2"])]
    ∧ dict_get "M" acc_dict = None
    ∧ acc_dict.*1 = ["L"]
    ∧ ("Y1" ∉ row_ids acc_dict) ∧ ("Y2" ∉ row_ids acc_dict).
Proof.
  exists [("L", ["X1"; "X2"])]. split; [vm_compute; reflexivity|].
  repeat split; try reflexivity;
    intros H; repeat (apply elem_of_cons in H as [H|H]; [discriminate H|]);
    by apply elem_of_nil in H.
Qed.

(** C8, as the script has it.  A range token without leading zeros, START
    the prefix [p] and the number [lo], END ending in the number [hi], both
    of at most 4300 digits, expands to [p] followed by each number from
    [lo] to [hi] as [str] formats it, so the digit width grows where the
    decimal representation does; AB99-AB101 gives AB99, AB100, AB101. *)
Theorem width_grows_naturally :
  (∀ k ws p q lo hi segment,
     is_segcode k = true → str_forall is_space ws = true →
     is_prefix p = true → is_prefix q = true →
     keeps segment (String k EmptyString) = true →
     N.of_nat (slen (py_str lo)) <= int_max_str_digits →
     N.of_nat (slen (py_str hi)) <= int_max_str_digits →
     parse_accession_ids
       (String k (":" +:+ ws
                  +:+ range_token (p +:+ py_str lo) (q +:+ py_str hi)))
       segment
     = Ok [(String k EmptyString,
            map (λ num, p +:+ py_str num) (py_range lo (hi + 1)))])
  ∧ expand_part "AB99-AB101" = Ok ["AB99"; "AB100"; "AB101"]
  ∧ parse_accession_ids "L: AB99-AB101" "all"
    = Ok [("L", ["AB99"; "AB100"; "AB101"])].
Proof.
  split; [|split; vm_compute; reflexivity].
  intros k ws p q lo hi segment Hk Hws Hp Hq Hseg Hlo Hhi.
  apply parse_range_token;
    auto using is_number_py_str, py_int_py_str.
Qed.

Lemma width_grows_naturally_witness :
  parse_accession_ids "L: AB99-AB101" "all"
  = Ok [("L", map (λ num, "AB" +:+ py_str num) (py_range 99 (101 + 1)))].
Proof.
  apply (proj1 width_grows_naturally "L"%char " " "AB" "AB" 99 101 "all");
    try reflexivity; vm_compute; discriminate.
Defined.

(** C8 as stated fails where the width grows from 4300 to 4301 digits: for
    START the prefix AB and 4300 nines, END the prefix AB and a one with
    4300 zeros, which would expand to these two identifiers, [int] refuses
    the numeral of END and the parse raises [ValueError]. *)
Lemma width_growth_meets_int_limit :
  expand_part
    (range_token ("AB" +:+ char_run "9" 4300)
       ("AB" +:+ String "1" (char_run "0" 4300)))
  = Raise ValueError
  ∧ parse_accession_ids
      (String "L" (":" +:+ " "
                   +:+ range_token ("AB" +:+ char_run "9" 4300)
                         ("AB" +:+ String "1" (char_run "0" 4300))))
      "all"
    = Raise ValueError.
Proof.
  assert (H : expand_part
                (range_token ("AB" +:+ char_run "9" 4300)
                   ("AB" +:+ String "1" (char_run "0" 4300)))
              = Raise ValueError).
  { apply expand_end_over_cap; vm_compute; reflexivity. }
  split; [exact H|].
  pose proof (parse_one_group "L" " "
                [range_token ("AB" +:+ char_run "9" 4300)
                   ("AB" +:+ String "1" (char_run "0" 4300))] "all") as Hp.
  cbn [join_commas] in Hp. rewrite Hp; [| reflexivity | reflexivity | | done].
  - cbn [parts_loop]. rewrite H. reflexivity.
  - constructor; [|constructor]. apply is_token_range; vm_compute; reflexivity.
Qed.

(** C9.  When the archive indexes to [records], the rows parse, and the
    system lets the folder be there or be made and the file of each row be
    opened, [main] does not fail, whichever identifiers the index lacks,
    and the file of each row holds the payloads the index has for the
    row's identifiers, segment by segment and token by token; identifiers
    without a payload are left out. *)
Theorem absent_identifiers_skipped df dicts fasta records output_folder
    segment fs :
  SeqIO_to_dict fasta = Ok records →
  Forall2 (parses_to segment) df dicts →
  make_folder fs output_folder = Ok tt →
  Forall (λ r, open_error fs (group_path output_folder segment r) = None) df →
  main df fasta output_folder segment fs
  = Ok (write_groups fs records output_folder segment (zip df dicts)
          (contents fs)).
Proof.
  intros Hrec Hparse Hfolder Hopen. unfold main.
  destruct (collect_accessions_spec segment df dicts Hparse)
    as (accessions & -> & Hin).
  cbn [bind].
  destruct (read_fasta_sequences fasta accessions) as [sequences|] eqn:Hseq.
  2:{ unfold read_fasta_sequences in Hseq. by rewrite Hrec in Hseq. }
  cbn [bind]. apply write_fasta_files_spec; [done | done | done |].
  intros d acc Hd Hacc.
  rewrite (read_fasta_lookup _ _ _ _ Hrec Hseq acc).
  rewrite decide_True; [done|]. by eapply Hin.
Qed.

Lemma absent_identifiers_skipped_witness :
  main [mkRow "Foo bar" "Foo virus 1" "L: MN1-MN3, S: MN9"]
       [mkSeqRecord "MN1.1" "ACGT"; mkSeqRecord "MN2.1" "GGCC";
        mkSeqRecord "MN9.2" "TTAA"]
       "out" "all" (fresh_disk ∅)
  = Ok (<["out/Foo_bar_Foo_virus_1_all.fasta" :=
            [mkSeqRecord "MN1.1" "ACGT"; mkSeqRecord "MN2.1" "GGCC";
             mkSeqRecord "MN9.2" "TTAA"]]> ∅).
Proof.
  refine (eq_trans _ (_ : Ok (write_groups _ _ _ _ (zip _ _) ∅) = _)).
  apply (absent_identifiers_skipped
           [mkRow "Foo bar" "Foo virus 1" "L: MN1-MN3, S: MN9"]
           [[("L", ["MN1"; "MN2"; "MN3"]); ("S", ["MN9"])]]
           _
           (<["MN9" := mkSeqRecord "MN9.2" "TTAA"]>
              (<["MN2" := mkSeqRecord "MN2.1" "GGCC"]>
                 (<["MN1" := mkSeqRecord "MN1.1" "ACGT"]> ∅)))
           "out" "all" (fresh_disk ∅)).
  - reflexivity.
  - repeat constructor.
  - reflexivity.
  - repeat constructor.
  - vm_compute. reflexivity.
Defined.

(** C10.  The group of a marker ends where its token list cannot go on: at
    a comma that whitespace follows, among others.  In a row of markers
    with different codes, each followed by its token list and then by
    such a text without colon (the tokens after a comma and whitespace,
    say), [re.findall] gives each marker with the tokens before that text,
    and the parser returns, for every marker that the filter keeps, the
    identifiers of these tokens alone: the text after them is dropped
    without a trace.  L: A1, B2 gives A1 for L; a list with commas alone,
    L: A1,B2, is parsed in full. *)
Theorem comma_space_truncates_group :
  (∀ lead groups segment,
     contains ":" lead = false → ends_with is_word lead = false →
     Forall (λ g, well_cut (texts g)) groups → separated (texts <$> groups) →
     NoDup ((λ g, cut_code (texts g)) <$> groups) →
     Forall (λ g, Forall token_ok (group_tokens g)) groups →
     re_findall accession_re (lead +:+ cell_text (texts <$> groups))
     = (λ g, (cut_code (texts g), join_commas (cut_toks (texts g))))
         <$> groups
     ∧ parse_accession_ids (lead +:+ cell_text (texts <$> groups)) segment
       = Ok (List.filter (λ e, keeps segment e.1)
               ((λ g, (cut_code (texts g),
                       concat (token_ids <$> group_tokens g))) <$> groups)))
  ∧ (∀ w rest, is_space w = true →
       group_stop ("," +:+ String w rest) = true)
  ∧ parse_accession_ids "L: A1, B2" "all" = Ok [("L", ["A1"])]
  ∧ parse_accession_ids "L: A1,B2" "all" = Ok [("L", ["A1"; "B2"])].
Proof.
  split; [|split; [|split; vm_compute; reflexivity]].
  - intros lead groups segment Hlead Hend Hcells Hsep Hnd Htoks. split.
    + rewrite findall_cell; [by rewrite <- list_fmap_compose | done | done | |
                             done].
      by apply Forall_fmap.
    + by apply parse_token_groups.
  - intros w rest Hw. change ("," +:+ String w rest) with (String "," (String w rest)).
    cbn [group_stop starts_with]. rewrite comma_not_tokchar.
    by rewrite (space_not_tokchar _ Hw), andb_false_r.
Qed.

Lemma comma_space_truncates_group_witness :
  re_findall accession_re "acc L: A1,A2, B2; M:C1-C2, C9"
  = [("L", "A1,A2"); ("M", "C1-C2")]
  ∧ parse_accession_ids "acc L: A1,A2, B2; M:C1-C2, C9" "all"
    = Ok [("L", ["A1"; "A2"]); ("M", ["C1"; "C2"])].
Proof.
  destruct (proj1 comma_space_truncates_group "acc "
              [("L"%char, " ", [Plain "A1"; Plain "A2"], ", B2; ");
               ("M"%char, "", [Range "C" "1" "C" "2" 1 2], ", C9")] "all")
    as [H1 H2].
  - reflexivity.
  - reflexivity.
  - repeat constructor; discriminate.
  - repeat constructor; discriminate.
  - vm_compute. repeat constructor; intros H;
      repeat (apply elem_of_cons in H as [H|H]; [discriminate H|]);
      by apply elem_of_nil in H.
  - repeat constructor.
  - split; [exact H1|]. refine (eq_trans H2 _). vm_compute. reflexivity.
Defined.

(** * Further properties of [organise_taxa_fasta.py] *)

(** ** [sanitize_filename] *)

Lemma str_forall_filter p s : str_forall p (str_filter p s) = true.
Proof.
  induction s as [|c t IH]; [done|]. simpl.
  destruct (p c) eqn:Hc; [|done]. simpl. by rewrite Hc.
Qed.

Lemma underscore_tokchar : is_tokchar "_" = true.
Proof. reflexivity. Qed.

Lemma collapse_ws_tokchar b s :
  str_forall (λ c, is_word c || is_space c || is_char "-" c) s = true →
  str_forall is_tokchar (collapse_ws b s) = true.
Proof.
  revert b. induction s as [|c t IH]; intros b; [done|]. cbn [str_forall collapse_ws].
  intros [Hc Ht]%andb_true_iff.
  destruct (is_space c) eqn:Hs.
  - destruct b; [by apply IH|]. cbn [str_forall]. by rewrite underscore_tokchar, IH.
  - cbn [str_forall]. rewrite (IH _ Ht), andb_true_r.
    unfold is_tokchar. by rewrite orb_false_r in Hc.
Qed.

Lemma tokchar_not_space c : is_tokchar c = true → is_space c = false.
Proof.
  intros H. destruct (is_space c) eqn:E; [|done].
  by rewrite (space_not_tokchar _ E) in H.
Qed.

Lemma str_filter_all p s : str_forall p s = true → str_filter p s = s.
Proof.
  induction s as [|c t IH]; [done|]. simpl.
  intros [-> Ht]%andb_true_iff. by rewrite (IH Ht).
Qed.

Lemma collapse_ws_none s :
  str_forall (λ c, negb (is_space c)) s = true → collapse_ws false s = s.
Proof.
  induction s as [|c t IH]; [done|]. simpl.
  intros [Hc Ht]%andb_true_iff. apply negb_true_iff in Hc.
  by rewrite Hc, (IH Ht).
Qed.

Lemma sanitize_clean s :
  str_forall is_tokchar s = true → sanitize_filename s = s.
Proof.
  intros H. rewrite sanitize_filename_scan, str_filter_all, collapse_ws_none.
  - done.
  - eapply str_forall_impl; [|exact H].
    intros c Hc. by rewrite (tokchar_not_space _ Hc).
  - eapply str_forall_impl; [|exact H].
    intros c Hc. unfold is_special, is_tokchar in *.
    rewrite negb_involutive.
    by destruct (is_word c), (is_space c), (is_char "-" c).
Qed.

Lemma sanitize_filename_tokchars filename :
  str_forall is_tokchar (sanitize_filename filename) = true.
Proof.
  rewrite sanitize_filename_scan. apply collapse_ws_tokchar.
  eapply str_forall_impl; [|apply str_forall_filter].
  intros c. unfold is_special. by rewrite negb_involutive.
Qed.

Lemma sanitize_filename_no_slash filename :
  contains "/" (sanitize_filename filename) = false.
Proof.
  by eapply str_forall_absent; [|apply sanitize_filename_tokchars].
Qed.

(** X1.  The result of [sanitize_filename] is made of word characters and
    hyphens only: it has no whitespace, no path separator and no dot. *)
Theorem sanitize_filename_safe filename :
  str_forall is_tokchar (sanitize_filename filename) = true
  ∧ contains "/" (sanitize_filename filename) = false
  ∧ contains "." (sanitize_filename filename) = false
  ∧ str_forall (λ c, negb (is_space c)) (sanitize_filename filename) = true.
Proof.
  pose proof (sanitize_filename_tokchars filename) as H.
  split; [exact H|].
  split; [by eapply str_forall_absent; [|exact H]|].
  split; [by eapply str_forall_absent; [|exact H]|].
  eapply str_forall_impl; [|exact H].
  intros c Hc. by rewrite (tokchar_not_space _ Hc).
Qed.

(** X2.  [sanitize_filename] leaves a name of word characters and hyphens
    as it is, and so sanitizing twice is sanitizing once. *)
Theorem sanitize_filename_idempotent :
  (∀ filename, str_forall is_tokchar filename = true →
     sanitize_filename filename = filename)
  ∧ (∀ filename,
       sanitize_filename (sanitize_filename filename)
       = sanitize_filename filename).
Proof.
  split; [apply sanitize_clean|].
  intros filename. apply sanitize_clean, sanitize_filename_tokchars.
Qed.

Lemma sanitize_filename_idempotent_witness :
  sanitize_filename "Rift_Valley-fever" = "Rift_Valley-fever".
Proof. apply (proj1 sanitize_filename_idempotent). reflexivity. Defined.

(** ** [parse_accession_ids] *)

(** X3.  A group of tokens without hyphen is returned as it is written:
    every token verbatim, leading zeros included, in the order of the string,
    under the code of its marker. *)
Theorem plain_tokens_verbatim k ws toks segment :
  is_segcode k = true → str_forall is_space ws = true →
  Forall (λ t, is_plain_token t = true) toks → toks ≠ [] →
  keeps segment (String k EmptyString) = true →
  parse_accession_ids (String k (":" +:+ ws +:+ join_commas toks)) segment
  = Ok [(String k EmptyString, toks)].
Proof.
  intros Hk Hws Htoks Hne Hseg.
  rewrite parse_one_group, Hseg; try done.
  - rewrite parts_loop_plain; [done|].
    eapply Forall_impl; [exact Htoks|]. intros t Ht.
    by apply is_plain_token_inv in Ht as [_ ?].
  - eapply Forall_impl; [exact Htoks|]. intros t Ht.
    by apply is_plain_token_inv in Ht as [? _].
Qed.

Lemma plain_tokens_verbatim_witness :
  parse_accession_ids "S: MN007,NC_001802,AB12" "all"
  = Ok [("S", ["MN007"; "NC_001802"; "AB12"])].
Proof.
  apply (plain_tokens_verbatim "S" " " ["MN007"; "NC_001802"; "AB12"] "all");
    try reflexivity.
  - repeat constructor.
  - discriminate.
Defined.

(** X4.  A string without colon has no marker: the result is the empty
    dict, whatever the filter; so is the result for the empty string. *)
Theorem no_colon_no_groups accession_str segment :
  contains ":" accession_str = false →
  re_findall accession_re accession_str = []
  ∧ parse_accession_ids accession_str segment = Ok [].
Proof.
  intros H. assert (Hf : re_findall accession_re accession_str = []).
  { rewrite findall_scan. by apply scan_no_colon. }
  split; [exact Hf|]. unfold parse_accession_ids. by rewrite Hf.
Qed.

Lemma no_colon_no_groups_witness :
  re_findall accession_re "MN123456-MN123460, MN234567" = []
  ∧ parse_accession_ids "MN123456-MN123460, MN234567" "all" = Ok [].
Proof. apply no_colon_no_groups. reflexivity. Defined.

Lemma segcode_choice c :
  is_segcode c = true →
  String c EmptyString ∈ ["L"; "S"; "M"].
Proof.
  unfold is_segcode, is_char. intros H.
  destruct (Ascii.eqb_spec c "L"); [subst; by left|].
  destruct (Ascii.eqb_spec c "S"); [subst; by right; left|].
  destruct (Ascii.eqb_spec c "M"); [subst; by right; right; left|].
  done.
Qed.

Lemma marker_at_key prev s key grp rest :
  marker_at prev s = Some (key, grp, rest) →
  key ∈ ["L"; "S"; "M"].
Proof.
  unfold marker_at. destruct s as [|k [|c t]]; try done.
  destruct (is_segcode k) eqn:Hk; [|by rewrite andb_false_r].
  destruct (_ && _); [|done]. destruct (starts_with _ _); [|done].
  intros [= <- _ _]. by apply segcode_choice.
Qed.

Lemma scan_from_keys skip prev s key grp :
  (key, grp) ∈ scan_from skip prev s → key ∈ ["L"; "S"; "M"].
Proof.
  revert skip prev. induction s as [|c t IH]; intros skip prev H.
  - by apply elem_of_nil in H.
  - cbn [scan_from] in H. destruct skip as [|n]; [|by eapply IH].
    destruct (marker_at prev (String c t)) as [[[k g] r]|] eqn:E;
      [|by eapply IH].
    apply elem_of_cons in H as [[= -> ->]|H]; [|by eapply IH].
    by eapply marker_at_key.
Qed.

Lemma pairs_loop_key_origin id_pairs segment d d' k :
  pairs_loop id_pairs segment d = Ok d' →
  k ∈ d'.*1 → k ∈ d.*1 ∨ k ∈ id_pairs.*1.
Proof.
  revert d. induction id_pairs as [|[key grp] l IH]; intros d H Hk.
  - injection H as <-. by left.
  - cbn [pairs_loop] in H. cbn [fmap list_fmap fst].
    destruct (_ && _).
    + destruct (IH _ H Hk); [by left | by right; right].
    + destruct (parts_loop (split_on "," grp) []) as [ids|]; [|done].
      cbn [bind] in H. destruct (IH _ H Hk) as [Hin|?]; [|by right; right].
      apply dict_set_keys_in in Hin as [->|?]; [right; by left | by left].
Qed.

(** X5.  The keys of the result: each is one of L, S and M, no key comes
    twice, and with a filter other than [all] the only possible key is the
    requested segment. *)
Theorem result_keys accession_str segment acc_dict :
  parse_accession_ids accession_str segment = Ok acc_dict →
  NoDup acc_dict.*1
  ∧ (∀ k, k ∈ acc_dict.*1 → k ∈ ["L"; "S"; "M"])
  ∧ (segment ≠ "all" → ∀ k, k ∈ acc_dict.*1 → k = segment).
Proof.
  intros H. split; [by eapply parse_keys|]. split.
  - intros k Hk. unfold parse_accession_ids in H.
    destruct (pairs_loop_key_origin _ _ _ _ k H Hk) as [Hin|Hin];
      [by apply elem_of_nil in Hin|].
    apply list_elem_of_fmap in Hin as ([key grp] & -> & Hin).
    rewrite findall_scan in Hin. by eapply scan_from_keys.
  - intros Hall k Hk. by eapply parse_filtered.
Qed.

Lemma result_keys_witness :
  NoDup [("L", ["A1"])].*1
  ∧ (∀ k, k ∈ [("L", ["A1"])].*1 → k ∈ ["L"; "S"; "M"])
  ∧ ("L" ≠ "all" → ∀ k, k ∈ [("L", ["A1"])].*1 → k = "L").
Proof. apply (result_keys "L: A1; M: B2; X: C3" "L"). reflexivity. Defined.

Lemma split_on_length_pos sep s : (1 ≤ length (split_on sep s))%nat.
Proof.
  pose proof (split_on_nonempty sep s). destruct (split_on sep s); simpl; [done | lia].
Qed.

(** X6.  A part with two hyphens or more cannot be unpacked into START and
    END: [expand_part] raises [ValueError], and so does
    [parse_accession_ids] for a string that has such a part in a group the
    filter keeps. *)
Theorem two_hyphens_raise a b c :
  expand_part (a +:+ "-" +:+ b +:+ "-" +:+ c) = Raise ValueError
  ∧ (∀ accession_str segment key grp,
       (key, grp) ∈ re_findall accession_re accession_str →
       keeps segment key = true →
       (a +:+ "-" +:+ b +:+ "-" +:+ c) ∈ split_on "," grp →
       raises (parse_accession_ids accession_str segment) = true).
Proof.
  assert (H : expand_part (a +:+ "-" +:+ b +:+ "-" +:+ c) = Raise ValueError).
  { unfold expand_part.
    change (a +:+ "-" +:+ b +:+ "-" +:+ c)
      with (a +:+ String "-" (b +:+ String "-" c)).
    rewrite contains_app. cbn [contains]. rewrite Ascii.eqb_refl, orb_true_r.
    assert (Hl : (3 ≤ length (split_on "-"
                      (a +:+ String "-" (b +:+ String "-" c))))%nat).
    { rewrite !split_on_app, !length_app.
      pose proof (split_on_length_pos "-" a).
      pose proof (split_on_length_pos "-" b).
      pose proof (split_on_length_pos "-" c). lia. }
    destruct (split_on "-" (a +:+ String "-" (b +:+ String "-" c)))
      as [|x [|y [|z l]]]; simpl in Hl; try lia. reflexivity. }
  split; [exact H|].
  intros s segment key grp Hin Hk Hpart.
  eapply pairs_loop_raise; [exact Hin | exact Hk |].
  eapply parts_loop_raise; [exact Hpart|]. by rewrite H.
Qed.

Lemma two_hyphens_raise_witness :
  expand_part "A1-A3-A5" = Raise ValueError
  ∧ raises (parse_accession_ids "L: A1-A3-A5,B2" "all") = true.
Proof.
  destruct (two_hyphens_raise "A1" "A3" "A5") as [H1 H2].
  split; [exact H1|].
  apply (H2 "L: A1-A3-A5,B2" "all" "L" "A1-A3-A5,B2");
    [vm_compute; constructor | reflexivity | vm_compute; constructor].
Defined.

Lemma expand_no_start_number start end_ :
  str_forall is_word start = true → str_forall is_word end_ = true →
  ends_with is_digit start = false →
  expand_part (range_token start end_) = Raise AttributeError.
Proof.
  intros Hs He Hn. unfold expand_part.
  destruct (split_range_token start end_) as [-> ->]; try done.
  unfold re_search. rewrite !search_trailing_digits_from.
  by rewrite (trailing_digits_none start).
Qed.

(** X7.  A range part whose START or END does not end in a digit (the
    empty START of -5 included) raises [AttributeError], and
    [parse_accession_ids] raises for a string that has such a part in a
    group the filter keeps. *)
Theorem range_without_number_raises start end_ :
  str_forall is_word start = true → str_forall is_word end_ = true →
  ends_with is_digit start = false ∨ ends_with is_digit end_ = false →
  expand_part (range_token start end_) = Raise AttributeError
  ∧ (∀ accession_str segment key grp,
       (key, grp) ∈ re_findall accession_re accession_str →
       keeps segment key = true →
       range_token start end_ ∈ split_on "," grp →
       raises (parse_accession_ids accession_str segment) = true).
Proof.
  intros Hs He Hn.
  assert (H : expand_part (range_token start end_) = Raise AttributeError).
  { destruct Hn; [by apply expand_no_start_number
                 | by apply expand_no_end_number]. }
  split; [exact H|].
  intros s segment key grp Hin Hk Hpart.
  eapply pairs_loop_raise; [exact Hin | exact Hk |].
  eapply parts_loop_raise; [exact Hpart|]. by rewrite H.
Qed.

Lemma range_without_number_raises_witness :
  expand_part "-5" = Raise AttributeError
  ∧ raises (parse_accession_ids "M:-5" "M") = true.
Proof.
  destruct (range_without_number_raises "" "5") as [H1 H2];
    [reflexivity | reflexivity | by left |].
  split; [exact H1|].
  apply (H2 "M:-5" "M" "M" "-5");
    [vm_compute; constructor | reflexivity | vm_compute; constructor].
Defined.

Lemma py_range_length a b : length (py_range a b) = N.to_nat (b - a).
Proof. unfold py_range. by rewrite length_map, length_seq. Qed.

Lemma py_range_lookup a b i :
  (i < N.to_nat (b - a))%nat → py_range a b !! i = Some (a + N.of_nat i).
Proof.
  intros Hi. unfold py_range. rewrite list_lookup_fmap.
  by rewrite lookup_seq_lt.
Qed.

(** X8.  A range with START number [lo] not above END number [hi] is
    inclusive at both ends: it has [hi - lo + 1] identifiers, the one at
    index [i] is the prefix of START followed by [lo + i] in decimal, the
    first carries [lo] and the last carries [hi]. *)
Theorem range_inclusive p ds q de lo hi :
  is_prefix p = true → is_number ds = true →
  is_prefix q = true → is_number de = true →
  py_int ds = Ok lo → py_int de = Ok hi → lo <= hi →
  ∃ ids,
    expand_part (range_token (p +:+ ds) (q +:+ de)) = Ok ids
    ∧ N.of_nat (length ids) = hi - lo + 1
    ∧ (∀ i, (i < length ids)%nat →
         ids !! i = Some (p +:+ py_str (lo + N.of_nat i)))
    ∧ head ids = Some (p +:+ py_str lo)
    ∧ last ids = Some (p +:+ py_str hi).
Proof.
  intros Hp Hds Hq Hde Hlo Hhi Hle.
  eexists. split; [by apply expand_range_token|].
  assert (Hlen : length (map (λ num, p +:+ py_str num) (py_range lo (hi + 1)))
                 = N.to_nat (hi + 1 - lo)).
  { by rewrite length_map, py_range_length. }
  assert (Hnth : ∀ i, (i < N.to_nat (hi + 1 - lo))%nat →
            map (λ num, p +:+ py_str num) (py_range lo (hi + 1)) !! i
            = Some (p +:+ py_str (lo + N.of_nat i))).
  { intros i Hi. rewrite list_lookup_fmap, py_range_lookup by done. done. }
  rewrite Hlen. split; [lia|]. split; [exact Hnth|]. split.
  - rewrite head_lookup, Hnth by lia. by rewrite N.add_0_r.
  - rewrite last_lookup, Hlen, Hnth by lia. do 3 f_equal. lia.
Qed.

Lemma range_inclusive_witness :
  ∃ ids,
    expand_part "MN8-MN11" = Ok ids
    ∧ N.of_nat (length ids) = 11 - 8 + 1
    ∧ (∀ i, (i < length ids)%nat →
         ids !! i = Some ("MN" +:+ py_str (8 + N.of_nat i)))
    ∧ head ids = Some "MN8"
    ∧ last ids = Some "MN11".
Proof.
  apply (range_inclusive "MN" "8" "MN" "11" 8 11); try reflexivity. discriminate.
Defined.

(** ** [read_fasta_sequences] *)

(** X9.  The key of a record is its identifier up to the first dot: a
    version suffix is stripped, and so is everything after an earlier dot;
    an identifier without dot is its own key. *)
Theorem key_function_strips_version k rest seq :
  contains "." k = false →
  key_function (mkSeqRecord (k +:+ "." +:+ rest) seq) = k
  ∧ key_function (mkSeqRecord k seq) = k.
Proof.
  intros Hk. unfold key_function. cbn [rec_id]. split.
  - change ("." +:+ rest) with (String "." rest).
    by rewrite split_on_app, (split_on_absent _ _ Hk).
  - by rewrite (split_on_absent _ _ Hk).
Qed.

Lemma key_function_strips_version_witness :
  key_function (mkSeqRecord "NC_001802.1.2" "ACGT") = "NC_001802"
  ∧ key_function (mkSeqRecord "NC_001802" "ACGT") = "NC_001802".
Proof. apply (key_function_strips_version "NC_001802" "1.2"). reflexivity. Defined.

(** X10.  For an archive whose stripped identifiers are all different,
    [read_fasta_sequences] returns the records of the archive whose
    stripped identifier is among the accessions, each under that
    identifier, and nothing else. *)
Theorem read_fasta_sequences_selects fasta accessions :
  NoDup (key_function <$> fasta) →
  ∃ sequences,
    read_fasta_sequences fasta accessions = Ok sequences
    ∧ ∀ acc r, sequences !! acc = Some r
               ↔ acc ∈ accessions ∧ r ∈ fasta ∧ key_function r = acc.
Proof.
  intros Hnd. destruct (SeqIO_to_dict_unique fasta Hnd) as (records & Hrec & Hlk).
  destruct (read_fasta_sequences fasta accessions) as [sequences|] eqn:Hseq.
  2:{ unfold read_fasta_sequences in Hseq. by rewrite Hrec in Hseq. }
  exists sequences. split; [done|]. intros acc r.
  rewrite (read_fasta_lookup _ _ _ _ Hrec Hseq acc).
  case_decide as Hin.
  - rewrite Hlk. tauto.
  - split; [done | tauto].
Qed.

Lemma read_fasta_sequences_selects_witness :
  ∃ sequences,
    read_fasta_sequences
      [mkSeqRecord "MN1.1" "ACGT"; mkSeqRecord "MN2.1" "GGCC"] {["MN2"; "MN3"]}
    = Ok sequences
    ∧ ∀ acc r, sequences !! acc = Some r
               ↔ acc ∈ ({["MN2"; "MN3"]} : gset string)
                 ∧ r ∈ [mkSeqRecord "MN1.1" "ACGT"; mkSeqRecord "MN2.1" "GGCC"]
                 ∧ key_function r = acc.
Proof.
  apply read_fasta_sequences_selects. vm_compute.
  repeat constructor; intros H;
    repeat (apply elem_of_cons in H as [H|H]; [discriminate H|]);
    by apply elem_of_nil in H.
Defined.

(** ** [write_fasta_files] and [main] *)

Lemma path_join_relative a b :
  starts_with (is_char "/") b = false →
  path_join a b = folder_prefix a +:+ b.
Proof.
  intros Hb. unfold path_join, folder_prefix.
  destruct b as [|c b].
  - destruct a; [done|]. destruct (String.eqb _ _); [done|].
    by rewrite app_assoc_str.
  - simpl in Hb. unfold is_char in Hb.
    destruct (Ascii.eqb_spec c "/") as [->|Hne]; [done|].
    assert (H : ∀ X (x y : X),
              match c with
              | "/"%char => x | _ => y end = y).
    { intros X x y.
      destruct c as [[] [] [] [] [] [] [] []]; try reflexivity. by destruct Hne. }
    rewrite H. destruct a; [done|]. destruct (String.eqb _ _); [done|].
    by rewrite app_assoc_str.
Qed.

Lemma file_name_start r segment :
  starts_with (is_char "/") (file_name r segment) = false.
Proof.
  unfold file_name.
  pose proof (sanitize_filename_no_slash (Species r)) as Hs.
  destruct (sanitize_filename (Species r)) as [|c t]; [done|].
  rewrite app_cons. cbn [starts_with]. cbn [contains] in Hs.
  unfold is_char. by apply orb_false_iff in Hs as [-> _].
Qed.

(** X11.  The file of a row is named inside the output folder: the name
    built from the sanitized species and virus name never starts with a
    slash, so [os.path.join] keeps the folder; and for the segments that
    [--segment] admits the name has no slash at all. *)
Theorem group_path_in_folder output_folder segment r :
  group_path output_folder segment r
  = folder_prefix output_folder +:+ file_name r segment
  ∧ (segment ∈ segment_choices →
     contains "/" (file_name r segment) = false).
Proof.
  split.
  - unfold group_path. apply path_join_relative, file_name_start.
  - intros Hseg. unfold file_name.
    pose proof (sanitize_filename_no_slash (Species r)) as Hs.
    pose proof (sanitize_filename_no_slash (Virus_names r)) as Hv.
    rewrite !contains_app, Hs, Hv. cbn [orb].
    unfold segment_choices in Hseg.
    repeat (apply elem_of_cons in Hseg as [->|Hseg]; [reflexivity|]).
    by apply elem_of_nil in Hseg.
Qed.

Lemma group_path_in_folder_witness :
  group_path "out" "L" (mkRow "../etc/x y" "Foo/virus 1" "L: A1")
  = folder_prefix "out" +:+ file_name (mkRow "../etc/x y" "Foo/virus 1" "L: A1") "L"
  ∧ contains "/" (file_name (mkRow "../etc/x y" "Foo/virus 1" "L: A1") "L")
    = false.
Proof.
  destruct (group_path_in_folder "out" "L"
              (mkRow "../etc/x y" "Foo/virus 1" "L: A1")) as [H1 H2].
  split; [exact H1|]. apply H2. by left.
Defined.

Lemma write_groups_other fs records output_folder segment groups held file :
  Forall (λ g, file_of fs (group_path output_folder segment g.1) ≠ file) groups →
  write_groups fs records output_folder segment groups held !! file
  = held !! file.
Proof.
  intros H. revert held. induction H as [|g groups Hg _ IH]; intros held; [done|].
  cbn [write_groups foldl].
  fold (write_groups fs records output_folder segment groups).
  unfold write_groups in *. rewrite IH. by rewrite lookup_insert_ne.
Qed.

Lemma write_groups_app fs records output_folder segment g1 g2 held :
  write_groups fs records output_folder segment (g1 ++ g2) held
  = write_groups fs records output_folder segment g2
      (write_groups fs records output_folder segment g1 held).
Proof. unfold write_groups. by rewrite foldl_app. Qed.

Lemma zip_rows_forall (P : row → Prop) df (dicts : list (dict (list string))) :
  Forall P df → Forall (λ g, P g.1) (zip df dicts).
Proof.
  intros H. revert dicts. induction H as [|r df Hr _ IH]; intros [|d dicts];
    cbn [zip_with]; constructor; auto.
Qed.

(** X12.  Rows are written in order and a file is opened anew for each row:
    when the folder is there or can be made and the files can be opened,
    the file of a row holds after the run the group of that row, unless the
    path of a later row names the same file; what earlier rows wrote to
    that file is gone (overwritten, not merged). *)
Theorem last_row_of_a_name_wins df1 r df2 dicts1 d dicts2 fasta records
    output_folder segment fs :
  SeqIO_to_dict fasta = Ok records →
  Forall2 (parses_to segment) df1 dicts1 →
  parses_to segment r d →
  Forall2 (parses_to segment) df2 dicts2 →
  make_folder fs output_folder = Ok tt →
  Forall (λ r', open_error fs (group_path output_folder segment r') = None)
    (df1 ++ r :: df2) →
  Forall (λ r', file_of fs (group_path output_folder segment r')
                ≠ file_of fs (group_path output_folder segment r)) df2 →
  ∃ held,
    main (df1 ++ r :: df2) fasta output_folder segment fs = Ok held
    ∧ held !! file_of fs (group_path output_folder segment r)
      = Some (resolved records d).
Proof.
  intros Hrec H1 Hr H2 Hfolder Hopen Hother.
  assert (Hall : Forall2 (parses_to segment) (df1 ++ r :: df2)
                   (dicts1 ++ d :: dicts2)).
  { apply Forall2_app; [done|]. by constructor. }
  eexists. split; [by eapply main_writes_groups|].
  rewrite zip_with_app by (by eapply Forall2_length).
  rewrite write_groups_app. cbn [zip_with].
  change (write_groups fs records output_folder segment ((r, d) :: ?l) ?f)
    with (write_groups fs records output_folder segment l
            (<[file_of fs (group_path output_folder segment r)
                 := resolved records d]> f)).
  rewrite write_groups_other; [by rewrite lookup_insert_eq|].
  by apply (zip_rows_forall
              (λ r', file_of fs (group_path output_folder segment r')
                     ≠ file_of fs (group_path output_folder segment r))).
Qed.

Lemma last_row_of_a_name_wins_witness :
  ∃ held,
    main ([mkRow "Foo bar" "V" "L: MN1"] ++ mkRow "Foo  bar" "V" "L: MN2"
          :: [mkRow "Baz" "W" "L: MN1"])
      [mkSeqRecord "MN1.1" "ACGT"; mkSeqRecord "MN2.1" "GGCC"] "out" "all"
      (fresh_disk ∅)
    = Ok held
    ∧ held !! file_of (fresh_disk ∅)
                (group_path "out" "all" (mkRow "Foo  bar" "V" "L: MN2"))
      = Some (resolved
                (<["MN2" := mkSeqRecord "MN2.1" "GGCC"]>
                   (<["MN1" := mkSeqRecord "MN1.1" "ACGT"]> ∅))
                [("L", ["MN2"])]).
Proof.
  apply (last_row_of_a_name_wins
           [mkRow "Foo bar" "V" "L: MN1"] (mkRow "Foo  bar" "V" "L: MN2")
           [mkRow "Baz" "W" "L: MN1"]
           [[("L", ["MN1"])]] [("L", ["MN2"])] [[("L", ["MN1"])]]).
  - reflexivity.
  - repeat constructor.
  - reflexivity.
  - repeat constructor.
  - reflexivity.
  - repeat constructor.
  - repeat constructor. discriminate.
Defined.

(** X13.  A run touches the files of its rows only: when the folder is
    there or can be made and the files can be opened, the run succeeds, and
    a file that the path of no row names holds after the run what it held
    before. *)
Theorem other_files_untouched df dicts fasta records output_folder segment
    fs file :
  SeqIO_to_dict fasta = Ok records →
  Forall2 (parses_to segment) df dicts →
  make_folder fs output_folder = Ok tt →
  Forall (λ r, open_error fs (group_path output_folder segment r) = None) df →
  Forall (λ r, file_of fs (group_path output_folder segment r) ≠ file) df →
  ∃ held,
    main df fasta output_folder segment fs = Ok held
    ∧ held !! file = contents fs !! file.
Proof.
  intros Hrec Hparse Hfolder Hopen Hother.
  eexists. split; [by eapply main_writes_groups|].
  apply write_groups_other.
  by apply (zip_rows_forall
              (λ r, file_of fs (group_path output_folder segment r) ≠ file)).
Qed.

Lemma other_files_untouched_witness :
  ∃ held,
    main [mkRow "Foo bar" "V" "L: MN1"]
      [mkSeqRecord "MN1.1" "ACGT"] "out" "all"
      (fresh_disk (<["out/notes.txt" := []]> ∅))
    = Ok held
    ∧ held !! "out/notes.txt"
      = contents (fresh_disk (<["out/notes.txt" := []]> ∅)) !! "out/notes.txt".
Proof.
  apply (other_files_untouched [mkRow "Foo bar" "V" "L: MN1"]
           [[("L", ["MN1"])]] _
           (<["MN1" := mkSeqRecord "MN1.1" "ACGT"]> ∅)).
  - reflexivity.
  - repeat constructor.
  - reflexivity.
  - repeat constructor.
  - repeat constructor. discriminate.
Defined.

Lemma collect_accessions_raise df segment r :
  r ∈ df →
  raises (parse_accession_ids (Virus_GENBANK_accession r) segment) = true →
  raises (collect_accessions df segment) = true.
Proof.
  intros Hin Hr. induction df as [|x df IH]; [by apply elem_of_nil in Hin|].
  cbn [collect_accessions]. apply elem_of_cons in Hin as [<-|Hin].
  - by destruct (parse_accession_ids _ _).
  - destruct (parse_accession_ids (Virus_GENBANK_accession x) segment); [|done].
    cbn [bind]. specialize (IH Hin).
    by destruct (collect_accessions df segment).
Qed.

(** X14.  One row that does not parse aborts the whole run, and does so in
    the set comprehension of [main], before the archive is read and before
    any file is written: [main] raises what the comprehension raises,
    whatever the archive and the other rows are. *)
Theorem bad_row_aborts_run df segment r :
  r ∈ df →
  raises (parse_accession_ids (Virus_GENBANK_accession r) segment) = true →
  ∃ e, collect_accessions df segment = Raise e
       ∧ ∀ fasta output_folder fs,
           main df fasta output_folder segment fs = Raise e.
Proof.
  intros Hin Hr. pose proof (collect_accessions_raise df segment r Hin Hr) as H.
  destruct (collect_accessions df segment) as [?|e] eqn:E; [done|].
  exists e. split; [done|]. intros fasta output_folder fs.
  unfold main. by rewrite E.
Qed.

Lemma bad_row_aborts_run_witness :
  ∃ e, collect_accessions
         [mkRow "Foo" "V" "L: MN1"; mkRow "Bar" "W" "L: MN5-MNX"] "all"
       = Raise e
       ∧ ∀ fasta output_folder fs,
           main [mkRow "Foo" "V" "L: MN1"; mkRow "Bar" "W" "L: MN5-MNX"]
             fasta output_folder "all" fs = Raise e.
Proof.
  apply (bad_row_aborts_run _ "all" (mkRow "Bar" "W" "L: MN5-MNX")).
  - right. left.
  - reflexivity.
Defined.

(** X15.  When the rows parse and two records of the archive have the same
    stripped identifier, the run fails with [ValueError] and writes
    nothing, even if no row asks for that identifier. *)
Theorem duplicate_in_archive_aborts_run df dicts fasta i j r1 r2
    output_folder segment fs :
  Forall2 (parses_to segment) df dicts →
  (i < j)%nat → fasta !! i = Some r1 → fasta !! j = Some r2 →
  key_function r1 = key_function r2 →
  main df fasta output_folder segment fs = Raise ValueError.
Proof.
  intros Hparse Hij Hi Hj Hk. unfold main.
  destruct (collect_accessions_spec segment df dicts Hparse)
    as (accessions & -> & _).
  cbn [bind]. unfold read_fasta_sequences, SeqIO_to_dict.
  by rewrite (to_dict_loop_duplicate fasta ∅ i j r1 r2).
Qed.

Lemma duplicate_in_archive_aborts_run_witness :
  main [mkRow "Foo" "V" "L: MN1"]
    [mkSeqRecord "MN1.1" "ACGT"; mkSeqRecord "XX9.1" "GG";
     mkSeqRecord "XX9.2" "GG"] "out" "all" (fresh_disk ∅)
  = Raise ValueError.
Proof.
  apply (duplicate_in_archive_aborts_run _ [[("L", ["MN1"])]] _ 1%nat 2%nat
           (mkSeqRecord "XX9.1" "GG") (mkSeqRecord "XX9.2" "GG"));
    [repeat constructor | lia | reflexivity..].
Defined.

Lemma to_dict_loop_ok_nodup l d d' :
  to_dict_loop l d = Ok d' → NoDup (key_function <$> l).
Proof.
  intros H. apply NoDup_alt. intros i j k Hi Hj.
  apply list_lookup_fmap_Some in Hi as (r1 & -> & Hr1).
  apply list_lookup_fmap_Some in Hj as (r2 & Hk & Hr2).
  destruct (decide (i = j)) as [|Hne]; [done|]. exfalso.
  destruct (decide (i < j)%nat).
  - by rewrite (to_dict_loop_duplicate l d i j r1 r2) in H.
  - rewrite (to_dict_loop_duplicate l d j i r2 r1) in H; [done | lia | done..].
Qed.

(** X16.  What is written for a row comes from the archive: the file holds
    only records of the archive whose stripped identifier is one of the
    identifiers of the row, every such record is in it, and it holds no
    more records than the row has identifiers. *)
Theorem written_records_from_archive accession_str segment acc_dict fasta
    accessions sequences :
  parse_accession_ids accession_str segment = Ok acc_dict →
  read_fasta_sequences fasta accessions = Ok sequences →
  (∀ acc, acc ∈ row_ids acc_dict → acc ∈ accessions) →
  ∃ f,
    write_keys acc_dict.*1 acc_dict sequences [] = Ok f
    ∧ (∀ r, r ∈ f ↔ r ∈ fasta ∧ key_function r ∈ row_ids acc_dict)
    ∧ (length f ≤ length (row_ids acc_dict))%nat.
Proof.
  intros Hparse Hseq Hsub.
  exists (resolved sequences acc_dict).
  split; [by eapply write_group_spec|].
  assert (∃ records, SeqIO_to_dict fasta = Ok records) as [records Hrec].
  { unfold read_fasta_sequences in Hseq.
    destruct (SeqIO_to_dict fasta) as [records|]; [by eexists | done]. }
  destruct (SeqIO_to_dict_unique fasta) as (records' & Hrec' & Hlk).
  { by eapply to_dict_loop_ok_nodup. }
  rewrite Hrec in Hrec'. injection Hrec' as <-.
  split.
  - intros r. rewrite resolved_elem. split.
    + intros (acc & Hacc & Hr).
      rewrite (read_fasta_lookup _ _ _ _ Hrec Hseq acc) in Hr.
      case_decide; [|done]. apply Hlk in Hr as [Hin <-]. done.
    + intros [Hin Hk]. exists (key_function r). split; [done|].
      rewrite (read_fasta_lookup _ _ _ _ Hrec Hseq).
      rewrite decide_True by by apply Hsub. by apply Hlk.
  - unfold resolved. generalize (row_ids acc_dict). intros ids.
    induction ids as [|acc ids IH]; [done|].
    cbn [omap list_omap]. fold (omap (M := list) (λ acc, sequences !! acc) ids).
    destruct (sequences !! acc); simpl; lia.
Qed.

Lemma written_records_from_archive_witness :
  ∃ f,
    write_keys [("L", ["MN1"; "MN2"; "MN3"])].*1 [("L", ["MN1"; "MN2"; "MN3"])]
      (<["MN3" := mkSeqRecord "MN3.2" "TT"]>
         (<["MN1" := mkSeqRecord "MN1.1" "ACGT"]> ∅)) []
    = Ok f
    ∧ (∀ r, r ∈ f ↔ r ∈ [mkSeqRecord "MN1.1" "ACGT"; mkSeqRecord "MN3.2" "TT";
                          mkSeqRecord "ZZ7.1" "GG"]
                    ∧ key_function r ∈ row_ids [("L", ["MN1"; "MN2"; "MN3"])])
    ∧ (length f ≤ length (row_ids [("L", ["MN1"; "MN2"; "MN3"])]))%nat.
Proof.
  apply (written_records_from_archive "L: MN1-MN3" "all" _ _
           {["MN1"; "MN2"; "MN3"]}).
  - reflexivity.
  - vm_compute. reflexivity.
  - intros acc H. vm_compute in H.
    repeat (apply elem_of_cons in H as [->|H]; [set_solver|]).
    by apply elem_of_nil in H.
Defined.

(** ** Where a marker is recognised *)

Lemma marker_text_no_colon ws toks :
  str_forall is_space ws = true →
  Forall (λ t, is_token t = true) toks →
  contains ":" (ws +:+ join_commas toks) = false.
Proof.
  intros Hws Htoks. rewrite contains_app. apply orb_false_iff. split.
  - by eapply str_forall_absent; [|exact Hws].
  - eapply (str_forall_absent (λ c, is_tokchar c || is_char "," c));
      [done|]. apply str_forall_join; [done | done |].
    by intros c ->.
Qed.

(** X17.  A marker counts only at a word boundary.  After a text without
    colon that ends in a word character, a segment code with its colon and
    tokens is no marker and the result is empty; after a text that is empty
    or ends in another character, it is one, and its tokens are the
    group. *)
Theorem marker_needs_word_boundary x k ws toks segment :
  contains ":" x = false →
  is_segcode k = true → str_forall is_space ws = true →
  Forall (λ t, is_token t = true) toks → toks ≠ [] →
  let marker := String k (":" +:+ ws +:+ join_commas toks) in
  (ends_with is_word x = true →
   re_findall accession_re (x +:+ marker) = []
   ∧ parse_accession_ids (x +:+ marker) segment = Ok [])
  ∧ (ends_with is_word x = false →
     re_findall accession_re (x +:+ marker)
     = [(String k EmptyString, join_commas toks)]).
Proof.
  intros Hx Hk Hws Htoks Hne marker.
  assert (Hscan : re_findall accession_re (x +:+ marker)
                  = scan_from 0 (last_char None x) marker).
  { rewrite findall_scan. apply scan_prefix_no_colon; [done|].
    unfold marker, is_char. cbn [starts_with].
    destruct (Ascii.eqb_spec k ":"); [by subst|done]. }
  split.
  - intros Hw.
    assert (Hf : re_findall accession_re (x +:+ marker) = []).
    { rewrite Hscan. unfold marker. cbn [scan_from].
      replace (marker_at (last_char None x)
                 (String k (":" +:+ ws +:+ join_commas toks)))
        with (@None (string * string * string)).
      - change (":" +:+ ?y) with (String ":" y). cbn [scan_from marker_at].
        replace (is_segcode ":") with false by reflexivity.
        rewrite andb_false_r.
        destruct (ws +:+ join_commas toks) eqn:E; [done|]. rewrite <- E.
        cbn [andb]. apply scan_no_colon. by apply marker_text_no_colon.
      - unfold marker_at. change (":" +:+ ?y) with (String ":" y).
        by rewrite word_before_last_char, Hw. }
    split; [exact Hf|]. unfold parse_accession_ids. by rewrite Hf.
  - intros Hw. rewrite Hscan. unfold marker.
    rewrite <- (app_empty_r (join_commas toks)) at 1.
    rewrite scan_group; try done. by rewrite word_before_last_char.
Qed.

Lemma marker_needs_word_boundary_witness :
  (re_findall accession_re "segL: A1,B2" = []
   ∧ parse_accession_ids "segL: A1,B2" "all" = Ok [])
  ∧ re_findall accession_re "seg-L: A1,B2" = [("L", "A1,B2")].
Proof.
  split.
  - apply (marker_needs_word_boundary "seg" "L" " " ["A1"; "B2"] "all");
      try reflexivity; [repeat constructor | discriminate].
  - apply (marker_needs_word_boundary "seg-" "L" " " ["A1"; "B2"] "all");
      try reflexivity; [repeat constructor | discriminate].
Defined.

(** ** A whole accession cell *)

Lemma scan_accession_text groups prev :
  Forall well_formed_group groups → word_before prev = false →
  scan_from 0 prev (accession_text groups) = group_pair <$> groups.
Proof.
  intros H. revert prev. induction H as [|[[k ws] toks] gs Hg Hgs IH];
    intros prev Hprev; [done|].
  destruct Hg as (Hk & Hws & Htoks & Hne).
  destruct gs as [|g' gs'].
  - cbn [accession_text marker_text fmap list_fmap group_pair].
    rewrite <- (app_empty_r (join_commas toks)) at 1.
    rewrite scan_group by done. by destruct (last_char _ _).
  - change (accession_text (?g :: g' :: gs'))
      with (marker_text g +:+ "; " +:+ accession_text (g' :: gs')).
    cbn [marker_text]. rewrite app_cons, !app_assoc_str.
    rewrite scan_group by done.
    cbn [fmap list_fmap group_pair]. f_equal.
    rewrite (scan_prefix_no_colon "; ").
    + apply IH. reflexivity.
    + reflexivity.
    + destruct g' as [[k' ws'] toks']. inversion Hgs as [|? ? Hg' _]; subst.
      destruct Hg' as (Hk' & _). destruct gs'; cbn [accession_text marker_text];
        rewrite ?app_cons; cbn [starts_with]; unfold is_char;
        (destruct (Ascii.eqb_spec k' ":"); [by subst | done]).
Qed.

Lemma pairs_loop_fresh id_pairs d idss :
  NoDup (d.*1 ++ id_pairs.*1) →
  Forall2 (λ p ids, parts_loop (split_on "," p.2) [] = Ok ids) id_pairs idss →
  pairs_loop id_pairs "all" d = Ok (d ++ zip id_pairs.*1 idss).
Proof.
  intros Hnd H. revert d Hnd. induction H as [|[k g] ids l idss Hp _ IH];
    intros d Hnd.
  - by rewrite app_nil_r.
  - cbn [pairs_loop]. rewrite String.eqb_refl. cbn [negb andb].
    cbn [snd] in Hp. rewrite Hp. cbn [bind].
    assert (Hset : dict_set k ids d = d ++ [(k, ids)]).
    { cbn [fmap list_fmap fst] in Hnd.
      apply NoDup_app in Hnd as (_ & Hk & _).
      assert (Hk' : k ∉ d.*1).
      { intros Hin. apply (Hk k Hin). by left. }
      clear -Hk'. induction d as [|[k' v'] d IH]; [done|].
      cbn [dict_set]. cbn [fmap list_fmap fst] in Hk'.
      apply not_elem_of_cons in Hk' as [Hne Hk'].
      destruct (String.eqb_spec k' k); [congruence|]. by rewrite IH. }
    rewrite Hset, IH.
    + cbn [fmap list_fmap fst zip_with]. by rewrite <- app_assoc.
    + rewrite fmap_app. cbn [fmap list_fmap fst] in *.
      by rewrite <- app_assoc.
Qed.

(** X18.  An accession cell written as markers with a semicolon and a space
    between them is read back group by group: [re.findall] gives the code
    and the token list of every marker in order; and when no code comes
    twice and the tokens have no hyphen, the result for the filter [all]
    maps each code to its tokens, in the order of the cell. *)
Theorem accession_cell_read_back groups :
  Forall well_formed_group groups →
  re_findall accession_re (accession_text groups) = group_pair <$> groups
  ∧ (NoDup (groups.*1.*1) →
     Forall (λ g, Forall (λ t, contains "-" t = false) g.2) groups →
     parse_accession_ids (accession_text groups) "all"
     = Ok ((λ g, (String g.1.1 EmptyString, g.2)) <$> groups)).
Proof.
  intros H.
  assert (Hf : re_findall accession_re (accession_text groups)
               = group_pair <$> groups).
  { rewrite findall_scan. by apply scan_accession_text. }
  split; [exact Hf|]. intros Hnd Hplain.
  unfold parse_accession_ids. rewrite Hf.
  rewrite (pairs_loop_fresh _ [] (snd <$> groups)).
  - cbn [app]. f_equal. clear. induction groups as [|[[k ws] toks] gs IH]; [done|].
    cbn [fmap list_fmap group_pair fst snd zip_with]. by rewrite <- IH.
  - cbn [app]. clear -Hnd.
    assert (Hinj : ∀ gs : list (ascii * string * list string),
              (group_pair <$> gs).*1
              = (λ c, String c EmptyString) <$> gs.*1.*1).
    { induction gs as [|[[k ws] toks] gs IH]; [done|].
      cbn [fmap list_fmap group_pair fst]. by rewrite <- IH. }
    rewrite Hinj. apply NoDup_fmap_2; [|done]. by intros c1 c2 [= ->].
  - clear -H Hplain. induction H as [|[[k ws] toks] gs Hg _ IH]; [constructor|].
    inversion Hplain as [|? ? Hp Hps]; subst.
    cbn [fmap list_fmap group_pair snd]. constructor; [|by apply IH].
    destruct Hg as (_ & _ & Htoks & Hne). cbn [snd] in *.
    rewrite split_join_commas by done. by rewrite parts_loop_plain.
Qed.

Lemma accession_cell_read_back_witness :
  re_findall accession_re "L: KM1,KM2; M:KM3; S: KM4"
  = [("L", "KM1,KM2"); ("M", "KM3"); ("S", "KM4")]
  ∧ parse_accession_ids "L: KM1,KM2; M:KM3; S: KM4" "all"
    = Ok [("L", ["KM1"; "KM2"]); ("M", ["KM3"]); ("S", ["KM4"])].
Proof.
  destruct (accession_cell_read_back
              [("L"%char, " ", ["KM1"; "KM2"]); ("M"%char, "", ["KM3"]);
               ("S"%char, " ", ["KM4"])]) as [H1 H2].
  { repeat constructor; discriminate. }
  split; [exact H1|]. apply H2.
  - vm_compute. repeat constructor; intros H;
      repeat (apply elem_of_cons in H as [H|H]; [discriminate H|]);
      by apply elem_of_nil in H.
  - repeat constructor.
Defined.

(** * Properties of the segment filter of [extract_data_from_excel] *)

Lemma str_in_tail sub c s : str_in sub s = true → str_in sub (String c s) = true.
Proof. intros H. cbn [str_in]. by rewrite H, orb_true_r. Qed.

Lemma marker_at_text prev s key grp rest :
  marker_at prev s = Some (key, grp, rest) →
  String.prefix (key +:+ ":") s = true.
Proof.
  unfold marker_at. destruct s as [|k [|c t]]; try done.
  destruct (negb _ && _ && is_char ":" c) eqn:E; [|done].
  destruct (starts_with _ _); [|done]. intros [= <- _ _].
  apply andb_true_iff in E as [_ Hc]. unfold is_char in Hc.
  apply Ascii.eqb_eq in Hc as ->. rewrite app_cons, app_empty_l.
  cbn [String.prefix]. destruct (ascii_dec k k); [|done].
  destruct (ascii_dec ":" ":"); [|done]. by destruct t.
Qed.

Lemma scan_from_text skip prev s key grp :
  (key, grp) ∈ scan_from skip prev s → str_in (key +:+ ":") s = true.
Proof.
  revert skip prev. induction s as [|c t IH]; intros skip prev H.
  - by apply elem_of_nil in H.
  - cbn [scan_from] in H.
    destruct skip as [|n]; [|by eapply str_in_tail, IH].
    destruct (marker_at prev (String c t)) as [[[k g] r]|] eqn:E;
      [|by eapply str_in_tail, IH].
    apply elem_of_cons in H as [[= -> ->]|H]; [|by eapply str_in_tail, IH].
    cbn [str_in]. by rewrite (marker_at_text _ _ _ _ _ E).
Qed.

(** X23.  The segment filter of [extract_data_from_excel] drops no row
    that has something for the segment: a row for which
    [parse_accession_ids] returns a key is kept, for each segment that
    [--segment] admits. *)
Theorem segment_rows_keep_parsed df segment r acc_dict :
  segment ∈ segment_choices →
  r ∈ df →
  parse_accession_ids (Virus_GENBANK_accession r) segment = Ok acc_dict →
  acc_dict ≠ [] →
  r ∈ segment_rows df segment.
Proof.
  intros Hseg Hin Hparse Hne. unfold segment_rows.
  destruct (String.eqb_spec segment "all") as [->|Hall]; [done|].
  cbn [negb]. apply list_elem_of_In, filter_In. split; [by apply list_elem_of_In|].
  destruct acc_dict as [|[k ids] d]; [done|].
  assert (Hk : k ∈ ((k, ids) :: d).*1) by (by left).
  pose proof (parse_filtered _ _ _ _ Hall Hparse Hk) as ->.
  unfold parse_accession_ids in Hparse.
  destruct (pairs_loop_key_origin _ _ _ _ _ Hparse Hk) as [H|H];
    [by apply elem_of_nil in H|].
  apply list_elem_of_fmap in H as ([key grp] & -> & H).
  rewrite findall_scan in H. by eapply scan_from_text.
Qed.

Lemma segment_rows_keep_parsed_witness :
  mkRow "Foo" "V" "S: AB1; M: AB2-AB3"
  ∈ segment_rows [mkRow "Bar" "W" "L: AB9"; mkRow "Foo" "V" "S: AB1; M: AB2-AB3"]
      "M".
Proof.
  apply (segment_rows_keep_parsed _ "M" _ [("M", ["AB2"; "AB3"])]).
  - right. left.
  - right. left.
  - reflexivity.
  - discriminate.
Defined.

(** * Properties of [extract_string_fasta.py] *)

Lemma prefix_empty s : String.prefix EmptyString s = true.
Proof. by destruct s. Qed.

Lemma str_in_empty s : str_in EmptyString s = true.
Proof. destruct s; cbn [str_in]; by rewrite ?prefix_empty. Qed.

Lemma filter_all {A} (p : A → bool) l :
  (∀ x, p x = true) → List.filter p l = l.
Proof.
  intros H. induction l as [|x l IH]; [done|]. simpl. by rewrite H, IH.
Qed.

Lemma existsb_elem {A} (p : A → bool) l x :
  x ∈ l → p x = true → existsb p l = true.
Proof.
  intros Hin Hp. apply existsb_exists. exists x. split; [|done].
  by apply list_elem_of_In.
Qed.

(** X24.  An empty search term matches every record: when the list of
    search strings is empty, starts or ends with a comma, or has two commas
    in a row, the whole archive is written to the output file. *)
Theorem empty_term_selects_all fasta search_strings output_file fs :
  EmptyString ∈ split_on "," search_strings →
  ExtractString.sequences_found fasta search_strings = fasta
  ∧ (fasta ≠ [] →
     ExtractString.filter_sequences fasta search_strings output_file fs
     = <[output_file := fasta]> fs).
Proof.
  intros H.
  assert (Hf : ExtractString.sequences_found fasta search_strings = fasta).
  { unfold ExtractString.sequences_found. apply filter_all. intros r.
    unfold ExtractString.matches. eapply existsb_elem; [exact H|].
    apply str_in_empty. }
  split; [exact Hf|]. intros Hne. unfold ExtractString.filter_sequences.
  rewrite Hf. by destruct fasta.
Qed.

Lemma empty_term_selects_all_witness :
  ExtractString.sequences_found
    [ExtractString.mkFastaRecord "MN1.1 Hantaan virus" "ACGT";
     ExtractString.mkFastaRecord "MN2.1 Puumala virus" "GGCC"] "capsid,"
  = [ExtractString.mkFastaRecord "MN1.1 Hantaan virus" "ACGT";
     ExtractString.mkFastaRecord "MN2.1 Puumala virus" "GGCC"]
  ∧ ([ExtractString.mkFastaRecord "MN1.1 Hantaan virus" "ACGT";
      ExtractString.mkFastaRecord "MN2.1 Puumala virus" "GGCC"] ≠ [] →
     ExtractString.filter_sequences
       [ExtractString.mkFastaRecord "MN1.1 Hantaan virus" "ACGT";
        ExtractString.mkFastaRecord "MN2.1 Puumala virus" "GGCC"]
       "capsid," "out.fasta" ∅
     = <["out.fasta" :=
           [ExtractString.mkFastaRecord "MN1.1 Hantaan virus" "ACGT";
            ExtractString.mkFastaRecord "MN2.1 Puumala virus" "GGCC"]]> ∅).
Proof.
  apply (empty_term_selects_all _ "capsid,"). right. left.
Defined.

Lemma lower_char_comma c :
  Ascii.eqb (ExtractString.lower_char c) "," = Ascii.eqb c ",".
Proof. by_char_cases c. Qed.

Lemma lower_split s :
  split_on "," (ExtractString.lower s) = ExtractString.lower <$> split_on "," s.
Proof.
  induction s as [|c t IH]; [done|].
  cbn [ExtractString.lower split_on]. rewrite lower_char_comma, IH.
  destruct (Ascii.eqb c ","); [done|].
  pose proof (split_on_nonempty "," t). by destruct (split_on "," t).
Qed.

Lemma lower_char_idem c :
  ExtractString.lower_char (ExtractString.lower_char c)
  = ExtractString.lower_char c.
Proof. by_char_cases c. Qed.

Lemma lower_idem s :
  ExtractString.lower (ExtractString.lower s) = ExtractString.lower s.
Proof.
  induction s as [|c t IH]; [done|].
  cbn [ExtractString.lower]. by rewrite lower_char_idem, IH.
Qed.

Lemma matches_lower terms1 terms2 r :
  ExtractString.lower <$> terms1 = ExtractString.lower <$> terms2 →
  ExtractString.matches terms1 r = ExtractString.matches terms2 r.
Proof.
  unfold ExtractString.matches. revert terms2.
  induction terms1 as [|t1 l1 IH]; intros [|t2 l2] H; try done.
  injection H as Ht Hl. cbn [existsb]. by rewrite Ht, (IH _ Hl).
Qed.

(** X25.  The search ignores the case of the search strings: two lists of
    search strings that are the same after [lower] select the same
    records, and so do a list and its lower-case form. *)
Theorem search_ignores_case fasta search1 search2 output_file fs :
  ExtractString.lower search1 = ExtractString.lower search2 →
  ExtractString.sequences_found fasta search1
  = ExtractString.sequences_found fasta search2
  ∧ ExtractString.filter_sequences fasta search1 output_file fs
    = ExtractString.filter_sequences fasta search2 output_file fs
  ∧ ExtractString.sequences_found fasta (ExtractString.lower search1)
    = ExtractString.sequences_found fasta search1.
Proof.
  intros H.
  assert (Hf : ∀ s1 s2, ExtractString.lower s1 = ExtractString.lower s2 →
            ExtractString.sequences_found fasta s1
            = ExtractString.sequences_found fasta s2).
  { intros s1 s2 Hs. unfold ExtractString.sequences_found.
    apply filter_ext. intros r. apply matches_lower.
    by rewrite <- !lower_split, Hs. }
  split; [by apply Hf|]. split.
  - unfold ExtractString.filter_sequences. by rewrite (Hf _ _ H).
  - apply Hf, lower_idem.
Qed.

Lemma search_ignores_case_witness :
  ExtractString.sequences_found
    [ExtractString.mkFastaRecord "MN1.1 Hantaan virus" "ACGT"] "HANTAAN,x"
  = ExtractString.sequences_found
      [ExtractString.mkFastaRecord "MN1.1 Hantaan virus" "ACGT"] "hantaan,X"
  ∧ ExtractString.filter_sequences
      [ExtractString.mkFastaRecord "MN1.1 Hantaan virus" "ACGT"] "HANTAAN,x"
      "out.fasta" ∅
    = ExtractString.filter_sequences
        [ExtractString.mkFastaRecord "MN1.1 Hantaan virus" "ACGT"] "hantaan,X"
        "out.fasta" ∅
  ∧ ExtractString.sequences_found
      [ExtractString.mkFastaRecord "MN1.1 Hantaan virus" "ACGT"]
      (ExtractString.lower "HANTAAN,x")
    = ExtractString.sequences_found
        [ExtractString.mkFastaRecord "MN1.1 Hantaan virus" "ACGT"] "HANTAAN,x".
Proof. apply (search_ignores_case _ "HANTAAN,x" "hantaan,X"). reflexivity. Defined.

(** X26.  Search strings add up: the records found for two lists joined
    by a comma are the records found for the one or for the other, and
    they come in the order of the archive. *)
Theorem search_terms_add_up fasta search1 search2 :
  ExtractString.sequences_found fasta (search1 +:+ "," +:+ search2)
  = List.filter
      (λ r, ExtractString.matches (split_on "," search1) r
            || ExtractString.matches (split_on "," search2) r) fasta
  ∧ ∀ r, r ∈ ExtractString.sequences_found fasta (search1 +:+ "," +:+ search2)
         ↔ r ∈ ExtractString.sequences_found fasta search1
           ∨ r ∈ ExtractString.sequences_found fasta search2.
Proof.
  assert (H : ExtractString.sequences_found fasta (search1 +:+ "," +:+ search2)
              = List.filter
                  (λ r, ExtractString.matches (split_on "," search1) r
                        || ExtractString.matches (split_on "," search2) r)
                  fasta).
  { unfold ExtractString.sequences_found.
    change ("," +:+ search2) with (String "," search2).
    rewrite split_on_app. apply filter_ext. intros r.
    unfold ExtractString.matches. apply existsb_app. }
  split; [exact H|]. intros r. rewrite H.
  unfold ExtractString.sequences_found.
  rewrite !list_elem_of_In, !filter_In, orb_true_iff. tauto.
Qed.

(** * Properties of [parse_acc.py] *)

Lemma lstrip_spaces ws s :
  str_forall is_space ws = true →
  ParseAcc.lstrip (ws +:+ s) = ParseAcc.lstrip s.
Proof.
  induction ws as [|c ws IH]; [done|]. cbn [str_forall].
  intros [Hc Hws]%andb_true_iff. rewrite app_cons. cbn [ParseAcc.lstrip].
  rewrite Hc. by apply IH.
Qed.

Lemma lstrip_start s :
  starts_with is_space s = false → ParseAcc.lstrip s = s.
Proof. destruct s as [|c t]; [done|]. simpl. by intros ->. Qed.

Lemma rstrip_all_spaces ws :
  str_forall is_space ws = true → ParseAcc.rstrip ws = EmptyString.
Proof.
  induction ws as [|c ws IH]; [done|]. cbn [str_forall].
  intros [Hc Hws]%andb_true_iff. cbn [ParseAcc.rstrip].
  by rewrite (IH Hws), Hc.
Qed.

Lemma rstrip_end s :
  ends_with is_space s = false → ParseAcc.rstrip s = s.
Proof.
  induction s as [|c t IH]; [done|]. intros H. cbn [ParseAcc.rstrip].
  destruct t as [|d t'].
  - simpl in *. by rewrite H.
  - rewrite IH by exact H. done.
Qed.

Lemma rstrip_app_keep s t :
  ParseAcc.rstrip t ≠ EmptyString →
  ParseAcc.rstrip (s +:+ t) = s +:+ ParseAcc.rstrip t.
Proof.
  intros Ht. induction s as [|c s IH]; [done|].
  rewrite !app_cons. cbn [ParseAcc.rstrip]. rewrite IH.
  destruct (s +:+ ParseAcc.rstrip t) eqn:E; [|done].
  destruct s; [|done]. by rewrite app_empty_l in E.
Qed.

Lemma rstrip_spaces s ws :
  str_forall is_space ws = true →
  ParseAcc.rstrip (s +:+ ws) = ParseAcc.rstrip s.
Proof.
  intros Hws. induction s as [|c s IH].
  - rewrite app_empty_l. by apply rstrip_all_spaces.
  - rewrite app_cons. cbn [ParseAcc.rstrip]. by rewrite IH.
Qed.

(** [strip] takes away the whitespace around a text that neither starts
    nor ends with whitespace. *)
Lemma strip_core ws1 core ws2 :
  str_forall is_space ws1 = true → str_forall is_space ws2 = true →
  starts_with is_space core = false → ends_with is_space core = false →
  ParseAcc.strip (ws1 +:+ core +:+ ws2) = core.
Proof.
  intros H1 H2 Hs He. unfold ParseAcc.strip.
  rewrite lstrip_spaces by done.
  destruct core as [|c core'].
  - rewrite app_empty_l.
    replace (ParseAcc.lstrip ws2) with EmptyString; [done|].
    clear -H2. induction ws2 as [|c ws IH]; [done|]. simpl in *.
    apply andb_true_iff in H2 as [-> H2]. by apply IH.
  - rewrite lstrip_start by (rewrite app_cons; exact Hs).
    rewrite rstrip_spaces by done. by apply rstrip_end.
Qed.

Lemma colon_not_space : is_space ":" = false.
Proof. reflexivity. Qed.

Lemma lstrip_colon a b :
  contains ":" a = false →
  ParseAcc.lstrip (a +:+ String ":" b) = ParseAcc.lstrip a +:+ String ":" b.
Proof.
  induction a as [|c a IH]; [done|]. cbn [contains].
  intros [_ Ha]%orb_false_iff. rewrite app_cons. cbn [ParseAcc.lstrip].
  destruct (is_space c); [by apply IH | by rewrite app_cons].
Qed.

Lemma rstrip_colon a b :
  ParseAcc.rstrip (a +:+ String ":" b) = a +:+ String ":" (ParseAcc.rstrip b).
Proof.
  change (String ":" ?x) with (":" +:+ x). rewrite <- !app_assoc_str.
  destruct (ParseAcc.rstrip b) as [|c r] eqn:E.
  - assert (Hb : ParseAcc.rstrip (String ":" b) = ":").
    { cbn [ParseAcc.rstrip]. by rewrite E. }
    rewrite app_assoc_str. change (":" +:+ b) with (String ":" b).
    rewrite rstrip_app_keep; [by rewrite Hb, app_empty_r|]. by rewrite Hb.
  - rewrite app_assoc_str. change (":" +:+ b) with (String ":" b).
    rewrite rstrip_app_keep.
    + cbn [ParseAcc.rstrip]. rewrite E. by rewrite app_assoc_str.
    + cbn [ParseAcc.rstrip]. by rewrite E.
Qed.

Lemma lstrip_no_colon a :
  contains ":" a = false → contains ":" (ParseAcc.lstrip a) = false.
Proof.
  induction a as [|c a IH]; [done|]. cbn [contains ParseAcc.lstrip].
  intros H. destruct (is_space c); [|exact H].
  apply IH. by apply orb_false_iff in H as [_ ?].
Qed.

Lemma rstrip_no_colon b :
  contains ":" b = false → contains ":" (ParseAcc.rstrip b) = false.
Proof.
  induction b as [|c b IH]; [done|]. cbn [contains ParseAcc.rstrip].
  intros [Hc Hb]%orb_false_iff. specialize (IH Hb).
  destruct (ParseAcc.rstrip b).
  - destruct (is_space c); [done|]. cbn. by rewrite Hc.
  - cbn [contains]. rewrite Hc. exact IH.
Qed.

Lemma strip_lstrip a : ParseAcc.strip (ParseAcc.lstrip a) = ParseAcc.strip a.
Proof.
  unfold ParseAcc.strip. f_equal.
  induction a as [|c a IH]; [done|]. cbn [ParseAcc.lstrip].
  destruct (is_space c) eqn:E; [exact IH|]. cbn [ParseAcc.lstrip]. by rewrite E.
Qed.

Lemma rstrip_idem b : ParseAcc.rstrip (ParseAcc.rstrip b) = ParseAcc.rstrip b.
Proof.
  induction b as [|c b IH]; [done|]. cbn [ParseAcc.rstrip].
  destruct (ParseAcc.rstrip b) as [|d r] eqn:E.
  - destruct (is_space c) eqn:Hc; [done|]. cbn. by rewrite Hc.
  - cbn [ParseAcc.rstrip]. cbn [ParseAcc.rstrip] in IH. by rewrite IH.
Qed.

Lemma rstrip_lstrip_comm b :
  ParseAcc.rstrip (ParseAcc.lstrip b) = ParseAcc.lstrip (ParseAcc.rstrip b).
Proof.
  induction b as [|c b IH]; [done|].
  cbn [ParseAcc.lstrip]. destruct (is_space c) eqn:Hc.
  - rewrite IH. cbn [ParseAcc.rstrip].
    destruct (ParseAcc.rstrip b) as [|d r]; rewrite ?Hc; [done|].
    cbn [ParseAcc.lstrip]. by rewrite Hc.
  - cbn [ParseAcc.rstrip].
    destruct (ParseAcc.rstrip b) as [|d r]; rewrite ?Hc;
      cbn [ParseAcc.lstrip]; by rewrite Hc.
Qed.

Lemma strip_rstrip b : ParseAcc.strip (ParseAcc.rstrip b) = ParseAcc.strip b.
Proof.
  unfold ParseAcc.strip.
  by rewrite rstrip_lstrip_comm, rstrip_idem, <- rstrip_lstrip_comm.
Qed.

(** A part with one colon: the key is what precedes the colon and the value
    what follows, each stripped. *)
Lemma part_step_entry a b accessions :
  contains ":" a = false → contains ":" b = false →
  ParseAcc.part_step (a +:+ String ":" b) accessions
  = Ok (ParseAcc.dict_append (ParseAcc.strip a) (ParseAcc.strip b) accessions).
Proof.
  intros Ha Hb. unfold ParseAcc.part_step.
  rewrite contains_app. cbn [contains]. rewrite Ascii.eqb_refl, orb_true_r.
  unfold ParseAcc.strip at 1. rewrite lstrip_colon, rstrip_colon by done.
  rewrite split_on_app.
  rewrite !split_on_absent
    by (by apply lstrip_no_colon || by apply rstrip_no_colon).
  cbn [app]. by rewrite strip_lstrip, strip_rstrip.
Qed.

Lemma dict_get_set_ne {V} k k' (v : V) d :
  k ≠ k' → dict_get k' (dict_set k v d) = dict_get k' d.
Proof.
  intros Hne. induction d as [|[k2 v2] d IH]; cbn [dict_set dict_get].
  - by destruct (String.eqb_spec k k').
  - destruct (String.eqb_spec k2 k) as [->|]; cbn [dict_get].
    + by destruct (String.eqb_spec k k').
    + by rewrite IH.
Qed.

Lemma values_dict_append key value accessions k :
  ParseAcc.values k (ParseAcc.dict_append key value accessions)
  = ParseAcc.values k accessions ++ (if decide (k = key) then [value] else []).
Proof.
  unfold ParseAcc.values, ParseAcc.dict_append.
  case_decide as Hk.
  - subst k. destruct (dict_get key accessions); by rewrite dict_get_set.
  - rewrite app_nil_r.
    destruct (dict_get key accessions); by rewrite dict_get_set_ne.
Qed.

(** What a part, a line or a file adds to the values of the keys does not
    depend on the dict that the loop has reached, nor does whether it
    raises. *)
Lemma part_step_delta part d d' :
  ParseAcc.part_step part d = Ok d' →
  ∃ delta : string → list string,
    ∀ e, ∃ e', ParseAcc.part_step part e = Ok e'
               ∧ ∀ k, ParseAcc.values k e' = ParseAcc.values k e ++ delta k.
Proof.
  unfold ParseAcc.part_step. destruct (contains ":" part).
  - destruct (split_on ":" (ParseAcc.strip part)) as [|key [|value [|? ?]]];
      try done.
    intros _. exists (λ k, if decide (k = ParseAcc.strip key)
                           then [ParseAcc.strip value] else []).
    intros e. eexists. split; [done|]. intros k. apply values_dict_append.
  - intros _. exists (λ _, []). intros e. exists e. split; [done|].
    intros k. by rewrite app_nil_r.
Qed.

Lemma parts_loop_delta parts d d' :
  ParseAcc.parts_loop parts d = Ok d' →
  ∃ delta : string → list string,
    ∀ e, ∃ e', ParseAcc.parts_loop parts e = Ok e'
               ∧ ∀ k, ParseAcc.values k e' = ParseAcc.values k e ++ delta k.
Proof.
  revert d. induction parts as [|part parts IH]; intros d H.
  - exists (λ _, []). intros e. exists e. split; [done|].
    intros k. by rewrite app_nil_r.
  - cbn [ParseAcc.parts_loop] in H.
    destruct (ParseAcc.part_step part d) as [d1|] eqn:E; [|done].
    cbn [bind] in H.
    destruct (part_step_delta _ _ _ E) as [delta1 H1].
    destruct (IH _ H) as [delta2 H2].
    exists (λ k, delta1 k ++ delta2 k). intros e.
    destruct (H1 e) as (e1 & He1 & Hv1). destruct (H2 e1) as (e2 & He2 & Hv2).
    exists e2. split.
    + cbn [ParseAcc.parts_loop]. by rewrite He1.
    + intros k. by rewrite Hv2, Hv1, app_assoc.
Qed.

Lemma lines_loop_delta lines d d' :
  ParseAcc.lines_loop lines d = Ok d' →
  ∃ delta : string → list string,
    ∀ e, ∃ e', ParseAcc.lines_loop lines e = Ok e'
               ∧ ∀ k, ParseAcc.values k e' = ParseAcc.values k e ++ delta k.
Proof.
  revert d. induction lines as [|line lines IH]; intros d H.
  - exists (λ _, []). intros e. exists e. split; [done|].
    intros k. by rewrite app_nil_r.
  - cbn [ParseAcc.lines_loop] in H.
    destruct (ParseAcc.parts_loop _ d) as [d1|] eqn:E; [|done].
    cbn [bind] in H.
    destruct (parts_loop_delta _ _ _ E) as [delta1 H1].
    destruct (IH _ H) as [delta2 H2].
    exists (λ k, delta1 k ++ delta2 k). intros e.
    destruct (H1 e) as (e1 & He1 & Hv1). destruct (H2 e1) as (e2 & He2 & Hv2).
    exists e2. split.
    + cbn [ParseAcc.lines_loop]. by rewrite He1.
    + intros k. by rewrite Hv2, Hv1, app_assoc.
Qed.

Lemma lines_loop_app lines1 lines2 d :
  ParseAcc.lines_loop (lines1 ++ lines2) d
  = let* d' := ParseAcc.lines_loop lines1 d in ParseAcc.lines_loop lines2 d'.
Proof.
  revert d. induction lines1 as [|line lines1 IH]; intros d; [done|].
  cbn [app ParseAcc.lines_loop].
  destruct (ParseAcc.parts_loop _ d); [apply IH | done].
Qed.

(** X19.  [parse_accessions] collects: the values of a key over a file are
    its values over the first lines followed by its values over the
    remaining lines, so a key that comes again, on the same line or on a
    later one, keeps all its values in the order of the file. *)
Theorem parse_accessions_accumulates lines1 lines2 accessions :
  ParseAcc.parse_accessions (lines1 ++ lines2) = Ok accessions →
  ∃ acc1 acc2,
    ParseAcc.parse_accessions lines1 = Ok acc1
    ∧ ParseAcc.parse_accessions lines2 = Ok acc2
    ∧ ∀ key, ParseAcc.values key accessions
             = ParseAcc.values key acc1 ++ ParseAcc.values key acc2.
Proof.
  unfold ParseAcc.parse_accessions. rewrite lines_loop_app.
  destruct (ParseAcc.lines_loop lines1 []) as [acc1|] eqn:E1; [|done].
  cbn [bind]. intros H2.
  destruct (lines_loop_delta _ _ _ H2) as [delta Hd].
  destruct (Hd []) as (acc2 & Hacc2 & Hv2).
  destruct (Hd acc1) as (acc & Hacc & Hv).
  rewrite H2 in Hacc. injection Hacc as <-.
  exists acc1, acc2. split; [done|]. split; [done|].
  intros key. rewrite Hv, Hv2. done.
Qed.

Lemma parse_accessions_accumulates_witness :
  ∃ acc1 acc2,
    ParseAcc.parse_accessions ["L: A1; M: B1; L: A2"] = Ok acc1
    ∧ ParseAcc.parse_accessions ["S: C1; L: A3"] = Ok acc2
    ∧ ∀ key, ParseAcc.values key
               [("L", ["A1"; "A2"; "A3"]); ("M", ["B1"]); ("S", ["C1"])]
             = ParseAcc.values key acc1 ++ ParseAcc.values key acc2.
Proof.
  apply (parse_accessions_accumulates ["L: A1; M: B1; L: A2"] ["S: C1; L: A3"]).
  reflexivity.
Defined.

Lemma parts_loop_acc_raise parts part d :
  part ∈ parts → (∀ e, raises (ParseAcc.part_step part e) = true) →
  raises (ParseAcc.parts_loop parts d) = true.
Proof.
  intros Hin Hr. revert d.
  induction parts as [|x parts IH]; intros d; [by apply elem_of_nil in Hin|].
  cbn [ParseAcc.parts_loop]. apply elem_of_cons in Hin as [<-|Hin].
  - specialize (Hr d). by destruct (ParseAcc.part_step part d).
  - destruct (ParseAcc.part_step x d); [by apply IH | done].
Qed.

Lemma lines_loop_raise lines line part d :
  line ∈ lines → part ∈ split_on ";" (ParseAcc.strip line) →
  (∀ e, raises (ParseAcc.part_step part e) = true) →
  raises (ParseAcc.lines_loop lines d) = true.
Proof.
  intros Hin Hpart Hr. revert d.
  induction lines as [|x lines IH]; intros d; [by apply elem_of_nil in Hin|].
  cbn [ParseAcc.lines_loop]. apply elem_of_cons in Hin as [<-|Hin].
  - pose proof (parts_loop_acc_raise _ _ d Hpart Hr) as H.
    by destruct (ParseAcc.parts_loop _ d).
  - destruct (ParseAcc.parts_loop _ d); [by apply IH | done].
Qed.

Lemma split_on_cons_length sep c s :
  length (split_on sep (String c s))
  = if Ascii.eqb c sep then S (length (split_on sep s))
    else length (split_on sep s).
Proof.
  cbn [split_on]. destruct (Ascii.eqb c sep); [done|].
  pose proof (split_on_nonempty sep s). by destruct (split_on sep s).
Qed.

Lemma split_on_lstrip_length s :
  length (split_on ":" (ParseAcc.lstrip s)) = length (split_on ":" s).
Proof.
  induction s as [|c s IH]; [done|]. cbn [ParseAcc.lstrip].
  destruct (is_space c) eqn:Hc; [|done]. rewrite IH, split_on_cons_length.
  destruct (Ascii.eqb_spec c ":") as [->|]; done.
Qed.

Lemma split_on_rstrip_length s :
  length (split_on ":" (ParseAcc.rstrip s)) = length (split_on ":" s).
Proof.
  induction s as [|c s IH]; [done|]. cbn [ParseAcc.rstrip].
  rewrite split_on_cons_length, <- IH.
  destruct (ParseAcc.rstrip s) as [|d r] eqn:E.
  - destruct (is_space c) eqn:Hc.
    + destruct (Ascii.eqb_spec c ":") as [->|]; done.
    + by rewrite split_on_cons_length.
  - by rewrite split_on_cons_length.
Qed.

(** X20.  A part with two colons or more cannot be unpacked into key and
    value: it raises [ValueError], whatever has been collected, and a file
    with such a part on one of its lines is not parsed at all. *)
Theorem two_colons_raise a b c :
  (∀ accessions,
     ParseAcc.part_step (a +:+ ":" +:+ b +:+ ":" +:+ c) accessions
     = Raise ValueError)
  ∧ (∀ lines line,
       line ∈ lines →
       (a +:+ ":" +:+ b +:+ ":" +:+ c) ∈ split_on ";" (ParseAcc.strip line) →
       raises (ParseAcc.parse_accessions lines) = true).
Proof.
  assert (H : ∀ accessions,
            ParseAcc.part_step (a +:+ ":" +:+ b +:+ ":" +:+ c) accessions
            = Raise ValueError).
  { intros accessions. unfold ParseAcc.part_step.
    change (a +:+ ":" +:+ b +:+ ":" +:+ c)
      with (a +:+ String ":" (b +:+ String ":" c)).
    rewrite contains_app. cbn [contains]. rewrite Ascii.eqb_refl, orb_true_r.
    assert (Hl : (3 ≤ length (split_on ":" (ParseAcc.strip
                      (a +:+ String ":" (b +:+ String ":" c)))))%nat).
    { unfold ParseAcc.strip.
      rewrite split_on_rstrip_length, split_on_lstrip_length.
      rewrite !split_on_app, !length_app.
      pose proof (split_on_length_pos ":" a).
      pose proof (split_on_length_pos ":" b).
      pose proof (split_on_length_pos ":" c). lia. }
    destruct (split_on ":" _) as [|x [|y [|z l]]]; simpl in Hl; try lia.
    reflexivity. }
  split; [exact H|]. intros lines line Hin Hpart.
  eapply lines_loop_raise; [exact Hin | exact Hpart |].
  intros e. by rewrite H.
Qed.

Lemma two_colons_raise_witness :
  ParseAcc.part_step " url: http://x" [] = Raise ValueError
  ∧ raises (ParseAcc.parse_accessions
              ["L: A1"; "M: B1; url: http://x"]) = true.
Proof.
  destruct (two_colons_raise " url" " http" "//x") as [H1 H2].
  split; [exact (H1 [])|].
  apply (H2 _ "M: B1; url: http://x"); [right; left |].
  vm_compute. right. left.
Defined.

(** X21.  A part with one colon gives one entry: the key is the text
    before the colon and the value the text after it, both without the
    whitespace around them; the value is kept whole, commas, hyphens and
    inner spaces included.  A part without colon gives nothing. *)
Theorem part_gives_stripped_entry ws1 key ws2 ws3 value ws4 accessions :
  str_forall is_space ws1 = true → str_forall is_space ws2 = true →
  str_forall is_space ws3 = true → str_forall is_space ws4 = true →
  contains ":" key = false → contains ":" value = false →
  starts_with is_space key = false → ends_with is_space key = false →
  starts_with is_space value = false → ends_with is_space value = false →
  ParseAcc.part_step
    ((ws1 +:+ key +:+ ws2) +:+ ":" +:+ (ws3 +:+ value +:+ ws4)) accessions
  = Ok (ParseAcc.dict_append key value accessions)
  ∧ ParseAcc.part_step key accessions = Ok accessions.
Proof.
  intros H1 H2 H3 H4 Hk Hv Hks Hke Hvs Hve. split.
  - change (":" +:+ ?x) with (String ":" x).
    rewrite part_step_entry.
    + by rewrite !strip_core.
    + rewrite !contains_app, Hk.
      rewrite (str_forall_absent is_space ":" ws1), (str_forall_absent is_space ":" ws2);
        done.
    + rewrite !contains_app, Hv.
      rewrite (str_forall_absent is_space ":" ws3), (str_forall_absent is_space ":" ws4);
        done.
  - unfold ParseAcc.part_step. by rewrite Hk.
Qed.

Lemma part_gives_stripped_entry_witness :
  ParseAcc.part_step "  L :  MN1-MN3, MN7 " [("L", ["X"])]
  = Ok [("L", ["X"; "MN1-MN3, MN7"])]
  ∧ ParseAcc.part_step "L" [("L", ["X"])] = Ok [("L", ["X"])].
Proof.
  apply (part_gives_stripped_entry "  " "L" " " "  " "MN1-MN3, MN7" " ");
    reflexivity.
Defined.

(** ** [write_outputs] *)

Lemma str_app_inj_l a x y : a +:+ x = a +:+ y → x = y.
Proof.
  induction a as [|c a IH]; [by rewrite !app_empty_l|].
  rewrite !app_cons. intros [= H]. by apply IH.
Qed.

Lemma str_app_length a b :
  String.length (a +:+ b) = (String.length a + String.length b)%nat.
Proof.
  induction a as [|c a IH]; [by rewrite app_empty_l|].
  rewrite app_cons. simpl. by rewrite IH.
Qed.

Lemma str_app_inj_r x y s : x +:+ s = y +:+ s → x = y.
Proof.
  revert y. induction x as [|c x IH]; intros [|d y] H.
  - done.
  - apply (f_equal String.length) in H.
    rewrite !str_app_length in H. simpl in H. lia.
  - apply (f_equal String.length) in H.
    rewrite !str_app_length in H. simpl in H. lia.
  - rewrite !app_cons in H. injection H as -> H. by rewrite (IH _ H).
Qed.

Lemma output_name_inj output_prefix key1 key2 :
  output_prefix +:+ "_" +:+ key1 +:+ ".txt"
  = output_prefix +:+ "_" +:+ key2 +:+ ".txt" →
  key1 = key2.
Proof.
  intros H. apply str_app_inj_l, str_app_inj_l in H.
  by apply str_app_inj_r in H.
Qed.

Lemma write_keys_lookup keys accessions output_prefix fs key :
  key ∈ keys →
  ParseAcc.write_keys keys accessions output_prefix fs
    !! (output_prefix +:+ "_" +:+ key +:+ ".txt")
  = Some (ParseAcc.item_lines (ParseAcc.values key accessions)).
Proof.
  revert fs. induction keys as [|k keys IH]; intros fs Hin;
    [by apply elem_of_nil in Hin|].
  cbn [ParseAcc.write_keys].
  destruct (decide (key ∈ keys)) as [Hk|Hk]; [by apply IH|].
  apply elem_of_cons in Hin as [->|Hin]; [|done].
  clear IH. revert fs.
  induction keys as [|k' keys IH]; intros fs.
  - cbn [ParseAcc.write_keys]. by rewrite lookup_insert_eq.
  - apply not_elem_of_cons in Hk as [Hne Hk].
    cbn [ParseAcc.write_keys]. rewrite insert_insert_ne.
    + by apply IH.
    + intros H. apply output_name_inj in H. done.
Qed.

Lemma write_keys_other keys accessions output_prefix fs name :
  (∀ key, key ∈ keys → name ≠ output_prefix +:+ "_" +:+ key +:+ ".txt") →
  ParseAcc.write_keys keys accessions output_prefix fs !! name = fs !! name.
Proof.
  revert fs. induction keys as [|k keys IH]; intros fs H; [done|].
  cbn [ParseAcc.write_keys]. rewrite IH.
  - rewrite lookup_insert_ne; [done|]. intros Heq. by apply (H k); [left|].
  - intros key Hin. apply H. by right.
Qed.

(** X22.  [main] of [parse_acc.py] writes one file for each key that the
    input has: the file [PREFIX_KEY.txt] holds the values of the key, one
    on a line, in the order of the input; different keys have different
    files, and no other file is touched. *)
Theorem one_file_per_key lines output_prefix fs fs' :
  ParseAcc.main lines output_prefix fs = Ok fs' →
  ∃ accessions,
    ParseAcc.parse_accessions lines = Ok accessions
    ∧ (∀ key, key ∈ accessions.*1 →
         fs' !! (output_prefix +:+ "_" +:+ key +:+ ".txt")
         = Some (ParseAcc.item_lines (ParseAcc.values key accessions)))
    ∧ (∀ name,
         (∀ key, key ∈ accessions.*1 →
            name ≠ output_prefix +:+ "_" +:+ key +:+ ".txt") →
         fs' !! name = fs !! name).
Proof.
  unfold ParseAcc.main.
  destruct (ParseAcc.parse_accessions lines) as [accessions|]; [|done].
  cbn [bind]. intros [= <-]. exists accessions. split; [done|]. split.
  - intros key Hkey. by apply write_keys_lookup.
  - intros name Hname. by apply write_keys_other.
Qed.

Lemma one_file_per_key_witness :
  ∃ accessions,
    ParseAcc.parse_accessions ["L: A1; M: B1"; "L: A2"] = Ok accessions
    ∧ (∀ key, key ∈ accessions.*1 →
         (<["seg_M.txt" := "B1
"]> (<["seg_L.txt" := "A1
A2
"]> (<["old.txt" := "x"]> ∅)) : gmap string string)
           !! ("seg" +:+ "_" +:+ key +:+ ".txt")
         = Some (ParseAcc.item_lines (ParseAcc.values key accessions)))
    ∧ (∀ name,
         (∀ key, key ∈ accessions.*1 →
            name ≠ "seg" +:+ "_" +:+ key +:+ ".txt") →
         (<["seg_M.txt" := "B1
"]> (<["seg_L.txt" := "A1
A2
"]> (<["old.txt" := "x"]> ∅)) : gmap string string) !! name
         = (<["old.txt" := "x"]> ∅ : gmap string string) !! name).
Proof.
  apply (one_file_per_key ["L: A1; M: B1"; "L: A2"] "seg"
           (<["old.txt" := "x"]> ∅)).
  vm_compute. reflexivity.
Defined.

(** * Properties of [homopolymers.py] *)

(** ** The pattern *)




















(** ** The counts *)






















(** ** The totals of a run *)









